(** * Render job pipeline of the code-to-video backend

A shallow embedding of [api-server.js], [lib/config-extractor.js] and
[lib/temp-project.js], and the properties of the render job pipeline
established on it.

Conventions.
- A JavaScript string is a sequence of UTF-16 code units: [str].
- A JavaScript number is an IEEE 754 binary64 value: [float].
- Regular expressions of the sources are transcribed constructor for
  constructor into [regex] and run by a backtracking matcher with the
  priorities of the language (leftmost start, greedy or lazy
  repetition, left alternative first).
- Effects (file system, logging, calls of the external bundler and
  renderer) are threaded through a state-and-exception monad [M]. *)

From Stdlib Require Import ZArith NArith List String Ascii Lia Bool.
From Stdlib Require Import Floats.PrimFloat Floats.SpecFloat Floats.FloatOps.
From stdpp Require Import gmap list.

Open Scope Z_scope.

(** ** Strings *)

Module Str.
  Local Open Scope N_scope.

Definition char := N.
Definition str := list char.

(** Code units of an ASCII literal. *)
Definition u (s : string) : str := map N_of_ascii (list_ascii_of_string s).

Definition ch (a : ascii) : char := N_of_ascii a.

Definition char_eqb (a b : char) : bool := N.eqb a b.

Fixpoint str_eqb (a b : str) : bool :=
  match a, b with
  | [], [] => true
  | x :: a', y :: b' => char_eqb x y && str_eqb a' b'
  | _, _ => false
  end.

Definition in_range (lo hi c : char) : bool := (N.leb lo c && N.leb c hi)%bool.

(** [\d] *)
Definition is_digit (c : char) : bool := in_range 48 57 c.
(** [[A-Z]] *)
Definition is_upper (c : char) : bool := in_range 65 90 c.
(** [[a-z]] *)
Definition is_lower (c : char) : bool := in_range 97 122 c.
(** [[a-zA-Z0-9]] *)
Definition is_alnum (c : char) : bool := (is_lower c || is_upper c || is_digit c)%bool.

(** LineTerminator: LF, CR, LS, PS. *)
Definition is_line_terminator (c : char) : bool :=
  (N.eqb c 10 || N.eqb c 13 || N.eqb c 8232 || N.eqb c 8233)%bool.

(** [\s]: WhiteSpace and LineTerminator of the language. *)
Definition is_space (c : char) : bool :=
  (in_range 9 13 c || N.eqb c 32 || N.eqb c 160 || N.eqb c 5760
   || in_range 8192 8202 c || N.eqb c 8232 || N.eqb c 8233
   || N.eqb c 8239 || N.eqb c 8287 || N.eqb c 12288 || N.eqb c 65279)%bool.

Fixpoint starts_with (p s : str) : bool :=
  match p, s with
  | [], _ => true
  | x :: p', y :: s' => char_eqb x y && starts_with p' s'
  | _ :: _, [] => false
  end.

Definition ends_with (p s : str) : bool := starts_with (rev p) (rev s).

(** [hay.includes(needle)] *)
Fixpoint includes (needle hay : str) : bool :=
  match hay with
  | [] => starts_with needle []
  | _ :: hay' => (starts_with needle hay || includes needle hay')%bool
  end.

End Str.
Import Str.

(** ** Regular expressions *)

Module Regex.

Inductive regex : Type :=
| Eps
| Cls (p : char -> bool)            (* one code unit of a class *)
| Seq (r1 r2 : regex)
| Alt (r1 r2 : regex)               (* r1|r2, left first *)
| Star (greedy : bool) (r : regex)  (* r* and r*? *)
| Group (n : nat) (r : regex)       (* capturing group number n *)
| Eol.                              (* $ under the m flag *)

Definition Chr (c : char) : regex := Cls (char_eqb c).
Definition Any : regex := Cls (fun _ => true).                       (* [\s\S] *)
Definition Dot : regex := Cls (fun c => negb (is_line_terminator c)). (* . *)
Definition Plus (r : regex) : regex := Seq r (Star true r).          (* r+ *)
Definition Opt (r : regex) : regex := Alt r Eps.                     (* r? *)

Fixpoint Lit (s : str) : regex :=
  match s with
  | [] => Eps
  | c :: s' => Seq (Chr c) (Lit s')
  end.

Fixpoint seqs (rs : list regex) : regex :=
  match rs with
  | [] => Eps
  | [r] => r
  | r :: rs' => Seq r (seqs rs')
  end.

(** Captures, most recent binding first. *)
Definition captures := list (nat * str).

Fixpoint capture (n : nat) (cs : captures) : option str :=
  match cs with
  | [] => None
  | (m, s) :: cs' => if Nat.eqb n m then Some s else capture n cs'
  end.

Definition at_line_end (s : str) : bool :=
  match s with
  | [] => true
  | c :: _ => is_line_terminator c
  end.

Definition consumed (s rest : str) : str := take (length s - length rest)%nat s.

Section Matcher.
Context {A : Type}.

(** Iterations of a repetition whose body is matched by [body]; an
    iteration that consumes nothing is rejected, as in the language.
    [fuel] bounds the number of iterations by the length of the input. *)
Fixpoint star_loop (body : str -> captures -> (str -> captures -> option A) -> option A)
         (greedy : bool) (k : str -> captures -> option A)
         (fuel : nat) (s : str) (cs : captures) {struct fuel} : option A :=
  let more (_ : unit) :=
    match fuel with
    | O => None
    | S fuel' =>
        body s cs
          (fun s' c' =>
             if (length s' <? length s)%nat
             then star_loop body greedy k fuel' s' c' else None)
    end in
  if greedy then
    match more tt with
    | Some a => Some a
    | None => k s cs
    end
  else
    match k s cs with
    | Some a => Some a
    | None => more tt
    end.

(** Backtracking matcher in continuation-passing style: [rmatch r s cs k]
    matches a prefix of [s] against [r] and hands the rest to [k]; the
    first success in priority order wins. *)
Fixpoint rmatch (r : regex) (s : str) (cs : captures)
         (k : str -> captures -> option A) {struct r} : option A :=
  match r with
  | Eps => k s cs
  | Cls p =>
      match s with
      | c :: s' => if p c then k s' cs else None
      | [] => None
      end
  | Seq r1 r2 => rmatch r1 s cs (fun s1 c1 => rmatch r2 s1 c1 k)
  | Alt r1 r2 =>
      match rmatch r1 s cs k with
      | Some a => Some a
      | None => rmatch r2 s cs k
      end
  | Star greedy r1 => star_loop (rmatch r1) greedy k (length s) s cs
  | Group n r1 =>
      rmatch r1 s cs (fun s' c' => k s' ((n, consumed s s') :: c'))
  | Eol => if at_line_end s then k s cs else None
  end.

End Matcher.

(** What the matcher computes, as a relation: [Match r s cs s' cs'] when
    [r] matches the part of [s] before its suffix [s'], taking the
    captures from [cs] to [cs']. *)
Inductive Match : regex -> str -> captures -> str -> captures -> Prop :=
| MEps s cs : Match Eps s cs s cs
| MCls p c s cs : p c = true -> Match (Cls p) (c :: s) cs s cs
| MSeq r1 r2 s cs s1 cs1 s2 cs2 :
    Match r1 s cs s1 cs1 -> Match r2 s1 cs1 s2 cs2 ->
    Match (Seq r1 r2) s cs s2 cs2
| MAltL r1 r2 s cs s' cs' : Match r1 s cs s' cs' -> Match (Alt r1 r2) s cs s' cs'
| MAltR r1 r2 s cs s' cs' : Match r2 s cs s' cs' -> Match (Alt r1 r2) s cs s' cs'
| MStarStop g r s cs : Match (Star g r) s cs s cs
| MStarMore g r s cs s1 cs1 s2 cs2 :
    Match r s cs s1 cs1 -> (length s1 < length s)%nat ->
    Match (Star g r) s1 cs1 s2 cs2 ->
    Match (Star g r) s cs s2 cs2
| MGroup n r s cs s' cs' :
    Match r s cs s' cs' -> Match (Group n r) s cs s' ((n, consumed s s') :: cs')
| MEol s cs : at_line_end s = true -> Match Eol s cs s cs.

Record MatchResult := {
  m_pre : str;         (* input before the match *)
  m_text : str;        (* match[0] *)
  m_caps : captures;
  m_post : str         (* input after the match *)
}.

Definition match_here (r : regex) (s : str) : option (str * captures) :=
  rmatch r s [] (fun rest cs => Some (rest, cs)).

(** First match, scanning start positions from the left. *)
Fixpoint search_from (r : regex) (pre_rev : str) (s : str) : option MatchResult :=
  match match_here r s with
  | Some (rest, cs) =>
      Some {| m_pre := rev pre_rev; m_text := consumed s rest;
              m_caps := cs; m_post := rest |}
  | None =>
      match s with
      | [] => None
      | c :: s' => search_from r (c :: pre_rev) s'
      end
  end.

(** [s.match(r)] for [r] without the g flag. *)
Definition str_match (r : regex) (s : str) : option MatchResult := search_from r [] s.

(** [r.test(s)] *)
Definition test (r : regex) (s : str) : bool :=
  match str_match r s with Some _ => true | None => false end.

(** Successive matches under the g flag: after a match the scan resumes
    at its end, one unit further after an empty match. *)
Fixpoint match_all_fuel (fuel : nat) (r : regex) (s : str) : list MatchResult :=
  match fuel with
  | O => []
  | S fuel' =>
      match str_match r s with
      | None => []
      | Some m =>
          m :: match m_text m, m_post m with
               | [], [] => []
               | [], _ :: rest => match_all_fuel fuel' r rest
               | _ :: _, rest => match_all_fuel fuel' r rest
               end
      end
  end.

(** [s.matchAll(r)] *)
Definition match_all (r : regex) (s : str) : list MatchResult :=
  match_all_fuel (S (length s)) r s.

(** [s.replace(r, repl)] under the g flag. *)
Fixpoint replace_all_fuel (fuel : nat) (r : regex) (repl : MatchResult -> str)
         (s : str) : str :=
  match fuel with
  | O => s
  | S fuel' =>
      match str_match r s with
      | None => s
      | Some m =>
          m_pre m ++ repl m ++
            match m_text m, m_post m with
            | [], [] => []
            | [], c :: rest => c :: replace_all_fuel fuel' r repl rest
            | _ :: _, rest => replace_all_fuel fuel' r repl rest
            end
      end
  end.

Definition replace_all (r : regex) (repl : MatchResult -> str) (s : str) : str :=
  replace_all_fuel (S (length s)) r repl s.

(** [match[n]], [undefined] being [None]. *)
Definition group (n : nat) (m : MatchResult) : option str := capture n (m_caps m).

End Regex.
Import Regex.

(** ** Numbers *)

Module Num.

Definition NaN : float := PrimFloat.nan.
Definition pos_zero : float := PrimFloat.zero.
Definition neg_zero : float := PrimFloat.neg_zero.

(** The number nearest to an integer (ties to even). *)
Definition Z_to_float (z : Z) : float :=
  SF2Prim (binary_normalize prec emax z 0 false).

(** The number nearest to [m / d] for [m >= 0], [d > 0]: the quotient is
    taken with more bits than the format holds and a sticky bit for the
    remainder, then rounded once. *)
Definition ratio_to_float (m d : Z) : float :=
  let k := Z.max 0 (prec + 3 + Z.log2 d - Z.log2 m) in
  let n := Z.shiftl m k in
  let sticky := if (n mod d =? 0) then 0 else 1 in
  SF2Prim (binary_normalize prec emax (2 * (n / d) + sticky) (- k - 1) false).

(** The number nearest to [m * 10^e] for [m >= 0], negated when [neg]. *)
Definition dec_to_float (neg : bool) (m e : Z) : float :=
  let x :=
    if m =? 0 then pos_zero
    else if 0 <=? e then Z_to_float (m * 10 ^ e)
    else ratio_to_float m (10 ^ (- e)) in
  if neg then PrimFloat.opp x else x.

(** The integer nearest to [sm / 2^k], the larger one on a tie. *)
Definition round_half_up (sm : Z) (k : Z) : Z := (2 * sm + 2 ^ k) / 2 ^ (k + 1).

(** [Math.round] *)
Definition Math_round (x : float) : float :=
  match Prim2SF x with
  | S754_finite sgn m e =>
      if 0 <=? e then x
      else
        let n := round_half_up (if sgn then Z.neg m else Z.pos m) (- e) in
        if n =? 0 then (if sgn then neg_zero else pos_zero) else Z_to_float n
  | _ => x
  end.

(** The integer a number denotes, when it is one of magnitude below 2^53. *)
Definition safe_integer (x : float) : option Z :=
  match Prim2SF x with
  | S754_zero _ => Some 0
  | S754_finite sgn m e =>
      let a :=
        if 0 <=? e then Some (Z.pos m * 2 ^ e)
        else if Z.pos m mod 2 ^ (- e) =? 0 then Some (Z.pos m / 2 ^ (- e))
        else None in
      match a with
      | Some z => if z <? 2 ^ 53 then Some (if sgn then - z else z) else None
      | None => None
      end
  | _ => None
  end.

Fixpoint span {A} (p : A -> bool) (l : list A) : list A * list A :=
  match l with
  | x :: l' => if p x then let (a, b) := span p l' in (x :: a, b) else ([], l)
  | [] => ([], [])
  end.

(** Leading StrWhiteSpaceChar removed. *)
Fixpoint trim_left (s : str) : str :=
  match s with
  | c :: s' => if is_space c then trim_left s' else s
  | [] => []
  end.

(** An optional sign: whether it is [-], and the rest. *)
Definition take_sign (s : str) : bool * str :=
  match s with
  | c :: s' =>
      if char_eqb c (ch "-") then (true, s')
      else if char_eqb c (ch "+") then (false, s')
      else (false, s)
  | [] => (false, [])
  end.

Definition digit_value (c : char) : Z :=
  if is_digit c then Z.of_N c - 48
  else if is_lower c then Z.of_N c - 97 + 10
  else if is_upper c then Z.of_N c - 65 + 10
  else 36.

Definition is_radix_digit (radix : Z) (c : char) : bool := digit_value c <? radix.

Definition digits_value (radix : Z) (ds : str) : Z :=
  fold_left (fun acc c => acc * radix + digit_value c) ds 0.

(** [parseInt(s)] with no radix argument. *)
Definition parseInt (s : str) : float :=
  let (neg, s1) := take_sign (trim_left s) in
  let (radix, s2) :=
    if (starts_with (u "0x") s1 || starts_with (u "0X") s1)%bool
    then (16, drop 2 s1) else (10, s1) in
  let (ds, _) := span (is_radix_digit radix) s2 in
  match ds with
  | [] => NaN
  | _ :: _ =>
      let n := digits_value radix ds in
      if neg then (if n =? 0 then neg_zero else PrimFloat.opp (Z_to_float n))
      else Z_to_float n
  end.

(** The exponent part [e], [e+] or [e-] followed by digits, when present. *)
Definition exponent_part (s : str) : Z :=
  match s with
  | c :: s' =>
      if (char_eqb c (ch "e") || char_eqb c (ch "E"))%bool then
        let (neg, s'') := take_sign s' in
        let (ds, _) := span is_digit s'' in
        match ds with
        | [] => 0
        | _ :: _ => if neg then - digits_value 10 ds else digits_value 10 ds
        end
      else 0
  | [] => 0
  end.

(** [parseFloat(s)]: the longest prefix that is a StrDecimalLiteral. *)
Definition parseFloat (s : str) : float :=
  let (neg, s1) := take_sign (trim_left s) in
  if starts_with (u "Infinity") s1
  then (if neg then PrimFloat.neg_infinity else PrimFloat.infinity)
  else
    let (ip, r1) := span is_digit s1 in
    let (fp, r2) :=
      match r1 with
      | c :: t => if char_eqb c (ch ".") then span is_digit t else ([], r1)
      | [] => ([], [])
      end in
    match ip ++ fp with
    | [] => NaN
    | _ :: _ =>
        dec_to_float neg (digits_value 10 (ip ++ fp))
                     (exponent_part r2 - Z.of_nat (length fp))
    end.

(** Decimal digits of a natural number. *)
Fixpoint digits_fuel (fuel : nat) (n : Z) (acc : str) : str :=
  match fuel with
  | O => acc
  | S fuel' =>
      let acc' := Z.to_N (48 + n mod 10) :: acc in
      if n <? 10 then acc' else digits_fuel fuel' (n / 10) acc'
  end.

Definition Z_to_decimal (z : Z) : str :=
  let ds := digits_fuel (S (Z.to_nat (Z.log2 (Z.abs z)))) (Z.abs z) [] in
  if z <? 0 then ch "-" :: ds else ds.

End Num.
Import Num.

(** ** Values *)

Module JS.

(** Values of the language as far as a configuration can hold them.
    Arrays and functions are objects. *)
#[warnings="-register-all"]
Inductive jsval : Type :=
| VUndef
| VNull
| VBool (b : bool)
| VNum (x : float)
| VStr (s : str)
| VObj (props : list (str * jsval)).

(** ToBoolean *)
Definition truthy (v : jsval) : bool :=
  match v with
  | VUndef | VNull => false
  | VBool b => b
  | VNum x => negb (PrimFloat.is_zero x || PrimFloat.is_nan x)
  | VStr s => match s with [] => false | _ :: _ => true end
  | VObj _ => true
  end.

(** [a || b] *)
Definition js_or (a b : jsval) : jsval := if truthy a then a else b.

Fixpoint lookup_prop (key : str) (props : list (str * jsval)) : option jsval :=
  match props with
  | [] => None
  | (k, v) :: props' => if str_eqb k key then Some v else lookup_prop key props'
  end.

Definition is_nullish (v : jsval) : bool :=
  match v with VUndef | VNull => true | _ => false end.

(** [v.key] for a key that no built-in prototype defines: the own
    property of an object, [undefined] when it has none and on a
    primitive; [None] is the TypeError on [undefined] and [null]. *)
Definition get_prop (v : jsval) (key : str) : option jsval :=
  match v with
  | VUndef | VNull => None
  | VObj props =>
      Some (match lookup_prop key props with Some x => x | None => VUndef end)
  | _ => Some VUndef
  end.

End JS.
Import JS.

(** ** Paths *)

Module Path.

Definition slash : char := ch "/".

(** The segments between separators. *)
Fixpoint split_slash (s : str) (cur : str) : list str :=
  match s with
  | [] => [rev cur]
  | c :: s' =>
      if char_eqb c slash then rev cur :: split_slash s' []
      else split_slash s' (c :: cur)
  end.

Fixpoint join_slash (segs : list str) : str :=
  match segs with
  | [] => []
  | [x] => x
  | x :: segs' => x ++ slash :: join_slash segs'
  end.

(** normalizeString: the stack of kept segments, last one first. *)
Fixpoint normalize_segments (allowAboveRoot : bool) (segs : list str)
         (acc : list str) : list str :=
  match segs with
  | [] => rev acc
  | seg :: segs' =>
      if (str_eqb seg [] || str_eqb seg (u "."))%bool
      then normalize_segments allowAboveRoot segs' acc
      else if str_eqb seg (u "..") then
        match acc with
        | top :: acc' =>
            if str_eqb top (u "..")
            then normalize_segments allowAboveRoot segs'
                   (if allowAboveRoot then seg :: acc else acc)
            else normalize_segments allowAboveRoot segs' acc'
        | [] =>
            normalize_segments allowAboveRoot segs'
              (if allowAboveRoot then [seg] else [])
        end
      else normalize_segments allowAboveRoot segs' (seg :: acc)
  end.

Definition is_absolute (p : str) : bool := starts_with [slash] p.

(** [path.normalize] (POSIX) *)
Definition normalize (p : str) : str :=
  match p with
  | [] => u "."
  | _ :: _ =>
      let abs := is_absolute p in
      let trailing := ends_with [slash] p in
      let body := join_slash (normalize_segments (negb abs) (split_slash p []) []) in
      match body with
      | [] => if abs then [slash] else if trailing then u "./" else u "."
      | _ :: _ =>
          let body' := if trailing then body ++ [slash] else body in
          if abs then slash :: body' else body'
      end
  end.

(** [path.join(...parts)] (POSIX): the non-empty parts joined by the
    separator, then normalized. *)
Definition join (parts : list str) : str :=
  match List.filter (fun p => negb (str_eqb p [])) parts with
  | [] => u "."
  | ps => normalize (join_slash ps)
  end.

Fixpoint drop_trailing_slashes (rs : str) : str :=
  match rs with
  | c :: rs' => if char_eqb c slash then drop_trailing_slashes rs' else rs
  | [] => []
  end.

(** The last component of a path, trailing separators ignored. *)
Definition last_component (p : str) : str :=
  rev (fst (span (fun c => negb (char_eqb c slash)) (drop_trailing_slashes (rev p)))).

(** [path.basename(p, ext)] (POSIX) *)
Definition basename (p ext : str) : str :=
  if str_eqb p ext then []
  else
    let comp := last_component p in
    if (ends_with ext comp && negb (str_eqb comp ext))%bool
    then take (length comp - length ext)%nat comp
    else comp.

Definition dot : char := ch ".".

(** [path.extname(p)] (POSIX): in the last component, trailing separators
    ignored, the text from the last dot on; nothing when there is no dot,
    when the only dot begins the component, or when the component is the
    parent reference. *)
Definition extname (p : str) : str :=
  let comp_rev :=
    fst (span (fun c => negb (char_eqb c slash)) (drop_trailing_slashes (rev p))) in
  match span (fun c => negb (char_eqb c dot)) comp_rev with
  | (_, []) => []
  | (_, [_]) => []
  | (ext_rev, _ :: _ :: _) =>
      if str_eqb comp_rev (u "..") then [] else dot :: rev ext_rev
  end.

(** [path.dirname(p)] (POSIX): the text before the separator that precedes
    the last component, found from the end without looking at the first
    code unit. *)
Definition dirname (p : str) : str :=
  match p with
  | [] => u "."
  | c :: t =>
      let hasRoot := char_eqb c slash in
      match snd (span (fun x => negb (char_eqb x slash)) (drop_trailing_slashes (rev t))) with
      | [] => if hasRoot then [slash] else u "."
      | rest =>
          if (hasRoot && Nat.eqb (length rest) 1)%bool then u "//"
          else take (length rest) p
      end
  end.

End Path.

(** ** The platform: file system, log, external collaborators *)

Module Sys.

(** A file with its content and modification time (ms), or a directory. *)
Inductive node : Type :=
| File (content : str) (mtime : Z)
| Dir (mtime : Z).

Definition mtime_of (n : node) : Z :=
  match n with File _ t => t | Dir t => t end.

Inductive fsop : Type :=
| OpWrite (p : str)
| OpRead (p : str)
| OpUnlink (p : str)
| OpMkdir (p : str)
| OpRm (p : str)
| OpStat (p : str)
| OpReaddir (p : str).

(** What is handed to [renderMedia]: the selected composition with the
    four overridden members, and the output location. *)
Record RenderArgs := {
  ra_composition : jsval;
  ra_durationInFrames : float;
  ra_fps : jsval;
  ra_width : jsval;
  ra_height : jsval;
  ra_serveUrl : str;
  ra_codec : str;
  ra_outputLocation : str
}.

(** Calls that leave the repository's code. *)
Inductive call : Type :=
| CallEval (src : str)
| CallEnsureBrowser
| CallBundle (entryPoint : str) (modules : str)
| CallSelectComposition (serveUrl : str) (id : jsval)
| CallRenderMedia (args : RenderArgs).

Inductive logentry : Type :=
| LogInfo (msg : str)
| LogError (msg : str) (detail : str).

Record State := {
  st_fs : gmap str node;
  st_calls : list call;               (* most recent first *)
  st_log : list logentry;             (* most recent first *)
  st_tempProjectDir : option str      (* the handler's [let tempProjectDir = null] *)
}.

(** Whether a path is on disk, and the content of the file there. *)
Definition exists_on_disk (p : str) (st : State) : bool :=
bool_decide (is_Some (st_fs st !! p)).

Definition content_on_disk (p : str) (st : State) : option str :=
match st_fs st !! p with
| Some (File data _) => Some data
| _ => None
end.

(** What [renderMedia] does: the bytes it leaves at the output location,
    if any, and the error it throws, if any. *)
Record RenderOutcome := {
  ro_written : option str;
  ro_error : option str
}.

(** The answers of the platform and of the external collaborators during
    one run: the clock reads [Date_now] throughout, and an operation asked
    twice with the same arguments answers the same. [fault] makes a file
    operation fail for a reason outside the model (permissions, locks, full
    disk), with the error message; [js_eval] is the evaluator of the
    language, which may throw ([None]) and may change the disk. *)
Record Env := {
  dirname : str;                                   (* __dirname *)
  tmpdir : str;                                    (* os.tmpdir() *)
  randomUUID : str;
  Date_now : Z;
  fault : fsop -> option str;
  readdir_listing : str -> list str;
  js_eval : str -> gmap str node -> option jsval * gmap str node;
  ensureBrowser_result : option str;               (* the error, if it throws *)
  bundle_result : str -> str + str;                (* error or bundle location *)
  selectComposition_result : str -> jsval -> str + jsval;
  renderMedia_result : RenderArgs -> RenderOutcome;
  ToString_builtin : jsval -> str;
  ToNumber_builtin : jsval -> float;
  JSON_stringify : jsval -> str
}.

(** Result of a computation: a value or a thrown error (its message). *)
Inductive Res (A : Type) : Type :=
| Val (a : A)
| Exc (e : str).
Arguments Val {A} a.
Arguments Exc {A} e.

Definition M (A : Type) : Type := State -> Res A * State.

Definition ret {A} (a : A) : M A := fun st => (Val a, st).

Definition bind {A B} (m : M A) (k : A -> M B) : M B :=
  fun st =>
    match m st with
    | (Val a, st') => k a st'
    | (Exc e, st') => (Exc e, st')
    end.

Definition throw {A} (e : str) : M A := fun st => (Exc e, st).

(** [try { m } catch (e) { h e }] *)
Definition try_catch {A} (m : M A) (h : str -> M A) : M A :=
  fun st =>
    match m st with
    | (Val a, st') => (Val a, st')
    | (Exc e, st') => h e st'
    end.

(** [try { m } catch (e) { h e } finally { fin }] *)
Definition try_catch_finally {A} (m : M A) (h : str -> M A) (fin : M unit) : M A :=
  fun st =>
    let (r, st1) := try_catch m h st in
    match fin st1 with
    | (Val _, st2) => (r, st2)
    | (Exc e, st2) => (Exc e, st2)
    end.

Definition get : M State := fun st => (Val st, st).
Definition modify (f : State -> State) : M unit := fun st => (Val tt, f st).

Declare Scope m_scope.
Delimit Scope m_scope with M.
Notation "x <- m ;; k" := (bind m (fun x => k))
  (at level 100, m at next level, right associativity) : m_scope.
Notation "m ;;; k" := (bind m (fun _ => k))
  (at level 100, right associativity) : m_scope.
Local Open Scope m_scope.

Definition set_fs (f : gmap str node -> gmap str node) (st : State) : State :=
  {| st_fs := f (st_fs st); st_calls := st_calls st; st_log := st_log st;
     st_tempProjectDir := st_tempProjectDir st |}.

Definition add_call (c : call) (st : State) : State :=
  {| st_fs := st_fs st; st_calls := c :: st_calls st; st_log := st_log st;
     st_tempProjectDir := st_tempProjectDir st |}.

Definition add_log (l : logentry) (st : State) : State :=
  {| st_fs := st_fs st; st_calls := st_calls st; st_log := l :: st_log st;
     st_tempProjectDir := st_tempProjectDir st |}.

Definition set_tempProjectDir (d : option str) (st : State) : State :=
  {| st_fs := st_fs st; st_calls := st_calls st; st_log := st_log st;
     st_tempProjectDir := d |}.

Definition log_info (msg : str) : M unit := modify (add_log (LogInfo msg)).
Definition log_error (msg detail : str) : M unit := modify (add_log (LogError msg detail)).
Definition record (c : call) : M unit := modify (add_call c).

(** [p] lies below the directory [d]. *)
Definition below (d p : str) : bool := starts_with (d ++ [Path.slash]) p.

Section Platform.
  Context (env : Env).

(** Runs a file operation unless the platform makes it fail. *)
Definition guarded {A} (op : fsop) (m : M A) : M A :=
  match fault env op with
  | Some e => throw e
  | None => m
  end.

(** [fs.existsSync(p)] *)
Definition existsSync (p : str) : M bool :=
  fun st => (Val (bool_decide (is_Some (st_fs st !! p))), st).

(** [fs.writeFile(p, data)] and [fs.writeFileSync(p, data)] *)
Definition writeFile (p data : str) : M unit :=
  guarded (OpWrite p)
    (st <- get ;;
     match st_fs st !! p with
     | Some (Dir _) => throw (u "EISDIR: illegal operation on a directory")
     | _ => modify (set_fs (insert p (File data (Date_now env))))
     end).

(** [fs.readFile(p)] and [fs.readFileSync(p, 'utf-8')] *)
Definition readFile (p : str) : M str :=
  guarded (OpRead p)
    (st <- get ;;
     match st_fs st !! p with
     | Some (File data _) => ret data
     | Some (Dir _) => throw (u "EISDIR: illegal operation on a directory")
     | None => throw (u "ENOENT: no such file or directory")
     end).

(** [fs.unlink(p)] *)
Definition unlink (p : str) : M unit :=
  guarded (OpUnlink p)
    (st <- get ;;
     match st_fs st !! p with
     | Some (File _ _) => modify (set_fs (delete p))
     | Some (Dir _) => throw (u "EISDIR: illegal operation on a directory")
     | None => throw (u "ENOENT: no such file or directory")
     end).

(** [fs.mkdirSync(p, { recursive: true })] and [fs.mkdir] likewise: an
    existing directory is left as it is. *)
Definition mkdir (p : str) : M unit :=
  guarded (OpMkdir p)
    (st <- get ;;
     match st_fs st !! p with
     | Some (File _ _) => throw (u "EEXIST: file already exists")
     | Some (Dir _) => ret tt
     | None => modify (set_fs (insert p (Dir (Date_now env))))
     end).

(** [fs.rmSync(p, { recursive: true, force: true })]: the entry and all
    that lies below it. *)
Definition rmSync (p : str) : M unit :=
  guarded (OpRm p)
    (modify (set_fs (filter (fun kv => negb (str_eqb (fst kv) p || below p (fst kv)) = true)))).

(** [fs.stat(p)], of which only [mtimeMs] is used. *)
Definition stat (p : str) : M Z :=
  guarded (OpStat p)
    (st <- get ;;
     match st_fs st !! p with
     | Some n => ret (mtime_of n)
     | None => throw (u "ENOENT: no such file or directory")
     end).

(** [fs.readdir(dir)] *)
Definition readdir (dir : str) : M (list str) :=
  guarded (OpReaddir dir)
    (st <- get ;;
     match st_fs st !! dir with
     | Some (Dir _) => ret (readdir_listing env dir)
     | Some (File _ _) => throw (u "ENOTDIR: not a directory")
     | None => throw (u "ENOENT: no such file or directory")
     end).

(** [eval(src)]: the call is recorded, then the platform evaluates. *)
Definition eval (src : str) : M jsval :=
  record (CallEval src) ;;;
  fun st =>
    match js_eval env src (st_fs st) with
    | (Some v, fs') => (Val v, set_fs (fun _ => fs') st)
    | (None, fs') => (Exc (u "eval failed"), set_fs (fun _ => fs') st)
    end.

(** ToString, the conversion of a string being the string. *)
Definition ToString (v : jsval) : str :=
  match v with
  | VStr s => s
  | VNum x =>
      match safe_integer x with
      | Some z => Z_to_decimal z
      | None => ToString_builtin env v
      end
  | _ => ToString_builtin env v
  end.

(** ToNumber, the conversion of a number being the number. *)
Definition ToNumber (v : jsval) : float :=
  match v with
  | VNum x => x
  | _ => ToNumber_builtin env v
  end.

End Platform.

End Sys.
Import Sys.

Local Open Scope m_scope.

(** Text helpers for template literals. *)
Definition nl : str := [10%N].
Definition dq : str := [34%N].
Definition cat (parts : list str) : str := concat parts.
Definition unlines (ls : list str) : str := concat (map (fun l => l ++ nl) ls).
Definition quoted (s : str) : str := cat [dq; s; dq].

(** ** lib/config-extractor.js *)

Module ConfigExtractor.

Record Config := {
  id : jsval;
  durationInSeconds : jsval;
  fps : jsval;
  width : jsval;
  height : jsval;
  defaultProps : jsval
}.

(** [DEFAULTS] *)
Definition DEFAULTS_fps : jsval := VNum 30.
Definition DEFAULTS_width : jsval := VNum 1080.
Definition DEFAULTS_height : jsval := VNum 1920.
Definition DEFAULTS_durationInSeconds : jsval := VNum 5.

Definition ws : regex := Cls is_space.

(** The pattern of [content.match] in [extractCompositionConfig], written
    with blanks between its parts:
    [export \s+ const \s+ compositionConfig \s* = \s* ( \{ [\s\S]*? \} ) ;] *)
Definition re_compositionConfig : regex :=
  seqs [Lit (u "export"); Plus ws; Lit (u "const"); Plus ws;
        Lit (u "compositionConfig"); Star true ws; Chr (ch "=");
        Star true ws;
        Group 1 (seqs [Chr (ch "{"); Star false Any; Chr (ch "}")]);
        Chr (ch ";")].

(** Single-line comments, flags gm: [\/\/ .* $] *)
Definition re_line_comment : regex := seqs [Lit (u "//"); Star true Dot; Eol].

(** Multi-line comments, flag g: [\/\* [\s\S]*? \*\/] *)
Definition re_block_comment : regex :=
  seqs [Lit (u "/*"); Star false Any; Lit (u "*/")].

(** Trailing commas, flag g: [, ( \s* [}\]] )] *)
Definition re_trailing_comma : regex :=
  seqs [Chr (ch ",");
        Group 1 (seqs [Star true ws;
                       Cls (fun c => (char_eqb c (ch "}") || char_eqb c (ch "]"))%bool)])].

Definition is_quote (c : char) : bool := (char_eqb c (ch "'") || char_eqb c 34%N)%bool.

(** String value, [Q] being the class of the two quote characters:
    [key \s* : \s* Q ( [^Q]+ ) Q] *)
Definition re_string_value (key : str) : regex :=
  seqs [Lit key; Star true ws; Chr (ch ":"); Star true ws; Cls is_quote;
        Group 1 (Plus (Cls (fun c => negb (is_quote c)))); Cls is_quote].

(** Numeric value: [key \s* : \s* ( \d+ \.? \d* )] *)
Definition re_numeric_value (key : str) : regex :=
  seqs [Lit key; Star true ws; Chr (ch ":"); Star true ws;
        Group 1 (seqs [Plus (Cls is_digit); Opt (Chr (ch ".")); Star true (Cls is_digit)])].

(** [export \s+ default] *)
Definition re_export_default : regex :=
  seqs [Lit (u "export"); Plus ws; Lit (u "default")].

(** Named exports of capitalized identifiers, flag g:
    [export \s+ (?: const | function ) \s+ ( [A-Z] [a-zA-Z0-9]* )] *)
Definition re_named_export : regex :=
  seqs [Lit (u "export"); Plus ws; Alt (Lit (u "const")) (Lit (u "function"));
        Plus ws; Group 1 (Seq (Cls is_upper) (Star true (Cls is_alnum)))].

(** [match[1]] of a pattern whose group 1 takes part in every match. *)
Definition group1 (m : MatchResult) : str :=
  match group 1 m with Some s => s | None => [] end.

(** The three replacements that prepare the captured text for [eval]. *)
Definition clean_config (captured : str) : str :=
  replace_all re_trailing_comma group1
    (replace_all re_block_comment (fun _ => [])
       (replace_all re_line_comment (fun _ => []) captured)).

(** [extractValue(configStr, key)], [null] being [None]. *)
Definition extractValue (configStr key : str) : option str :=
  match str_match (re_string_value key) configStr with
  | Some m => Some (group1 m)
  | None =>
      match str_match (re_numeric_value key) configStr with
      | Some m => Some (group1 m)
      | None => None
      end
  end.

(** An argument of [parseInt] or [parseFloat] converted to a string. *)
Definition string_or_null (o : option str) : str :=
  match o with Some s => s | None => u "null" end.

Definition value_or_null (o : option str) : jsval :=
  match o with Some s => VStr s | None => VNull end.

(** The [catch (evalError)] branch. *)
Definition regex_fallback (configStr filename : str) : Config :=
  {| id := js_or (value_or_null (extractValue configStr (u "id"))) (VStr filename);
     durationInSeconds :=
       js_or (VNum (parseFloat (string_or_null (extractValue configStr (u "durationInSeconds")))))
             DEFAULTS_durationInSeconds;
     fps := js_or (VNum (parseInt (string_or_null (extractValue configStr (u "fps")))))
                  DEFAULTS_fps;
     width := js_or (VNum (parseInt (string_or_null (extractValue configStr (u "width")))))
                    DEFAULTS_width;
     height := js_or (VNum (parseInt (string_or_null (extractValue configStr (u "height")))))
                     DEFAULTS_height;
     defaultProps := VObj [] |}.

(** [config.key], a TypeError on [undefined] and [null]. *)
Definition prop (config : jsval) (key : str) : M jsval :=
  match get_prop config key with
  | Some v => ret v
  | None => throw (u "TypeError: Cannot read properties of undefined")
  end.

Definition no_config_message (filename : str) : str :=
  cat [u "No compositionConfig found in "; filename; u ".tsx"; nl;
       u "Your file must export a compositionConfig object."].

Section WithEnv.
  Context (env : Env).

(** The [try] block: clean, evaluate, backfill. *)
Definition eval_config (captured filename : str) : M Config :=
  let configStr := clean_config captured in
  config <- eval env (cat [u "("; configStr; u ")"]) ;;
  v_id <- prop config (u "id") ;;
  v_duration <- prop config (u "durationInSeconds") ;;
  v_fps <- prop config (u "fps") ;;
  v_width <- prop config (u "width") ;;
  v_height <- prop config (u "height") ;;
  v_props <- prop config (u "defaultProps") ;;
  ret {| id := js_or v_id (VStr filename);
         durationInSeconds := js_or v_duration DEFAULTS_durationInSeconds;
         fps := js_or v_fps DEFAULTS_fps;
         width := js_or v_width DEFAULTS_width;
         height := js_or v_height DEFAULTS_height;
         defaultProps := js_or v_props (VObj []) |}.

(** [extractCompositionConfig] on the text of the file. *)
Definition extract_from (content filename : str) : M Config :=
  match str_match re_compositionConfig content with
  | None => throw (no_config_message filename)
  | Some configMatch =>
      try_catch (eval_config (group1 configMatch) filename)
                (fun evalError => ret (regex_fallback (group1 configMatch) filename))
  end.

Definition extractCompositionConfig (filePath : str) : M Config :=
  content <- readFile env filePath ;;
  extract_from content (Path.basename filePath (u ".tsx")).

End WithEnv.

Inductive ExportType := type_default | type_named.

Record ExportStyle := {
  type : ExportType;
  name : option str      (* [null] for a default export *)
}.

(** The first match whose name is not the configuration's. *)
Fixpoint first_component (namedExportMatches : list MatchResult) : option str :=
  match namedExportMatches with
  | [] => None
  | m :: rest =>
      if negb (str_eqb (group1 m) (u "compositionConfig"))
      then Some (group1 m)
      else first_component rest
  end.

(** [detectExportStyle] on the text of the file. *)
Definition detect_from (content filename : str) : ExportStyle :=
  if test re_export_default content
  then {| type := type_default; name := None |}
  else
    match first_component (match_all re_named_export content) with
    | Some n => {| type := type_named; name := Some n |}
    | None => {| type := type_named; name := Some filename |}
    end.

Definition detectExportStyle (env : Env) (filePath : str) : M ExportStyle :=
  content <- readFile env filePath ;;
  ret (detect_from content (Path.basename filePath (u ".tsx"))).

End ConfigExtractor.
Import ConfigExtractor.

(** ** lib/temp-project.js *)

Module TempProject.

Definition componentName : str := u "UserComponent".

(** [tsxFilePath.replace(/\\/g, '/')] *)
Definition forward_slashes (p : str) : str :=
  map (fun c => if char_eqb c 92%N then Path.slash else c) p.

Definition importStatement (exportStyle : ExportStyle) (tsxFileUrl : str) : str :=
  match type exportStyle with
  | type_default =>
      cat [u "import "; componentName; u " from '"; tsxFileUrl; u "';"]
  | type_named =>
      cat [u "import { ";
           match name exportStyle with Some n => n | None => u "null" end;
           u " as "; componentName; u " } from '"; tsxFileUrl; u "';"]
  end.

Definition indexTs : str :=
  unlines [u "import { registerRoot } from 'remotion';";
           u "import { Root } from './Root';";
           [];
           u "registerRoot(Root);"].

(** [JSON.stringify(tsconfig, null, 2)] *)
Definition tsconfig_json : str :=
  cat [unlines
         [u "{";
          cat [u "  "; quoted (u "compilerOptions"); u ": {"];
          cat [u "    "; quoted (u "target"); u ": "; quoted (u "ES2020"); u ","];
          cat [u "    "; quoted (u "module"); u ": "; quoted (u "commonjs"); u ","];
          cat [u "    "; quoted (u "lib"); u ": ["];
          cat [u "      "; quoted (u "ES2020"); u ","];
          cat [u "      "; quoted (u "DOM")];
          u "    ],";
          cat [u "    "; quoted (u "jsx"); u ": "; quoted (u "react-jsx"); u ","];
          cat [u "    "; quoted (u "strict"); u ": true,"];
          cat [u "    "; quoted (u "esModuleInterop"); u ": true,"];
          cat [u "    "; quoted (u "skipLibCheck"); u ": true,"];
          cat [u "    "; quoted (u "forceConsistentCasingInFileNames"); u ": true,"];
          cat [u "    "; quoted (u "resolveJsonModule"); u ": true,"];
          cat [u "    "; quoted (u "moduleResolution"); u ": "; quoted (u "node")];
          u "  },";
          cat [u "  "; quoted (u "include"); u ": ["];
          cat [u "    "; quoted (u "src/**/*")];
          u "  ]"];
       u "}"].

Definition remotionConfig : str :=
  unlines [u "import { Config } from '@remotion/cli/config';";
           [];
           u "Config.setVideoImageFormat('jpeg');";
           u "Config.setOverwriteOutput(true);"].

Section WithEnv.
  Context (env : Env).

(** [Math.round(config.durationInSeconds * config.fps)] *)
Definition durationInFrames (config : Config) : float :=
  Math_round (PrimFloat.mul (ToNumber env (durationInSeconds config))
                            (ToNumber env (fps config))).

Definition rootTsx_lines (config : Config) (import_line : str) : list str :=
[u "import React from 'react';";
 u "import { Composition } from 'remotion';";
 import_line;
 [];
 u "export const Root: React.FC = () => {";
 u "  return (";
 u "    <Composition";
 cat [u "      id="; quoted (ToString env (id config))];
 cat [u "      component={"; componentName; u "}"];
 cat [u "      durationInFrames={";
      ToString env (VNum (durationInFrames config)); u "}"];
 cat [u "      fps={"; ToString env (fps config); u "}"];
 cat [u "      width={"; ToString env (width config); u "}"];
 cat [u "      height={"; ToString env (height config); u "}"];
 cat [u "      defaultProps={";
      JSON_stringify env (js_or (defaultProps config) (VObj [])); u "}"];
 u "    />";
 u "  );";
 u "};"].

Definition rootTsx (config : Config) (import_line : str) : str :=
unlines (rootTsx_lines config import_line).

(** The name of the project directory: [remotion-render-] and the
    clock's milliseconds. *)
Definition tempDir_name : str :=
  Path.join [tmpdir env; cat [u "remotion-render-"; Z_to_decimal (Date_now env)]].

Definition createTempProject (tsxFilePath : str) (config : Config) : M str :=
  let tempDir := tempDir_name in
  mkdir env tempDir ;;;
  let srcDir := Path.join [tempDir; u "src"] in
  mkdir env srcDir ;;;
  exportStyle <- detectExportStyle env tsxFilePath ;;
  let tsxFileUrl := forward_slashes tsxFilePath in
  writeFile env (Path.join [srcDir; u "index.ts"]) indexTs ;;;
  writeFile env (Path.join [srcDir; u "Root.tsx"])
    (rootTsx config (importStatement exportStyle tsxFileUrl)) ;;;
  writeFile env (Path.join [tempDir; u "tsconfig.json"]) tsconfig_json ;;;
  writeFile env (Path.join [tempDir; u "remotion.config.ts"]) remotionConfig ;;;
  ret tempDir.

Definition cleanupTempProject (tempDir : str) : M unit :=
  match tempDir with
  | [] => ret tt
  | _ :: _ =>
      present <- existsSync tempDir ;;
      if present
      then try_catch (rmSync env tempDir) (fun e => ret tt)
      else ret tt
  end.

End WithEnv.

End TempProject.
Import TempProject.

(** ** api-server.js *)

Module ApiServer.

Record Request := {
  tsx : jsval;
  filename : jsval
}.

Inductive Payload : Type :=
| Json (members : list (str * str))
| Buffer (data : str).

Record Reply := {
  code : Z;
  headers : list (str * str);
  payload : Payload
}.

Definition MAX_TSX_SIZE : Z := 1024 * 1024.
Definition ONE_HOUR : Z := 60 * 60 * 1000.

Definition send (status : Z) (members : list (str * str)) : Reply :=
  {| code := status; headers := []; payload := Json members |}.

Definition invalid_config_message : str :=
  u "TSX must export a compositionConfig object with id, durationInSeconds, fps, width, and height".

Fixpoint for_each {A} (l : list A) (f : A -> M unit) : M unit :=
  match l with
  | [] => ret tt
  | x :: l' => f x ;;; for_each l' f
  end.

Section WithEnv.
  Context (env : Env).

Definition TEMP_DIR : str := Path.join [dirname env; u "temp"].
Definition OUTPUT_DIR : str := Path.join [dirname env; u "outputs"].

Definition ensureDirectories : M unit :=
  mkdir env TEMP_DIR ;;;
  mkdir env OUTPUT_DIR.

(** The body of the loop over the files of one directory. *)
Definition sweep_file (dir file : str) : M unit :=
  let filePath := Path.join [dir; file] in
  mtimeMs <- stat env filePath ;;
  if Date_now env - mtimeMs >? ONE_HOUR
  then unlink env filePath
  else ret tt.

(** One round of the loop over the two directories. *)
Definition sweep_dir (dir : str) : M unit :=
  try_catch
    (files <- readdir env dir ;;
     for_each files (sweep_file dir))
    (fun err => log_error (cat [u "Cleanup error in "; dir; u ":"]) err).

Definition cleanupOldFiles : M unit :=
  for_each [TEMP_DIR; OUTPUT_DIR] sweep_dir.

Definition ensureBrowser : M unit :=
  record CallEnsureBrowser ;;;
  match ensureBrowser_result env with
  | Some e => throw e
  | None => ret tt
  end.

Definition bundle (entryPoint modules : str) : M str :=
  record (CallBundle entryPoint modules) ;;;
  match bundle_result env entryPoint with
  | inl e => throw e
  | inr bundleLocation => ret bundleLocation
  end.

Definition selectComposition (serveUrl : str) (id : jsval) : M jsval :=
  record (CallSelectComposition serveUrl id) ;;;
  match selectComposition_result env serveUrl id with
  | inl e => throw e
  | inr composition => ret composition
  end.

(** The renderer may leave bytes at the output location whether or not
    it then throws. *)
Definition renderMedia (args : RenderArgs) : M unit :=
  record (CallRenderMedia args) ;;;
  let outcome := renderMedia_result env args in
  match ro_written outcome with
  | Some data =>
      modify (set_fs (insert (ra_outputLocation args) (File data (Date_now env))))
  | None => ret tt
  end ;;;
  match ro_error outcome with
  | Some e => throw e
  | None => ret tt
  end.

(** The [try] block of the handler once the configuration is extracted. *)
Definition render_with_config (jobId tsxFilePath outputFileName outputPath : str)
  (config : Config) : M Reply :=
ensureBrowser ;;;
log_info (u "Browser ready") ;;;
tempProjectDir <- createTempProject env tsxFilePath config ;;
modify (set_tempProjectDir (Some tempProjectDir)) ;;;
log_info (u "Temporary project created") ;;;
let entryPoint := Path.join [tempProjectDir; u "src"; u "index.ts"] in
let rendererNodeModules := Path.join [dirname env; u "node_modules"] in
bundleLocation <- bundle entryPoint rendererNodeModules ;;
log_info (u "Bundle complete") ;;;
composition <- selectComposition bundleLocation (id config) ;;
log_info (u "Composition selected") ;;;
let durationInFrames :=
  Math_round (PrimFloat.mul (ToNumber env (durationInSeconds config))
                            (ToNumber env (fps config))) in
renderMedia {| ra_composition := composition;
               ra_durationInFrames := durationInFrames;
               ra_fps := fps config;
               ra_width := width config;
               ra_height := height config;
               ra_serveUrl := bundleLocation;
               ra_codec := u "h264";
               ra_outputLocation := outputPath |} ;;;
log_info (u "Render complete") ;;;
unlink env tsxFilePath ;;;
stream <- readFile env outputPath ;;
ret {| code := 200;
       headers :=
         [(u "Content-Type", u "video/mp4");
          (u "Content-Disposition",
           cat [u "attachment; filename="; quoted outputFileName])];
       payload := Buffer stream |}.

(** The [try] block of the handler. *)
Definition render_try (jobId tsx tsxFilePath outputFileName outputPath : str) : M Reply :=
writeFile env tsxFilePath tsx ;;;
log_info (u "TSX file created") ;;;
extracted <-
  try_catch
    (config <- extractCompositionConfig env tsxFilePath ;;
     log_info (u "Composition config extracted") ;;;
     ret (inr config))
    (fun err =>
       ret (inl (send 400
                   [(u "error", u "Invalid composition config");
                    (u "message", invalid_config_message);
                    (u "details", err)]))) ;;
match extracted with
| inl reply => ret reply
| inr config => render_with_config jobId tsxFilePath outputFileName outputPath config
end.

(** The [catch (err)] block of the handler. *)
Definition render_catch (jobId tsxFilePath outputPath err : str) : M Reply :=
  log_error (u "Render failed") err ;;;
  try_catch
    (tsx_there <- existsSync tsxFilePath ;;
     (if tsx_there then unlink env tsxFilePath else ret tt) ;;;
     output_there <- existsSync outputPath ;;
     (if output_there then unlink env outputPath else ret tt))
    (fun cleanupErr => log_error (u "Cleanup failed") cleanupErr) ;;;
  ret (send 500 [(u "error", u "Render failed"); (u "message", err); (u "jobId", jobId)]).

(** The [finally] block of the handler. *)
Definition render_finally : M unit :=
  st <- get ;;
  match st_tempProjectDir st with
  | Some (c :: d) => cleanupTempProject env (c :: d)
  | _ => ret tt
  end.

Definition outputFileName_of (jobId : str) (filename : jsval) : jsval :=
  js_or filename (VStr (cat [jobId; u ".mp4"])).

(** [fastify.post("/render", ...)]. A thrown error leaves the handler
    when the result is [Exc]. *)
Definition render (request : Request) : M Reply :=
  match tsx request with
  | VStr (c :: t) =>
      let tsx := c :: t in
      if Z.of_nat (length tsx) >? MAX_TSX_SIZE then
        ret (send 400 [(u "error", u "TSX code too large");
                       (u "message", u "TSX code must be less than 1024KB")])
      else
        let jobId := randomUUID env in
        let tsxFilePath := Path.join [TEMP_DIR; cat [jobId; u ".tsx"]] in
        match outputFileName_of jobId (filename request) with
        | VStr outputFileName =>
            let outputPath := Path.join [OUTPUT_DIR; outputFileName] in
            modify (set_tempProjectDir None) ;;;
            try_catch_finally
              (render_try jobId tsx tsxFilePath outputFileName outputPath)
              (render_catch jobId tsxFilePath outputPath)
              render_finally
        | _ => throw (u "TypeError [ERR_INVALID_ARG_TYPE]: The path argument must be of type string")
        end
  | _ =>
      ret (send 400 [(u "error", u "Missing or invalid tsx field");
                     (u "message",
                      cat [u "Request body must include a "; quoted (u "tsx");
                           u " field with TSX code as a string"])])
  end.

End WithEnv.

End ApiServer.
Import ApiServer.

(** ** lib/validators.js *)

Module Validators.

Definition is_ascii (c : char) : bool := N.ltb c 128.

(** Lower case of one ASCII code unit. *)
Definition lower (c : char) : char := if is_upper c then N.add c 32 else c.

(** The pattern of the component check, written with blanks between its
    parts: [export \s+ ( const | function ) \s+ [A-Z]] *)
Definition re_component_export : regex :=
  seqs [Lit (u "export"); Plus ws; Group 1 (Alt (Lit (u "const")) (Lit (u "function")));
        Plus ws; Cls is_upper].

Definition no_config_export_message : str :=
  cat [u "File does not contain a compositionConfig export."; nl;
       u "Your TSX file must export a compositionConfig object."].

Definition no_component_message : str :=
  cat [u "File does not export a React component."; nl;
       u "Your TSX file must have a default export or named component export."].

Section WithPlatform.
  Context (env : Env).
  (** What [fs.accessSync(p, fs.constants.R_OK)] throws on an existing
      path, if anything, and [toLowerCase] on text outside ASCII. *)
  Context (access_error : str -> option str) (toLowerCase_builtin : str -> str).

(** [s.toLowerCase()] *)
Definition toLowerCase (s : str) : str :=
  if forallb is_ascii s then map lower s else toLowerCase_builtin s.

(** [fs.accessSync(p, fs.constants.R_OK)] *)
Definition accessSync (p : str) : M unit :=
  st <- get ;;
  match st_fs st !! p with
  | None => throw (u "ENOENT: no such file or directory")
  | Some _ =>
      match access_error p with
      | Some e => throw e
      | None => ret tt
      end
  end.

Definition validateTsxFile (filePath : str) : M bool :=
  present <- existsSync filePath ;;
  if negb present then throw (cat [u "File not found: "; filePath])
  else
    let ext := toLowerCase (Path.extname filePath) in
    if negb (str_eqb ext (u ".tsx"))
    then throw (cat [u "Invalid file type: "; ext; u ". Expected .tsx file."])
    else
      try_catch (accessSync filePath)
                (fun e => throw (cat [u "Cannot read file: "; filePath])) ;;;
      content <- readFile env filePath ;;
      if negb (includes (u "compositionConfig") content)
      then throw no_config_export_message
      else if negb (includes (u "export default") content)
              && negb (test re_component_export content)
      then throw no_component_message
      else ret true.

Definition validateOutputPath (outputPath : str) : M bool :=
  let dir := Path.dirname outputPath in
  present <- existsSync dir ;;
  if negb present then throw (cat [u "Output directory does not exist: "; dir])
  else
    let ext := toLowerCase (Path.extname outputPath) in
    if negb (str_eqb ext (u ".mp4"))
    then throw (cat [u "Invalid output extension: "; ext; u ". Expected .mp4"])
    else ret true.

End WithPlatform.

End Validators.
Import Validators.

(** Patterns without groups leave the captures as they are. *)
Fixpoint group_free (r : regex) : bool :=
  match r with
  | Eps | Cls _ | Eol => true
  | Seq r1 r2 | Alt r1 r2 => group_free r1 && group_free r2
  | Star _ r1 => group_free r1
  | Group _ _ => false
  end.

(** [r] matches somewhere in [s]. *)
Definition occurs (r : regex) (s : str) : Prop :=
  exists pre rest s' cs, s = pre ++ rest /\ Match r rest [] s' cs.

(** ** Specification of the matcher *)

(** A matcher for [r] only succeeds through a match of [r]. *)
Definition sound_body {A} (r : regex)
  (body : str -> captures -> (str -> captures -> option A) -> option A) : Prop :=
  forall s cs k a, body s cs k = Some a ->
    exists s' cs', Match r s cs s' cs' /\ k s' cs' = Some a.

(** A matcher for [r] succeeds whenever a match of [r] can be continued. *)
Definition complete_body {A} (r : regex)
  (body : str -> captures -> (str -> captures -> option A) -> option A) : Prop :=
  forall s cs s' cs' k a, Match r s cs s' cs' -> k s' cs' = Some a ->
    exists a', body s cs k = Some a'.

(** ** Sample platforms and requests *)

Module Scenario.

Definition LF : str := nl.

(** A component with a configuration and a default export. *)
Definition demo_tsx : str :=
cat [u "export const compositionConfig = { id: 'demo', fps: 24, width: 640, height: 480, durationInSeconds: 2 };";
     LF; u "export default function Demo() { return null; }"].

(** What [eval] yields for the literal of [demo_tsx]. *)
Definition demo_object : jsval :=
VObj [(u "id", VStr (u "demo")); (u "fps", VNum 24); (u "width", VNum 640);
      (u "height", VNum 480); (u "durationInSeconds", VNum 2)].

(** The match of the configuration pattern in [demo_tsx]. *)
Definition demo_match : MatchResult :=
{| m_pre := [];
   m_text := u "export const compositionConfig = { id: 'demo', fps: 24, width: 640, height: 480, durationInSeconds: 2 };";
   m_caps := [(1%nat, u "{ id: 'demo', fps: 24, width: 640, height: 480, durationInSeconds: 2 }")];
   m_post := cat [LF; u "export default function Demo() { return null; }"] |}.

Definition demo_config : Config :=
{| id := VStr (u "demo"); durationInSeconds := VNum 2; fps := VNum 24;
   width := VNum 640; height := VNum 480; defaultProps := VObj [] |}.

(** A platform on which the collaborators succeed; [uuid] is the job's
    token, [now] the clock, [faults] the failing file operations and
    [evaluated] the answer of [eval] ([None] when it throws). *)
Definition platform (uuid : str) (now : Z) (faults : fsop -> option str)
  (evaluated : option jsval) (listing : str -> list str) : Env :=
{| dirname := u "/srv/app";
   tmpdir := u "/tmp";
   randomUUID := uuid;
   Date_now := now;
   fault := faults;
   readdir_listing := listing;
   js_eval := fun _ fs => (evaluated, fs);
   ensureBrowser_result := None;
   bundle_result := fun _ => inr (u "/tmp/bundle");
   selectComposition_result := fun _ i => inr (VObj [(u "id", i)]);
   renderMedia_result := fun _ => {| ro_written := Some (u "MP4"); ro_error := None |};
   ToString_builtin := fun _ => u "?";
   ToNumber_builtin := fun _ => NaN;
   JSON_stringify := fun _ => u "{}" |}.

Definition no_fault : fsop -> option str := fun _ => None.
Definition no_listing : str -> list str := fun _ => [].

(** The disk after start-up: the two storage areas and the temp root. *)
Definition booted : State :=
{| st_fs := list_to_map [(u "/srv/app/temp", Dir 0); (u "/srv/app/outputs", Dir 0);
                         (u "/tmp", Dir 0)];
   st_calls := []; st_log := []; st_tempProjectDir := None |}.

(** The disk before the first start-up: the temp root only. *)
Definition first_start : State :=
{| st_fs := list_to_map [(u "/tmp", Dir 0)];
   st_calls := []; st_log := []; st_tempProjectDir := None |}.

Definition with_file (p data : str) (t : Z) (st : State) : State :=
set_fs (insert p (File data t)) st.

(** Two jobs whose projects are created within the same millisecond. *)
Definition uuid_A : str := u "3f0c8a52-6d1e-4b7a-9c55-0a1b2c3d4e5f".
Definition uuid_B : str := u "9a7b6c5d-4e3f-4a2b-8c1d-0e9f8a7b6c5d".
Definition tsx_A : str := u "/srv/app/temp/3f0c8a52-6d1e-4b7a-9c55-0a1b2c3d4e5f.tsx".
Definition tsx_B : str := u "/srv/app/temp/9a7b6c5d-4e3f-4a2b-8c1d-0e9f8a7b6c5d.tsx".
Definition env_A : Env := platform uuid_A 1700000000000 no_fault (Some demo_object) no_listing.
Definition env_B : Env := platform uuid_B 1700000000000 no_fault (Some demo_object) no_listing.
(** The platform of job B one millisecond later. *)
Definition env_later : Env := platform uuid_B 1700000000001 no_fault (Some demo_object) no_listing.
Definition both_submitted : State :=
with_file tsx_B demo_tsx 1700000000000 (with_file tsx_A demo_tsx 1700000000000 booted).

Definition demo_request : Request := {| tsx := VStr demo_tsx; filename := VUndef |}.

(** A configuration whose id is the empty string, and what [eval] yields
    for its literal. *)
Definition empty_id_tsx : str :=
cat [u "export const compositionConfig = { id: '', fps: 0 };"; LF;
     u "export default function Demo() { return null; }"].
Definition empty_id_object : jsval := VObj [(u "id", VStr []); (u "fps", VNum 0)].
Definition env_empty_id : Env :=
platform uuid_A 1700000000000 no_fault (Some empty_id_object) no_listing.

(** A configuration with a fractional frame rate and a syntax error, on
    which [eval] throws. *)
Definition broken_tsx : str :=
cat [u "export const compositionConfig = { fps: 29.97, width: 'wide', id: };"; LF;
     u "export default function Demo() { return null; }"].
Definition env_broken : Env :=
platform uuid_A 1700000000000 no_fault None no_listing.

(** A sweep: two stale files in the temp area, one stale file in the output
    area, and a temp file whose [stat] is refused. *)
Definition temp_a : str := u "/srv/app/temp/a.tsx".
Definition temp_b : str := u "/srv/app/temp/b.tsx".
Definition output_old : str := u "/srv/app/outputs/old.mp4".
Definition sweep_listing (dir : str) : list str :=
if str_eqb dir (u "/srv/app/temp") then [u "a.tsx"; u "b.tsx"]
else if str_eqb dir (u "/srv/app/outputs") then [u "old.mp4"]
else [].
Definition stat_refused (op : fsop) : option str :=
match op with
| OpStat p => if str_eqb p temp_a then Some (u "EACCES: permission denied") else None
| _ => None
end.
Definition env_sweep : Env :=
platform uuid_A 1700000000000 stat_refused None sweep_listing.
Definition stale_disk : State :=
with_file output_old (u "MP4") 0 (with_file temp_b (u "b") 0 (with_file temp_a (u "a") 0 booted)).

(** The same sweep with nothing refused, on a disk where the second temp
    file is a quarter of an hour old. *)
Definition env_sweep_free : Env :=
platform uuid_A 1700000000000 no_fault None sweep_listing.
Definition mixed_disk : State :=
with_file temp_b (u "b") 1699999100000 stale_disk.

(** A request that names its output file with parent directories and no
    video extension. *)
Definition escaping_request : Request :=
{| tsx := VStr demo_tsx; filename := VStr (u "../../etc/cron.d/job") |}.

(** A component that exports no configuration. *)
Definition plain_tsx : str := u "export const Hello = () => null;".
Definition plain_request : Request := {| tsx := VStr plain_tsx; filename := VUndef |}.
Definition output_A : str := u "/srv/app/outputs/3f0c8a52-6d1e-4b7a-9c55-0a1b2c3d4e5f.mp4".
Definition output_name_A : str := u "3f0c8a52-6d1e-4b7a-9c55-0a1b2c3d4e5f.mp4".

(** A configuration whose literal holds a closing brace followed by a
    semicolon before its end, and the match of the configuration pattern
    in it. *)
Definition nested_tsx : str :=
cat [u "// demo"; LF;
     u "export const compositionConfig = { id: 'a', defaultProps: { run: function () { go(); }; }, fps: 24 };"; LF;
     u "export default function Demo() { return null; }"].
Definition nested_match : MatchResult :=
{| m_pre := cat [u "// demo"; LF];
   m_text := u "export const compositionConfig = { id: 'a', defaultProps: { run: function () { go(); };";
   m_caps := [(1%nat, u "{ id: 'a', defaultProps: { run: function () { go(); }")];
   m_post := cat [u " }, fps: 24 };"; LF; u "export default function Demo() { return null; }"] |}.

(** As [platform], with a bundler that fails. *)
Definition env_bundle_fails : Env :=
{| dirname := u "/srv/app";
   tmpdir := u "/tmp";
   randomUUID := uuid_A;
   Date_now := 1700000000000;
   fault := no_fault;
   readdir_listing := no_listing;
   js_eval := fun _ fs => (Some demo_object, fs);
   ensureBrowser_result := None;
   bundle_result := fun _ => inl (u "Module not found");
   selectComposition_result := fun _ i => inr (VObj [(u "id", i)]);
   renderMedia_result := fun _ => {| ro_written := Some (u "MP4"); ro_error := None |};
   ToString_builtin := fun _ => u "?";
   ToNumber_builtin := fun _ => NaN;
   JSON_stringify := fun _ => u "{}" |}.
Definition project_A : str := u "/tmp/remotion-render-1700000000000".

(** As [env_A], with the removal of the project directory failing, as it
    does when a file in it is locked. *)
Definition locked (op : fsop) : option str :=
match op with
| OpRm _ => Some (u "EBUSY: resource busy or locked")
| _ => None
end.
Definition env_locked : Env :=
platform uuid_A 1700000000000 locked (Some demo_object) no_listing.

End Scenario.

(** ** Export styles in the words of the specification *)

Definition blank (w : str) : Prop := w <> [] /\ forallb is_space w = true.

(** A default-export keyword sequence occurs in the text. *)
Definition default_export_occurs (content : str) : Prop :=
exists pre w post, content = pre ++ u "export" ++ w ++ u "default" ++ post /\ blank w.

(** [rest] begins with a named export of the capitalized identifier
    [name], declared by [const] or [function], followed by [post]. *)
Definition named_export_here (rest name post : str) : Prop :=
exists w1 kw w2 c tail,
  rest = u "export" ++ w1 ++ kw ++ w2 ++ name ++ post /\
  blank w1 /\ (kw = u "const" \/ kw = u "function") /\ blank w2 /\
  name = c :: tail /\ is_upper c = true /\ forallb is_alnum tail = true.

(** The identifier does not go on into [post]. *)
Definition ends_identifier (post : str) : Prop :=
match post with
| [] => True
| c :: _ => is_alnum c = false
end.

(** No named export of a capitalized identifier begins at the positions
    before [n]. *)
Definition no_named_export_before (content : str) (n : nat) : Prop :=
forall i name post, (i < n)%nat -> ~ named_export_here (drop i content) name post.

Definition style_default : ExportStyle := {| type := type_default; name := None |}.
Definition style_named (n : str) : ExportStyle := {| type := type_named; name := Some n |}.

(** ** Specifications of effectful code *)

(** [hoare P m Q]: from a state satisfying [P], the result and the final
    state of [m] satisfy [Q]. Computations are total functions, so this is
    a statement about the one run there is. *)
Definition hoare {A} (P : State -> Prop) (m : M A) (Q : Res A -> State -> Prop) : Prop :=
forall st r st', P st -> m st = (r, st') -> Q r st'.

(** [I] is kept by [m], whatever its result. *)
Definition keeps {A} (I : State -> Prop) (m : M A) : Prop :=
hoare I m (fun _ st => I st).

(** Invariants that do not depend on the disk, or on the log. *)
Definition fs_blind (I : State -> Prop) : Prop :=
forall st f, I st -> I (set_fs f st).

Definition log_blind (I : State -> Prop) : Prop :=
forall st l, I st -> I (add_log l st).

(** ** The specification's statements on the job's resources *)

(** C2 as stated: a project directory the job created is gone when the job
    is over. *)
Definition project_directory_gone (env : Env) (request : Request) (st : State) : Prop :=
forall d, st_tempProjectDir (snd (render env request st)) = Some d ->
          exists_on_disk d (snd (render env request st)) = false.

(** The variable [tempProjectDir] is [null] or the directory named after
    the clock. *)
Definition tempProjectDir_ok (env : Env) (st : State) : Prop :=
st_tempProjectDir st = None \/ st_tempProjectDir st = Some (tempDir_name env).

(** C3 as stated: extraction hands no text to [eval]. *)
Definition never_evaluates_input (env : Env) (content filename : str) (st : State) : Prop :=
forall src, ~ In (CallEval src) (st_calls (snd (extract_from env content filename st))).

(** ** Extraction in the words of the specification *)

(** The own property of an evaluated literal, [None] when it is omitted. *)
Definition own (v : jsval) (key : str) : option jsval :=
match v with
| VObj props => lookup_prop key props
| _ => None
end.

(** The text handed to [eval] for a captured literal. *)
Definition eval_source (captured : str) : str :=
cat [u "("; clean_config captured; u ")"].

(** C4 as stated: a present field wins over its default, except that a
    falsy number counts as absent. *)
Definition field_as_stated (present : option jsval) (default : jsval) : jsval :=
match present with
| None => default
| Some (VNum x) => if truthy (VNum x) then VNum x else default
| Some v => v
end.

Definition config_as_stated (v : jsval) (filename : str) : Config :=
{| id := field_as_stated (own v (u "id")) (VStr filename);
   durationInSeconds := field_as_stated (own v (u "durationInSeconds")) (VNum 5);
   fps := field_as_stated (own v (u "fps")) (VNum 30);
   width := field_as_stated (own v (u "width")) (VNum 1080);
   height := field_as_stated (own v (u "height")) (VNum 1920);
   defaultProps := field_as_stated (own v (u "defaultProps")) (VObj []) |}.

Definition backfill_as_stated (env : Env) (content filename : str) (st : State) : Prop :=
forall configMatch v fs',
  str_match re_compositionConfig content = Some configMatch ->
  js_eval env (eval_source (group1 configMatch)) (st_fs st) = (Some v, fs') ->
  fst (extract_from env content filename st) = Val (config_as_stated v filename).

(** C4 amended: a field applies when it is present and truthy; an omitted
    field and any falsy value (0, NaN, the empty string, null, false,
    undefined) give the default. *)
Definition field_or_default (present : option jsval) (default : jsval) : jsval :=
match present with
| None => default
| Some v => if truthy v then v else default
end.

Definition config_backfilled (v : jsval) (filename : str) : Config :=
{| id := field_or_default (own v (u "id")) (VStr filename);
   durationInSeconds := field_or_default (own v (u "durationInSeconds")) (VNum 5);
   fps := field_or_default (own v (u "fps")) (VNum 30);
   width := field_or_default (own v (u "width")) (VNum 1080);
   height := field_or_default (own v (u "height")) (VNum 1920);
   defaultProps := field_or_default (own v (u "defaultProps")) (VObj []) |}.

(** C5 as stated: a field of the fallback result is the text of the first
    match (or the number it spells), the default when nothing matches. *)
Definition matched_or_default (v : jsval) (matched : option str) (default : jsval) : Prop :=
match matched with
| Some s => v = VStr s \/ v = VNum (parseFloat s)
| None => v = default
end.

Definition fallback_as_stated (env : Env) (content filename : str) (st : State) : Prop :=
forall configMatch,
  str_match re_compositionConfig content = Some configMatch ->
  fst (js_eval env (eval_source (group1 configMatch)) (st_fs st)) = None ->
  exists cfg,
    fst (extract_from env content filename st) = Val cfg /\
    matched_or_default (id cfg) (extractValue (group1 configMatch) (u "id")) (VStr filename) /\
    matched_or_default (durationInSeconds cfg)
      (extractValue (group1 configMatch) (u "durationInSeconds")) (VNum 5) /\
    matched_or_default (fps cfg) (extractValue (group1 configMatch) (u "fps")) (VNum 30) /\
    matched_or_default (width cfg) (extractValue (group1 configMatch) (u "width")) (VNum 1080) /\
    matched_or_default (height cfg) (extractValue (group1 configMatch) (u "height")) (VNum 1920) /\
    defaultProps cfg = VObj [].

(** C5 amended: the matched text of a numeric field is parsed, and a
    result that is NaN or zero gives the default. *)
Definition number_or_default (parsed : option float) (default : jsval) : jsval :=
match parsed with
| Some x => if truthy (VNum x) then VNum x else default
| None => default
end.

Definition fallback_amended (captured filename : str) : Config :=
{| id := match extractValue captured (u "id") with
         | Some s => VStr s
         | None => VStr filename
         end;
   durationInSeconds :=
     number_or_default (parseFloat <$> extractValue captured (u "durationInSeconds")) (VNum 5);
   fps := number_or_default (parseInt <$> extractValue captured (u "fps")) (VNum 30);
   width := number_or_default (parseInt <$> extractValue captured (u "width")) (VNum 1080);
   height := number_or_default (parseInt <$> extractValue captured (u "height")) (VNum 1920);
   defaultProps := VObj [] |}.

(** The evaluation of the captured literal throws, or yields a value whose
    fields cannot be read. *)
Definition evaluation_fails (env : Env) (captured : str) (st : State) : Prop :=
match fst (js_eval env (eval_source captured) (st_fs st)) with
| None => True
| Some v => is_nullish v = true
end.

(** ** The reaper in the words of the specification *)

(** A file older than the retention threshold. *)
Definition stale (env : Env) (st : State) (p : str) : bool :=
match st_fs st !! p with
| Some n => Date_now env - mtime_of n >? ONE_HOUR
| None => false
end.

(** C8 as stated: whatever fails elsewhere, every listed stale file whose
    own [stat] and [unlink] do not fail is deleted by the sweep. *)
Definition sweep_deletes_other_stale_files (env : Env) (st : State) : Prop :=
forall dir file,
  In dir [TEMP_DIR env; OUTPUT_DIR env] ->
  In file (readdir_listing env dir) ->
  stale env st (Path.join [dir; file]) = true ->
  fault env (OpStat (Path.join [dir; file])) = None ->
  fault env (OpUnlink (Path.join [dir; file])) = None ->
  exists_on_disk (Path.join [dir; file]) (snd (cleanupOldFiles env st)) = false.

(** The message logged for a directory whose sweep failed. *)
Definition cleanup_error (dir err : str) : logentry :=
LogError (cat [u "Cleanup error in "; dir; u ":"]) err.

(** ** Paths in the words of their use *)

(** A file name: not empty, no separator, neither [.] nor [..]. *)
Definition plain_name (n : str) : bool :=
negb (str_eqb n []) && negb (str_eqb n (u ".")) && negb (str_eqb n (u ".."))
&& forallb (fun c => negb (char_eqb c Path.slash)) n.

(** No renderer call is recorded but with the arguments [ok] allows. *)
Definition renderer_calls (ok : RenderArgs -> Prop) (c : call) : Prop :=
match c with
| CallRenderMedia args => ok args
| _ => True
end.

(** The line of the root file that declares the duration. *)
Definition duration_line (env : Env) (frames : float) : str :=
cat [u "      durationInFrames={"; ToString env (VNum frames); u "}"].

(** [returns m Q]: whenever [m] returns a value, the value satisfies [Q]. *)
Definition returns {A} (m : M A) (Q : A -> Prop) : Prop :=
forall st a st', m st = (Val a, st') -> Q a.

(** The headers of a delivered video. *)
Definition video_headers (outputFileName : str) : list (str * str) :=
[(u "Content-Type", u "video/mp4");
 (u "Content-Disposition", cat [u "attachment; filename="; quoted outputFileName])].

(** ** The handler's paths and exits *)

(** The temporary source file and the output file of a job. *)
Definition job_source (env : Env) : str :=
Path.join [TEMP_DIR env; cat [randomUUID env; u ".tsx"]].

Definition job_output (env : Env) (outputFileName : str) : str :=
Path.join [OUTPUT_DIR env; outputFileName].

(** What the handler takes as source text: a string that is not empty and
    has at most [MAX_TSX_SIZE] code units. *)
Definition acceptable_tsx (v : jsval) : bool :=
match v with
| VStr s => negb (Nat.eqb (length s) 0) && (Z.of_nat (length s) <=? MAX_TSX_SIZE)
| _ => false
end.

(** What the handler can turn into the name of the output file: nothing
    (any falsy value) or a string. *)
Definition usable_filename (v : jsval) : bool :=
match v with
| VStr _ => true
| _ => negb (truthy v)
end.

Definition never_throws {A} (m : M A) : Prop :=
forall st, exists a st', m st = (Val a, st').

(** [p] is the directory [d] or lies below it. *)
Definition inside (d p : str) : Prop := p = d \/ below d p = true.

Definition is_directory (p : str) (st : State) : bool :=
match st_fs st !! p with
| Some (Dir _) => true
| _ => false
end.

(** The reply of a failed job. *)
Definition failure_reply (jobId err : str) : Reply :=
send 500 [(u "error", u "Render failed"); (u "message", err); (u "jobId", jobId)].

(** ** The sweep of old files *)

Definition is_file (p : str) (st : State) : bool :=
match st_fs st !! p with
| Some (File _ _) => true
| _ => false
end.

(** The paths the sweep examines: the files listed in the two storage
    directories, in the order of the sweep. *)
Definition listed_paths (env : Env) (dir : str) : list str :=
map (fun file => Path.join [dir; file]) (readdir_listing env dir).

Definition swept_paths (env : Env) : list str :=
listed_paths env (TEMP_DIR env) ++ listed_paths env (OUTPUT_DIR env).

Fixpoint distinct (l : list str) : bool :=
  match l with
  | [] => true
  | p :: l' => negb (existsb (str_eqb p) l') && distinct l'
  end.

(** Nothing stands in the way of the sweep: the two storage directories
    are there and can be listed, the listings name each path once, and each
    listed path is a file that can be examined and deleted. *)
Definition sweep_unhindered (env : Env) (st : State) : bool :=
forallb (fun dir =>
           is_directory dir st &&
           match fault env (OpReaddir dir) with None => true | Some _ => false end)
        [TEMP_DIR env; OUTPUT_DIR env] &&
forallb (fun p =>
           is_file p st &&
           match fault env (OpStat p) with None => true | Some _ => false end &&
           match fault env (OpUnlink p) with None => true | Some _ => false end)
        (swept_paths env) &&
distinct (swept_paths env).

(** ** The order of the external calls *)

Inductive stage : Type := SEval | SBrowser | SBundle | SSelect | SRender.

Definition stage_of (c : call) : stage :=
match c with
| CallEval _ => SEval
| CallEnsureBrowser => SBrowser
| CallBundle _ _ => SBundle
| CallSelectComposition _ _ => SSelect
| CallRenderMedia _ => SRender
end.

Definition stage_eqb (a b : stage) : bool :=
match a, b with
| SEval, SEval | SBrowser, SBrowser | SBundle, SBundle
| SSelect, SSelect | SRender, SRender => true
| _, _ => false
end.

(** The external calls made so far, oldest first. *)
Definition stages (st : State) : list stage := rev (map stage_of (st_calls st)).

Definition pipeline : list stage := [SEval; SBrowser; SBundle; SSelect; SRender].

Fixpoint is_prefix (l1 l2 : list stage) : bool :=
  match l1, l2 with
  | [], _ => true
  | a :: l1', b :: l2' => stage_eqb a b && is_prefix l1' l2'
  | _ :: _, [] => false
  end.

(** ** The export of the configuration *)

(** [rest] begins with an export of the configuration: the two keywords,
    the name, the equals sign, a [literal] in braces and a semicolon,
    followed by [post]. *)
Definition config_export_here (rest literal post : str) : Prop :=
exists w1 w2 w3 w4 body,
  rest = u "export" ++ w1 ++ u "const" ++ w2 ++ u "compositionConfig" ++ w3 ++
         u "=" ++ w4 ++ literal ++ u ";" ++ post /\
  blank w1 /\ blank w2 /\ forallb is_space w3 = true /\ forallb is_space w4 = true /\
  literal = u "{" ++ body ++ u "}".

Definition config_export_occurs (content : str) : Prop :=
exists pre rest literal post, content = pre ++ rest /\ config_export_here rest literal post.

(** ** The files of a project *)

Definition project_src (env : Env) : str := Path.join [tempDir_name env; u "src"].
Definition project_index (env : Env) : str := Path.join [project_src env; u "index.ts"].
Definition project_root (env : Env) : str := Path.join [project_src env; u "Root.tsx"].
Definition project_tsconfig (env : Env) : str :=
Path.join [tempDir_name env; u "tsconfig.json"].
Definition project_config (env : Env) : str :=
Path.join [tempDir_name env; u "remotion.config.ts"].

(** The two directories and the four files that make a project. *)
Definition project_paths (env : Env) : list str :=
[tempDir_name env; project_src env; project_index env; project_root env;
 project_tsconfig env; project_config env].

Definition project_path (env : Env) (p : str) : bool :=
existsb (str_eqb p) (project_paths env).

(** ** What a job may touch *)

(** The evaluation of a literal leaves the disk alone. *)
Definition eval_pure (env : Env) : Prop :=
forall src fs, snd (js_eval env src fs) = fs.

(** [p] is none of the paths of the job: not its source file, not its
    output file, not its project directory nor anything in it. *)
Definition outside_job (env : Env) (outputFileName p : str) : bool :=
negb (str_eqb p (job_source env)) && negb (str_eqb p (job_output env outputFileName))
&& negb (project_path env p) && negb (below (tempDir_name env) p).

Definition holds_at (p : str) (v : option node) (st : State) : Prop :=
st_fs st !! p = v.

(** ** Normal forms of paths *)

Definition no_slash (s : str) : bool := forallb (fun c => negb (char_eqb c Path.slash)) s.

(** Segments of a normalized path: parent references first, and only
    where going above the start is allowed, then file names. *)
Fixpoint good_segs (allow : bool) (l : list str) : bool :=
  match l with
  | [] => true
  | s :: l' =>
      if str_eqb s (u "..") then allow && good_segs allow l'
      else forallb plain_name (s :: l')
  end.

(** The path made of segments, from the root when [abs]. *)
Definition path_of (abs : bool) (l : list str) : str :=
(if abs then [Path.slash] else []) ++ Path.join_slash l.

(** A path in normal form that does not end with a separator. *)
Definition clean_path (p : str) : Prop :=
exists abs l, p = path_of abs l /\ l <> [] /\ good_segs (negb abs) l = true.

(** ** The bundler's entry point *)

(** A call of the bundler is made on the index file of the project, with
    the renderer's own modules. *)
Definition entry_ok (env : Env) (c : call) : Prop :=
match c with
| CallBundle entryPoint modules =>
    entryPoint = project_index env /\ modules = Path.join [dirname env; u "node_modules"]
| _ => True
end.

(** ** Values found by pattern *)

(** The text [key] occurs at none of the first [n] positions of [s]. *)
Definition absent_before (key s : str) (n : nat) : bool :=
forallb (fun i => negb (starts_with key (drop i s))) (seq 0 n).

(** ** Replies *)

(** The reply to a source from which no configuration can be taken. *)
Definition invalid_config_reply (details : str) : Reply :=
send 400 [(u "error", u "Invalid composition config");
          (u "message", invalid_config_message);
          (u "details", details)].

(** ** When nothing fails *)

(** No file operation fails for a reason outside the model. *)
Definition no_faults (env : Env) : Prop := forall op, fault env op = None.

(** The paths of the project are free. *)
Definition project_free (env : Env) (st : State) : Prop :=
forall p, In p (project_paths env) -> st_fs st !! p = None.

(** The collaborators succeed, and the renderer leaves [data] at the
    output location. *)
Definition collaborators_succeed (env : Env) (data : str) : Prop :=
ensureBrowser_result env = None /\
(forall entryPoint, exists bundleLocation, bundle_result env entryPoint = inr bundleLocation) /\
(forall serveUrl i, exists composition,
    selectComposition_result env serveUrl i = inr composition) /\
(forall args, renderMedia_result env args = {| ro_written := Some data; ro_error := None |}).

(** The reply that delivers a video. *)
Definition video_reply (outputFileName data : str) : Reply :=
{| code := 200; headers := video_headers outputFileName; payload := Buffer data |}.

(** * Properties *)

(** ** Strings *)

Lemma char_eqb_eq a b : char_eqb a b = true <-> a = b.
Proof. apply N.eqb_eq. Qed.

Lemma str_eqb_eq a b : str_eqb a b = true <-> a = b.
Proof.
  revert b; induction a as [|x a IH]; intros [|y b]; simpl; try easy.
  rewrite andb_true_iff, char_eqb_eq, IH. split.
  - intros [-> ->]; reflexivity.
  - intros [= -> ->]; auto.
Qed.

Lemma str_eqb_refl a : str_eqb a a = true.
Proof. apply str_eqb_eq; reflexivity. Qed.

Lemma str_eqb_neq a b : str_eqb a b = false <-> a <> b.
Proof.
  rewrite <- str_eqb_eq. destruct (str_eqb a b); split; congruence.
Qed.

(** ** The matcher *)

Section MatcherFacts.
Context {A : Type}.
Implicit Types (k : str -> captures -> option A) (r : regex) (s : str) (cs : captures).

Lemma star_loop_sound r body g k :
  sound_body r body ->
  forall fuel s cs a, star_loop body g k fuel s cs = Some a ->
    exists s' cs', Match (Star g r) s cs s' cs' /\ k s' cs' = Some a.
Proof.
  intros Hb. induction fuel as [|fuel IH]; intros s cs a H; simpl in H.
  - destruct g; destruct (k s cs) eqn:E; try discriminate;
      exists s, cs; split; try constructor; congruence.
  - assert (Hmore : forall a0,
      body s cs (fun s' c' => if (length s' <? length s)%nat
                              then star_loop body g k fuel s' c' else None) = Some a0 ->
      exists s' cs', Match (Star g r) s cs s' cs' /\ k s' cs' = Some a0).
    { intros a0 H0. apply Hb in H0 as (s1 & cs1 & Hm & Hk).
      destruct (Nat.ltb_spec (length s1) (length s)) as [Hlt|]; [|discriminate].
      apply IH in Hk as (s2 & cs2 & Hm2 & Hk2).
      exists s2, cs2; split; [eapply MStarMore; eauto | exact Hk2]. }
    destruct g.
    + destruct (body s cs _) eqn:E.
      * injection H as <-. eauto.
      * exists s, cs; split; [constructor | exact H].
    + destruct (k s cs) eqn:E.
      * injection H as <-. exists s, cs; split; [constructor | exact E].
      * eauto.
Qed.

Lemma rmatch_sound r : sound_body r (rmatch (A:=A) r).
Proof.
  induction r as [|p|r1 IH1 r2 IH2|r1 IH1 r2 IH2|g r IH|n r IH|];
    intros s cs k a H; simpl in H.
  - exists s, cs; split; [constructor | exact H].
  - destruct s as [|c s]; [discriminate|].
    destruct (p c) eqn:E; [|discriminate].
    exists s, cs; split; [constructor; exact E | exact H].
  - apply IH1 in H as (s1 & cs1 & Hm1 & H).
    apply IH2 in H as (s2 & cs2 & Hm2 & H).
    exists s2, cs2; split; [econstructor; eauto | exact H].
  - destruct (rmatch r1 s cs k) eqn:E.
    + injection H as <-. apply IH1 in E as (s' & cs' & Hm & Hk).
      exists s', cs'; split; [apply MAltL; exact Hm | exact Hk].
    + apply IH2 in H as (s' & cs' & Hm & Hk).
      exists s', cs'; split; [apply MAltR; exact Hm | exact Hk].
  - eapply star_loop_sound; eauto.
  - apply IH in H as (s' & cs' & Hm & Hk).
    eexists _, _; split; [apply MGroup; exact Hm | exact Hk].
  - destruct (at_line_end s) eqn:E; [|discriminate].
    exists s, cs; split; [constructor; exact E | exact H].
Qed.

Lemma star_loop_complete r body g k :
  complete_body r body ->
  forall s cs s' cs', Match (Star g r) s cs s' cs' ->
  forall a fuel, k s' cs' = Some a -> (length s <= fuel)%nat ->
    exists a', star_loop body g k fuel s cs = Some a'.
Proof.
  intros Hb s cs s' cs' Hm.
  remember (Star g r) as r0 eqn:Er.
  induction Hm as [| | | | | g0 r1 s cs | g0 r1 s cs s1 cs1 s2 cs2 Hm1 _ Hlt Hm2 IH2 | |];
    try discriminate; injection Er as -> ->; intros a fuel Hk Hfuel.
  - destruct fuel; simpl; destruct g; rewrite ?Hk; eauto;
      match goal with |- context [match ?x with _ => _ end] => destruct x end; eauto.
  - destruct fuel as [|fuel]; [lia|]. simpl.
    assert (Hmore : exists a',
      body s cs (fun s' c' => if (length s' <? length s)%nat
                              then star_loop body g k fuel s' c' else None) = Some a').
    { destruct (IH2 eq_refl a fuel Hk ltac:(lia)) as [a2 Ha2].
      eapply Hb; [exact Hm1|].
      destruct (Nat.ltb_spec (length s1) (length s)); [exact Ha2 | lia]. }
    destruct Hmore as [a' Ha']. destruct g.
    + rewrite Ha'. eauto.
    + destruct (k s cs); eauto.
Qed.

Lemma rmatch_complete r : complete_body r (rmatch (A:=A) r).
Proof.
  induction r as [|p|r1 IH1 r2 IH2|r1 IH1 r2 IH2|g r IH|n r IH|];
    intros s cs s' cs' k a Hm Hk.
  - inversion Hm; subst. simpl. eauto.
  - inversion Hm as [|p' c s0 cs0 Hp| | | | | | |]; subst. simpl. rewrite Hp. eauto.
  - inversion Hm as [| |ra rb s0 cs0 s1 cs1 s2 cs2 Ha Hb| | | | | |]; subst. simpl.
    destruct (IH2 _ _ _ _ k a Hb Hk) as [a2 Ha2].
    eapply IH1; [exact Ha | exact Ha2].
  - simpl. inversion Hm as [| | |ra rb s0 cs0 s1 cs1 Ha|ra rb s0 cs0 s1 cs1 Hb| | | |]; subst.
    + destruct (IH1 _ _ _ _ k a Ha Hk) as [a1 ->]. eauto.
    + destruct (rmatch r1 s cs k); eauto.
  - simpl. eapply star_loop_complete; eauto.
  - inversion Hm as [| | | | | | |n' r' s0 cs0 s1 cs1 Ha|]; subst. simpl.
    eapply (IH _ _ _ _ (fun s'0 c' => k s'0 ((n, consumed s s'0) :: c'))); eauto.
  - inversion Hm as [| | | | | | | |s0 cs0 He]; subst. simpl. rewrite He. eauto.
Qed.

End MatcherFacts.

Lemma consumed_app (w s' : str) : consumed (w ++ s') s' = w.
Proof.
  unfold consumed. rewrite length_app.
  replace (length w + length s' - length s')%nat with (length w) by lia.
  apply take_app_length.
Qed.

Lemma Match_suffix r s cs s' cs' :
  Match r s cs s' cs' -> exists w, s = w ++ s'.
Proof.
  induction 1 as [s cs|p c s cs Hp|r1 r2 s cs s1 cs1 s2 cs2 _ [w1 ->] _ [w2 ->]
                 | | |g r s cs|g r s cs s1 cs1 s2 cs2 _ [w1 ->] _ _ [w2 ->]| |s cs He];
    try assumption.
  - exists []; reflexivity.
  - exists [c]; reflexivity.
  - exists (w1 ++ w2). rewrite app_assoc; reflexivity.
  - exists []; reflexivity.
  - exists (w1 ++ w2). rewrite app_assoc; reflexivity.
  - exists []; reflexivity.
Qed.

Lemma Match_group_free r s cs s' cs' :
  Match r s cs s' cs' -> group_free r = true -> cs' = cs.
Proof.
  induction 1; simpl; intros Hg; try reflexivity;
    try (apply andb_true_iff in Hg as [Hg1 Hg2]); try discriminate; auto.
  - rewrite IHMatch2, IHMatch1; auto.
  - rewrite IHMatch2, IHMatch1; auto.
Qed.

Lemma Match_Lit w s cs s' cs' :
  Match (Lit w) s cs s' cs' <-> s = w ++ s' /\ cs' = cs.
Proof.
  revert s cs; induction w as [|c w IH]; intros s cs; simpl; split.
  - inversion 1; subst; auto.
  - intros [-> ->]; constructor.
  - inversion 1 as [| |ra rb s0 cs0 s1 cs1 s2 cs2 Ha Hb| | | | | |]; subst.
    inversion Ha as [|p c' s0 cs0 Hp| | | | | | |]; subst.
    apply char_eqb_eq in Hp as <-. apply IH in Hb as [-> ->]. auto.
  - intros [-> ->]. econstructor.
    + constructor. apply char_eqb_eq; reflexivity.
    + apply IH; auto.
Qed.

Lemma Match_Cls p s cs s' cs' :
  Match (Cls p) s cs s' cs' <-> exists c, s = c :: s' /\ p c = true /\ cs' = cs.
Proof.
  split.
  - inversion 1; subst; eauto.
  - intros (c & -> & Hp & ->). constructor; exact Hp.
Qed.

Lemma Match_Seq r1 r2 s cs s2 cs2 :
  Match (Seq r1 r2) s cs s2 cs2 <->
  exists s1 cs1, Match r1 s cs s1 cs1 /\ Match r2 s1 cs1 s2 cs2.
Proof.
  split.
  - inversion 1; subst; eauto.
  - intros (s1 & cs1 & H1 & H2). econstructor; eauto.
Qed.

Lemma Match_Alt r1 r2 s cs s' cs' :
  Match (Alt r1 r2) s cs s' cs' <-> Match r1 s cs s' cs' \/ Match r2 s cs s' cs'.
Proof.
  split.
  - inversion 1; subst; auto.
  - intros [H|H]; [apply MAltL | apply MAltR]; exact H.
Qed.

Lemma Match_Group n r s cs s' cs'' :
  Match (Group n r) s cs s' cs'' <->
  exists cs', Match r s cs s' cs' /\ cs'' = (n, consumed s s') :: cs'.
Proof.
  split.
  - inversion 1; subst; eauto.
  - intros (cs' & H & ->). constructor; exact H.
Qed.

(** A repetition of a class matches exactly the runs of the class. *)
Lemma Match_Star_Cls g p s cs s' cs' :
  Match (Star g (Cls p)) s cs s' cs' <->
  exists w, s = w ++ s' /\ forallb p w = true /\ cs' = cs.
Proof.
  split.
  - remember (Star g (Cls p)) as r eqn:Er. induction 1; try discriminate.
    + exists []; auto.
    + injection Er as -> ->.
      destruct (IHMatch2 eq_refl) as (w & -> & Hw & ->).
      apply Match_Cls in H as (c & -> & Hp & ->).
      exists (c :: w); simpl; rewrite Hp, Hw; auto.
  - intros (w & -> & Hw & ->). induction w as [|c w IH]; simpl in *.
    + constructor.
    + apply andb_true_iff in Hw as [Hc Hw].
      eapply MStarMore; [constructor; exact Hc | simpl; lia | auto].
Qed.

Lemma Match_Plus_Cls p s cs s' cs' :
  Match (Plus (Cls p)) s cs s' cs' <->
  exists c w, s = c :: w ++ s' /\ p c = true /\ forallb p w = true /\ cs' = cs.
Proof.
  unfold Plus. rewrite Match_Seq. split.
  - intros (s1 & cs1 & H1 & H2).
    apply Match_Cls in H1 as (c & -> & Hp & ->).
    apply Match_Star_Cls in H2 as (w & -> & Hw & ->). eauto 10.
  - intros (c & w & -> & Hp & Hw & ->).
    exists (w ++ s'), cs. split; [constructor; exact Hp|].
    apply Match_Star_Cls; eauto.
Qed.

(** ** Searching *)

Lemma match_here_Some r s rest cs :
  match_here r s = Some (rest, cs) -> Match r s [] rest cs.
Proof.
  intros H. apply rmatch_sound in H as (s' & cs' & Hm & [= <- <-]). exact Hm.
Qed.

Lemma match_here_None r s :
  match_here r s = None <-> forall rest cs, ~ Match r s [] rest cs.
Proof.
  split.
  - intros H rest cs Hm.
    destruct (rmatch_complete r s [] rest cs (fun rest cs => Some (rest, cs)) _ Hm eq_refl)
      as [a Ha].
    unfold match_here in H. congruence.
  - intros H. destruct (match_here r s) as [[rest cs]|] eqn:E; [|reflexivity].
    apply match_here_Some in E. exfalso; eapply H; eauto.
Qed.

Lemma Match_consumed r s cs rest cs' :
  Match r s cs rest cs' -> s = consumed s rest ++ rest.
Proof.
  intros H. destruct (Match_suffix _ _ _ _ _ H) as [w ->].
  rewrite consumed_app. reflexivity.
Qed.

(** A successful search returns the leftmost match. *)
Lemma search_from_Some r pre_rev s m :
  search_from r pre_rev s = Some m ->
  exists skipped,
    m_pre m = rev pre_rev ++ skipped /\
    s = skipped ++ m_text m ++ m_post m /\
    Match r (m_text m ++ m_post m) [] (m_post m) (m_caps m) /\
    forall i, (i < length skipped)%nat -> match_here r (drop i s) = None.
Proof.
  assert (Hhere : forall s0 rest cs, match_here r s0 = Some (rest, cs) ->
    s0 = consumed s0 rest ++ rest /\
    Match r (consumed s0 rest ++ rest) [] rest cs).
  { intros s0 rest cs E. apply match_here_Some in E.
    pose proof (Match_consumed _ _ _ _ _ E) as Hs.
    rewrite <- Hs. auto. }
  revert pre_rev; induction s as [|c s IH]; intros pre_rev;
    cbn [search_from]; destruct (match_here r _) as [[rest cs]|] eqn:E;
    try discriminate.
  - intros [= <-]; cbn [m_pre m_text m_post m_caps].
    apply Hhere in E as [Hs Hm].
    exists []. rewrite app_nil_r. repeat split; auto. simpl; intros; lia.
  - intros [= <-]; cbn [m_pre m_text m_post m_caps].
    apply Hhere in E as [Hs Hm].
    exists []. rewrite app_nil_r. repeat split; auto. simpl; intros; lia.
  - intros H. apply IH in H as (skipped & Hpre & Hs & Hm & Hleft).
    exists (c :: skipped). simpl in Hpre. rewrite <- app_assoc in Hpre.
    repeat split; auto.
    + simpl. congruence.
    + intros [|i] Hi; simpl in *; [exact E | apply Hleft; lia].
Qed.

Lemma search_from_None r pre_rev s :
  search_from r pre_rev s = None <->
  forall i, (i <= length s)%nat -> match_here r (drop i s) = None.
Proof.
  revert pre_rev; induction s as [|c s IH]; intros pre_rev; simpl.
  - destruct (match_here r []) as [[rest cs]|] eqn:E; split; try discriminate.
    + intros H. specialize (H 0%nat ltac:(lia)). simpl in H. congruence.
    + intros _ i _. rewrite drop_nil. exact E.
    + reflexivity.
  - destruct (match_here r (c :: s)) as [[rest cs]|] eqn:E; split; try discriminate.
    + intros H. specialize (H 0%nat ltac:(lia)). simpl in H. congruence.
    + intros H [|i] Hi; simpl; [exact E|]. eapply IH; [exact H | lia].
    + intros H. apply (IH (c :: pre_rev)). intros i Hi. apply (H (S i)). lia.
Qed.

Lemma test_true r s : test r s = true <-> occurs r s.
Proof.
  unfold test, str_match. split.
  - destruct (search_from r [] s) as [m|] eqn:E; [|discriminate]. intros _.
    apply search_from_Some in E as (skipped & _ & Hs & Hm & _).
    exists skipped, (m_text m ++ m_post m), (m_post m), (m_caps m). auto.
  - intros (pre & rest & s' & cs & -> & Hm).
    destruct (search_from r [] (pre ++ rest)) eqn:E; [reflexivity|].
    exfalso. rewrite search_from_None in E.
    specialize (E (length pre)). rewrite drop_app_length in E.
    rewrite length_app in E. specialize (E ltac:(lia)).
    rewrite match_here_None in E. eapply E; eauto.
Qed.

(** ** Temporary project directories *)

Lemma createTempProject_returns env tsxFilePath config st d st' :
  createTempProject env tsxFilePath config st = (Val d, st') -> d = tempDir_name env.
Proof.
  unfold createTempProject, bind, ret.
  repeat match goal with
         | |- context [match ?x with _ => _ end] => destruct x
         | |- (_, _) = (_, _) -> _ => intros [= <- <-]
         end; try discriminate; try reflexivity; congruence.
Qed.

Lemma run_returns {A} (run : Res A * State) (a : A) :
  fst run = Val a -> run = (Val a, snd run).
Proof. destruct run as [r st]. simpl. intros ->. reflexivity. Qed.

(** C7, at the failing inputs. The name of the project directory is made
    of the temp root and the clock's milliseconds only: two jobs, however
    different their tokens, source files and configurations, whose projects
    are created while the clock shows the same millisecond are given the
    same directory. *)
Theorem C7_same_millisecond_same_directory
        env1 env2 tsxFilePath1 tsxFilePath2 config1 config2 st1 st2 d1 d2 st1' st2' :
  tmpdir env1 = tmpdir env2 ->
  Date_now env1 = Date_now env2 ->
  createTempProject env1 tsxFilePath1 config1 st1 = (Val d1, st1') ->
  createTempProject env2 tsxFilePath2 config2 st2 = (Val d2, st2') ->
  d1 = d2.
Proof.
  intros Htmp Hnow H1 H2.
  apply createTempProject_returns in H1, H2. subst d1 d2.
  unfold tempDir_name. rewrite Htmp, Hnow. reflexivity.
Qed.

Lemma C7_same_millisecond_same_directory_witness :
  u "/tmp/remotion-render-1700000000000" = u "/tmp/remotion-render-1700000000000".
Proof.
  apply (C7_same_millisecond_same_directory
           Scenario.env_A Scenario.env_B Scenario.tsx_A Scenario.tsx_B
           Scenario.demo_config Scenario.demo_config
           Scenario.both_submitted
           (snd (createTempProject Scenario.env_A Scenario.tsx_A Scenario.demo_config
                   Scenario.both_submitted))
           (u "/tmp/remotion-render-1700000000000") (u "/tmp/remotion-render-1700000000000")
           (snd (createTempProject Scenario.env_A Scenario.tsx_A Scenario.demo_config
                   Scenario.both_submitted))
           (snd (createTempProject Scenario.env_B Scenario.tsx_B Scenario.demo_config
                   (snd (createTempProject Scenario.env_A Scenario.tsx_A Scenario.demo_config
                           Scenario.both_submitted))))).
  - reflexivity.
  - reflexivity.
  - apply run_returns. vm_compute; reflexivity.
  - apply run_returns. vm_compute; reflexivity.
Defined.

(** Two jobs with different tokens and source files, the second creating
    its project in the millisecond in which the first did: both are given
    the same directory, and the root file of the first job is overwritten
    by the second job's. *)
Example jobs_A_and_B_share_a_directory :
  Scenario.uuid_A <> Scenario.uuid_B /\
  Scenario.tsx_A <> Scenario.tsx_B /\
  let run_A := createTempProject Scenario.env_A Scenario.tsx_A Scenario.demo_config
                 Scenario.both_submitted in
  let run_B := createTempProject Scenario.env_B Scenario.tsx_B Scenario.demo_config
                 (snd run_A) in
  fst run_A = Val (u "/tmp/remotion-render-1700000000000") /\
  fst run_B = Val (u "/tmp/remotion-render-1700000000000") /\
  content_on_disk (u "/tmp/remotion-render-1700000000000/src/Root.tsx") (snd run_A)
  <> content_on_disk (u "/tmp/remotion-render-1700000000000/src/Root.tsx") (snd run_B).
Proof.
  split; [vm_compute; discriminate|].
  split; [vm_compute; discriminate|].
  cbv zeta. split; [vm_compute; reflexivity|].
  split; [vm_compute; reflexivity|].
  vm_compute; discriminate.
Qed.

(** ** Export style detection *)

Lemma blank_Plus s cs s' cs' :
  Match (Plus ws) s cs s' cs' <-> exists w, s = w ++ s' /\ blank w /\ cs' = cs.
Proof.
  unfold ws. rewrite Match_Plus_Cls. split.
  - intros (c & w & -> & Hc & Hw & ->). exists (c :: w). unfold blank; simpl.
    rewrite Hc, Hw. repeat split; auto; discriminate.
  - intros (w & -> & [Hne Hw] & ->). destruct w as [|c w]; [congruence|].
    simpl in Hw. apply andb_true_iff in Hw as [Hc Hw]. exists c, w. auto.
Qed.

Lemma export_default_Match rest s' cs :
  Match re_export_default rest [] s' cs <->
  exists w, rest = u "export" ++ w ++ u "default" ++ s' /\ blank w /\ cs = [].
Proof.
  unfold re_export_default; cbn [seqs].
  rewrite Match_Seq. split.
  - intros (s1 & c1 & H1 & H). apply Match_Lit in H1 as [-> ->].
    apply Match_Seq in H as (s2 & c2 & H2 & H3).
    apply blank_Plus in H2 as (w & -> & Hw & ->).
    apply Match_Lit in H3 as [-> ->]. exists w. auto.
  - intros (w & -> & Hw & ->).
    exists (w ++ u "default" ++ s'), []. split; [apply Match_Lit; auto|].
    apply Match_Seq. exists (u "default" ++ s'), [].
    split; [apply blank_Plus; eauto | apply Match_Lit; auto].
Qed.

Lemma test_export_default content :
  test re_export_default content = true <-> default_export_occurs content.
Proof.
  rewrite test_true. unfold occurs, default_export_occurs. split.
  - intros (pre & rest & s' & cs & -> & H).
    apply export_default_Match in H as (w & -> & Hw & _). eauto.
  - intros (pre & w & post & -> & Hw).
    exists pre, (u "export" ++ w ++ u "default" ++ post), post, [].
    split; [reflexivity|]. apply export_default_Match. eauto.
Qed.

Lemma named_export_Match rest s' cs :
  Match re_named_export rest [] s' cs <->
  exists name, named_export_here rest name s' /\ cs = [(1%nat, name)].
Proof.
  unfold re_named_export, named_export_here; cbn [seqs]. split.
  - intros H.
    apply Match_Seq in H as (s1 & c1 & H1 & H). apply Match_Lit in H1 as [-> ->].
    apply Match_Seq in H as (s2 & c2 & H2 & H).
    apply blank_Plus in H2 as (w1 & -> & Hw1 & ->).
    apply Match_Seq in H as (s3 & c3 & H3 & H).
    assert (Hkw : exists kw, s2 = kw ++ s3 /\ (kw = u "const" \/ kw = u "function") /\ c3 = []).
    { apply Match_Alt in H3 as [H3|H3]; apply Match_Lit in H3 as [-> ->]; eauto. }
    destruct Hkw as (kw & -> & Hkw & ->).
    apply Match_Seq in H as (s4 & c4 & H4 & H).
    apply blank_Plus in H4 as (w2 & -> & Hw2 & ->).
    apply Match_Group in H as (c5 & H & ->).
    apply Match_Seq in H as (s5 & c6 & H5 & H6).
    apply Match_Cls in H5 as (c & -> & Hc & ->).
    apply Match_Star_Cls in H6 as (tail & -> & Htail & ->).
    exists (c :: tail). split.
    + exists w1, kw, w2, c, tail. repeat split; try tauto; try apply Hw1; try apply Hw2.
    + change (c :: tail ++ s') with ((c :: tail) ++ s'). rewrite consumed_app. reflexivity.
  - intros (name & (w1 & kw & w2 & c & tail & -> & Hw1 & Hkw & Hw2 & -> & Hc & Htail) & ->).
    apply Match_Seq. eexists _, []. split; [apply Match_Lit; eauto|].
    apply Match_Seq. eexists _, []. split; [apply blank_Plus; eauto|].
    apply Match_Seq. eexists _, []. split.
    { apply Match_Alt. destruct Hkw as [-> | ->]; [left | right]; apply Match_Lit; eauto. }
    apply Match_Seq. eexists _, []. split; [apply blank_Plus; eauto|].
    apply Match_Group. exists []. split; [|rewrite consumed_app; reflexivity].
    apply Match_Seq. exists (tail ++ s'), [].
    split; [apply Match_Cls; eauto | apply Match_Star_Cls; eauto].
Qed.

Lemma span_snd_head {A} (p : A -> bool) (l : list A) x rest :
  snd (span p l) = x :: rest -> p x = false.
Proof.
  induction l as [|y l IH]; simpl; [discriminate|].
  destruct (p y) eqn:E.
  - destruct (span p l) as [a b]; simpl in *. exact IH.
  - simpl. intros [= <- <-]. exact E.
Qed.

(** A greedy repetition of a class followed by a continuation that always
    succeeds takes the whole run of the class. *)
Lemma star_loop_greedy_class {A} p (k : str -> captures -> option A) :
  (forall s cs, is_Some (k s cs)) ->
  forall fuel s cs, (length s <= fuel)%nat ->
    star_loop (rmatch (Cls p)) true k fuel s cs = k (snd (span p s)) cs.
Proof.
  intros Hk. induction fuel as [|fuel IH]; intros s cs Hlen.
  - destruct s; [reflexivity | simpl in Hlen; lia].
  - destruct s as [|c s]; [reflexivity|].
    cbn [star_loop rmatch span]. destruct (p c) eqn:E; [|reflexivity].
    destruct (Nat.ltb_spec (length s) (length (c :: s))) as [_|Hge]; [|simpl in Hge; lia].
    rewrite IH by (simpl in Hlen; lia).
    destruct (span p s) as [a b]; simpl.
    destruct (Hk b cs) as [x ->]. reflexivity.
Qed.

Lemma rmatch_Seq_sound {A} r1 r2 s cs (k : str -> captures -> option A) a :
  rmatch (Seq r1 r2) s cs k = Some a ->
  exists s1 c1, Match r1 s cs s1 c1 /\ rmatch r2 s1 c1 k = Some a.
Proof. intros H. exact (rmatch_sound r1 s cs _ a H). Qed.

Lemma rmatch_Star_greedy_class {A} p s cs (k : str -> captures -> option A) :
  (forall s cs, is_Some (k s cs)) ->
  rmatch (Star true (Cls p)) s cs k = k (snd (span p s)) cs.
Proof. intros Hk. apply (star_loop_greedy_class p k Hk). lia. Qed.

(** The match found at a position: the captured name is the whole
    identifier. *)
Lemma match_here_named_export rest post cs :
  match_here re_named_export rest = Some (post, cs) ->
  exists name, named_export_here rest name post /\ cs = [(1%nat, name)] /\
               ends_identifier post.
Proof.
  intros H. pose proof (match_here_Some _ _ _ _ H) as Hm.
  apply named_export_Match in Hm as (name & Hname & ->).
  exists name. repeat split; auto.
  unfold match_here, re_named_export in H; cbn [seqs] in H.
  apply rmatch_Seq_sound in H as (s1 & c1 & _ & H).
  apply rmatch_Seq_sound in H as (s2 & c2 & _ & H).
  apply rmatch_Seq_sound in H as (s3 & c3 & _ & H).
  apply rmatch_Seq_sound in H as (s4 & c4 & _ & H).
  change (rmatch (Seq (Cls is_upper) (Star true (Cls is_alnum))) s4 c4
            (fun s' c' => Some (s', (1%nat, consumed s4 s') :: c')) = Some (post, [(1%nat, name)]))
    in H.
  apply rmatch_Seq_sound in H as (s5 & c5 & _ & H).
  rewrite rmatch_Star_greedy_class in H by eauto.
  injection H as <- _.
  unfold ends_identifier. destruct (snd (span is_alnum s5)) eqn:E; [exact I|].
  eapply span_snd_head; eauto.
Qed.

Lemma search_from_here r pre_rev s m :
  search_from r pre_rev s = Some m ->
  match_here r (m_text m ++ m_post m) = Some (m_post m, m_caps m).
Proof.
  assert (Hhere : forall s0 rest cs, match_here r s0 = Some (rest, cs) ->
    match_here r (consumed s0 rest ++ rest) = Some (rest, cs)).
  { intros s0 rest cs E.
    rewrite <- (Match_consumed _ _ _ _ _ (match_here_Some _ _ _ _ E)). exact E. }
  revert pre_rev; induction s as [|c s IH]; intros pre_rev; cbn [search_from].
  - destruct (match_here r []) as [[rest cs]|] eqn:E; [|discriminate].
    intros [= <-]; cbn [m_pre m_text m_post m_caps]. auto.
  - destruct (match_here r (c :: s)) as [[rest cs]|] eqn:E; [|apply IH].
    intros [= <-]; cbn [m_pre m_text m_post m_caps]. auto.
Qed.

Lemma str_match_Some r s m :
  str_match r s = Some m ->
  s = m_pre m ++ m_text m ++ m_post m /\
  drop (length (m_pre m)) s = m_text m ++ m_post m /\
  match_here r (m_text m ++ m_post m) = Some (m_post m, m_caps m) /\
  forall i, (i < length (m_pre m))%nat -> match_here r (drop i s) = None.
Proof.
  intros H. pose proof (search_from_here _ _ _ _ H) as Hhere.
  apply search_from_Some in H as (skipped & Hpre & Hs & _ & Hleft).
  simpl in Hpre. subst skipped.
  repeat split; auto. rewrite Hs at 1. apply drop_app_length.
Qed.

Lemma str_match_None r s :
  str_match r s = None <-> forall i rest cs, ~ Match r (drop i s) [] rest cs.
Proof.
  unfold str_match. rewrite search_from_None. split.
  - intros H i rest cs Hm.
    destruct (Nat.le_gt_cases i (length s)) as [Hi|Hi].
    + specialize (H i Hi). rewrite match_here_None in H. eapply H; eauto.
    + rewrite drop_ge in Hm by lia.
      specialize (H (length s) ltac:(lia)). rewrite drop_all in H.
      rewrite match_here_None in H. eapply H; eauto.
  - intros H i _. apply match_here_None. intros rest cs. apply H.
Qed.

Lemma match_all_head r s :
  match_all r s =
  match str_match r s with
  | None => []
  | Some m => m :: tl (match_all r s)
  end.
Proof.
  unfold match_all. cbn [match_all_fuel].
  destruct (str_match r s); reflexivity.
Qed.

Lemma capitalized_not_config c tail :
  is_upper c = true -> str_eqb (c :: tail) (u "compositionConfig") = false.
Proof.
  intros Hc. change (u "compositionConfig") with (99%N :: u "ompositionConfig").
  cbn [str_eqb]. destruct (char_eqb c 99%N) eqn:E; [|reflexivity].
  apply char_eqb_eq in E. subst c. vm_compute in Hc. discriminate.
Qed.

Lemma detect_from_default content filename :
  default_export_occurs content -> detect_from content filename = style_default.
Proof.
  intros H. apply test_export_default in H. unfold detect_from. rewrite H. reflexivity.
Qed.

Lemma detect_from_named content filename m :
  ~ default_export_occurs content ->
  str_match re_named_export content = Some m ->
  detect_from content filename = style_named (group1 m) /\
  named_export_here (drop (length (m_pre m)) content) (group1 m) (m_post m) /\
  ends_identifier (m_post m) /\
  no_named_export_before content (length (m_pre m)) /\
  group1 m <> u "compositionConfig".
Proof.
  intros Hd Hm. rewrite <- test_export_default in Hd.
  destruct (str_match_Some _ _ _ Hm) as (_ & Hdrop & Hhere & Hleft).
  apply match_here_named_export in Hhere as (nm & Hnm & Hcs & Hend).
  assert (Hg : group1 m = nm) by (unfold group1, group; rewrite Hcs; reflexivity).
  assert (Hne : str_eqb nm (u "compositionConfig") = false).
  { destruct Hnm as (w1 & kw & w2 & c & tail & _ & _ & _ & _ & -> & Hc & _).
    apply capitalized_not_config; exact Hc. }
  rewrite Hg. repeat split; auto.
  - unfold detect_from. destruct (test re_export_default content); [congruence|].
    rewrite match_all_head, Hm. cbn [first_component]. rewrite Hg, Hne. reflexivity.
  - rewrite Hdrop. exact Hnm.
  - intros i name0 post0 Hi Hex.
    specialize (Hleft i Hi). rewrite match_here_None in Hleft.
    eapply Hleft. apply named_export_Match. eauto.
  - apply str_eqb_neq. exact Hne.
Qed.

Lemma detect_from_fallback content filename :
  ~ default_export_occurs content ->
  (forall n name post, ~ named_export_here (drop n content) name post) ->
  detect_from content filename = style_named filename.
Proof.
  intros Hd Hnone. rewrite <- test_export_default in Hd.
  assert (Hm : str_match re_named_export content = None).
  { apply str_match_None. intros i rest cs H.
    apply named_export_Match in H as (nm & H & _). eapply Hnone; eauto. }
  unfold detect_from. destruct (test re_export_default content); [congruence|].
  rewrite match_all_head, Hm. reflexivity.
Qed.

Lemma readFile_on_disk env p data t st :
  st_fs st !! p = Some (File data t) -> fault env (OpRead p) = None ->
  readFile env p st = (Val data, st).
Proof.
  intros Hp Hf. unfold readFile, guarded, bind, get. rewrite Hf, Hp. reflexivity.
Qed.



(** ** Reasoning about effects *)

Section Hoare.
Context {A B : Type}.
Implicit Types (P I : State -> Prop).

Lemma hoare_ret P (a : A) (Q : Res A -> State -> Prop) :
  (forall st, P st -> Q (Val a) st) -> hoare P (ret a) Q.
Proof. intros H st r st' HP [= <- <-]. auto. Qed.

Lemma hoare_throw P e (Q : Res A -> State -> Prop) :
  (forall st, P st -> Q (Exc e) st) -> hoare P (throw e) Q.
Proof. intros H st r st' HP [= <- <-]. auto. Qed.

Lemma hoare_bind P (R : Res A -> State -> Prop) (Q : Res B -> State -> Prop)
      (m : M A) (k : A -> M B) :
  hoare P m R ->
  (forall a, hoare (R (Val a)) (k a) Q) ->
  (forall e st, R (Exc e) st -> Q (Exc e) st) ->
  hoare P (bind m k) Q.
Proof.
  intros Hm Hk He st r st' HP. unfold bind.
  destruct (m st) as [[a|e] st1] eqn:E.
  - intros H. eapply Hk; [|exact H]. eapply Hm; eauto.
  - intros [= <- <-]. apply He. eapply Hm; eauto.
Qed.

Lemma hoare_try_catch P (R Q : Res A -> State -> Prop) (m : M A) (h : str -> M A) :
  hoare P m R ->
  (forall a st, R (Val a) st -> Q (Val a) st) ->
  (forall e, hoare (R (Exc e)) (h e) Q) ->
  hoare P (try_catch m h) Q.
Proof.
  intros Hm Hv Hh st r st' HP. unfold try_catch.
  destruct (m st) as [[a|e] st1] eqn:E.
  - intros [= <- <-]. apply Hv. eapply Hm; eauto.
  - intros H. eapply Hh; [|exact H]. eapply Hm; eauto.
Qed.

(** A fact that does not depend on the state may be assumed. *)
Lemma hoare_assume P (F : Prop) (Q : Res A -> State -> Prop) (m : M A) :
  (F -> hoare P m Q) -> hoare (fun st => P st /\ F) m Q.
Proof. intros H st r st' [HP HF]. apply H; assumption. Qed.

Lemma keeps_ret I (a : A) : keeps I (ret a).
Proof. apply hoare_ret; auto. Qed.

Lemma keeps_throw I e : keeps I (throw (A:=A) e).
Proof. apply hoare_throw; auto. Qed.

Lemma keeps_bind I (m : M A) (k : A -> M B) :
  keeps I m -> (forall a, keeps I (k a)) -> keeps I (bind m k).
Proof. intros Hm Hk. eapply hoare_bind; [exact Hm | exact Hk | auto]. Qed.

Lemma keeps_try_catch I (m : M A) (h : str -> M A) :
  keeps I m -> (forall e, keeps I (h e)) -> keeps I (try_catch m h).
Proof. intros Hm Hh. eapply hoare_try_catch; [exact Hm | auto | exact Hh]. Qed.

Lemma keeps_try_catch_finally I (m : M A) (h : str -> M A) (fin : M unit) :
  keeps I m -> (forall e, keeps I (h e)) -> keeps I fin ->
  keeps I (try_catch_finally m h fin).
Proof.
  intros Hm Hh Hf st r st' HI. unfold try_catch_finally.
  destruct (try_catch m h st) as [r1 st1] eqn:E1.
  assert (I st1) by (eapply (keeps_try_catch I m h Hm Hh); eauto).
  destruct (fin st1) as [[[]|e] st2] eqn:E2; intros [= <- <-];
    eapply Hf; eauto.
Qed.

End Hoare.

Lemma keeps_modify I f : (forall st, I st -> I (f st)) -> keeps I (modify f).
Proof. intros H st r st' HI [= <- <-]. auto. Qed.

Lemma keeps_get I : keeps I get.
Proof. intros st r st' HI [= <- <-]. auto. Qed.

Lemma keeps_existsSync I p : keeps I (existsSync p).
Proof. intros st r st' HI [= <- <-]. auto. Qed.

Lemma keeps_guarded {A} I env op (m : M A) : keeps I m -> keeps I (guarded env op m).
Proof. intros H. unfold guarded. destruct (fault env op); [apply keeps_throw | exact H]. Qed.

Lemma keeps_for_each {A} I (l : list A) (f : A -> M unit) :
  (forall x, keeps I (f x)) -> keeps I (for_each l f).
Proof.
  intros H. induction l as [|x l IH]; simpl.
  - apply keeps_ret.
  - apply keeps_bind; auto.
Qed.

(** An invariant that does not look at the disk is kept by [eval]. *)
Lemma keeps_eval I env src :
  (forall st, I st -> I (add_call (CallEval src) st)) ->
  (forall st fs, I st -> I (set_fs (fun _ => fs) st)) ->
  keeps I (eval env src).
Proof.
  intros Hc Hf. unfold eval. apply keeps_bind.
  - apply keeps_modify. exact Hc.
  - intros _ st r st' HI. destruct (js_eval env src (st_fs st)) as [[v|] fs'];
      intros [= <- <-]; apply Hf; exact HI.
Qed.

(** One step of a proof that an invariant is kept. *)
Ltac keeps_step :=
  lazymatch goal with
  | |- keeps _ (bind _ _) => apply keeps_bind; [|intros ?]
  | |- keeps _ (ret _) => apply keeps_ret
  | |- keeps _ (throw _) => apply keeps_throw
  | |- keeps _ (try_catch _ _) => apply keeps_try_catch; [|intros ?]
  | |- keeps _ (guarded _ _ _) => apply keeps_guarded
  | |- keeps _ get => apply keeps_get
  | |- keeps _ (existsSync _) => apply keeps_existsSync
  | |- keeps _ (for_each _ _) => apply keeps_for_each; intros ?
  | |- keeps _ (match ?x with _ => _ end) => destruct x
  end.

Ltac keeps_auto :=
  repeat first
    [ keeps_step
    | apply keeps_modify; intros; auto ].

Section BlindInvariants.
Context (env : Env) (I : State -> Prop).

Lemma keeps_writeFile p data : fs_blind I -> keeps I (writeFile env p data).
Proof. intros H. unfold writeFile. keeps_auto. Qed.

Lemma keeps_readFile p : keeps I (readFile env p).
Proof. unfold readFile. keeps_auto. Qed.

Lemma keeps_unlink p : fs_blind I -> keeps I (unlink env p).
Proof. intros H. unfold unlink. keeps_auto. Qed.

Lemma keeps_mkdir p : fs_blind I -> keeps I (mkdir env p).
Proof. intros H. unfold mkdir. keeps_auto. Qed.

Lemma keeps_rmSync p : fs_blind I -> keeps I (rmSync env p).
Proof. intros H. unfold rmSync. keeps_auto. Qed.

Lemma keeps_log_info msg : log_blind I -> keeps I (log_info msg).
Proof. intros H. unfold log_info. keeps_auto. Qed.

Lemma keeps_log_error msg detail : log_blind I -> keeps I (log_error msg detail).
Proof. intros H. unfold log_error. keeps_auto. Qed.

Lemma keeps_prop (v : jsval) key : keeps I (prop v key).
Proof. unfold prop. keeps_auto. Qed.

Lemma keeps_detectExportStyle p : keeps I (detectExportStyle env p).
Proof. unfold detectExportStyle. apply keeps_bind; [apply keeps_readFile | intros; apply keeps_ret]. Qed.

Lemma keeps_createTempProject p config : fs_blind I -> keeps I (createTempProject env p config).
Proof.
  intros H. unfold createTempProject. cbv zeta.
  repeat first [ apply keeps_mkdir | apply keeps_writeFile
               | apply keeps_detectExportStyle | apply keeps_ret
               | apply keeps_bind; [|intros ?] ]; assumption.
Qed.

Lemma keeps_cleanupTempProject d : fs_blind I -> keeps I (cleanupTempProject env d).
Proof.
  intros H. unfold cleanupTempProject. destruct d; [apply keeps_ret|].
  apply keeps_bind; [apply keeps_existsSync|]. intros [|]; [|apply keeps_ret].
  apply keeps_try_catch; [apply keeps_rmSync; exact H | intros; apply keeps_ret].
Qed.

(** The extractor records its call of [eval] and may change the disk
    through it; it does nothing else to the state. *)
Lemma keeps_extractCompositionConfig p :
  fs_blind I -> (forall st src, I st -> I (add_call (CallEval src) st)) ->
  keeps I (extractCompositionConfig env p).
Proof.
  intros Hfs Hc. unfold extractCompositionConfig.
  apply keeps_bind; [apply keeps_readFile|]. intros content.
  unfold extract_from. destruct (str_match _ _); [|apply keeps_throw].
  apply keeps_try_catch; [|intros; apply keeps_ret].
  unfold eval_config.
  apply keeps_bind; [apply keeps_eval; auto|]. intros v.
  repeat (apply keeps_bind; [apply keeps_prop|intros ?]). apply keeps_ret.
Qed.

End BlindInvariants.

(** ** The handler keeps invariants *)

Section HandlerInvariants.
Context (env : Env) (I : State -> Prop) (call_ok : call -> Prop).
Hypothesis Hfs : fs_blind I.
Hypothesis Hlog : log_blind I.
Hypothesis Hcall : forall st c, call_ok c -> I st -> I (add_call c st).
Hypothesis Hdir : forall st, I st -> I (set_tempProjectDir (Some (tempDir_name env)) st).
Hypothesis Heval : forall src, call_ok (CallEval src).
Hypothesis Hbrowser : call_ok CallEnsureBrowser.
Hypothesis Hbundle : forall entryPoint modules, call_ok (CallBundle entryPoint modules).
Hypothesis Hselect : forall serveUrl i, call_ok (CallSelectComposition serveUrl i).

Lemma keeps_record c : call_ok c -> keeps I (record c).
Proof. intros H. apply keeps_modify. intros; apply Hcall; auto. Qed.

Lemma keeps_ensureBrowser : keeps I (ensureBrowser env).
Proof.
  unfold ensureBrowser. apply keeps_bind; [apply keeps_record; auto|]. intros _.
  destruct (ensureBrowser_result env); [apply keeps_throw | apply keeps_ret].
Qed.

Lemma keeps_bundle entryPoint modules : keeps I (bundle env entryPoint modules).
Proof.
  unfold bundle. apply keeps_bind; [apply keeps_record; auto|]. intros _.
  destruct (bundle_result env entryPoint); [apply keeps_throw | apply keeps_ret].
Qed.

Lemma keeps_selectComposition serveUrl i : keeps I (selectComposition env serveUrl i).
Proof.
  unfold selectComposition. apply keeps_bind; [apply keeps_record; auto|]. intros _.
  destruct (selectComposition_result env serveUrl i); [apply keeps_throw | apply keeps_ret].
Qed.

Lemma keeps_renderMedia args : call_ok (CallRenderMedia args) -> keeps I (renderMedia env args).
Proof.
  intros H. unfold renderMedia. apply keeps_bind; [apply keeps_record; auto|]. intros _.
  apply keeps_bind.
  - destruct (ro_written _); [apply keeps_modify; intros; apply Hfs; auto | apply keeps_ret].
  - intros _. destruct (ro_error _); [apply keeps_throw | apply keeps_ret].
Qed.

Lemma hoare_createTempProject p config :
  hoare I (createTempProject env p config)
        (fun r st => I st /\ match r with Val d => d = tempDir_name env | Exc _ => True end).
Proof.
  intros st r st' HI E. split.
  - eapply (keeps_createTempProject env I p config Hfs); eauto.
  - destruct r as [d|e]; [|exact Logic.I]. eapply createTempProject_returns; eauto.
Qed.

Lemma keeps_render_with_config jobId tsxFilePath outputFileName outputPath config :
  (forall composition bundleLocation,
     call_ok (CallRenderMedia
                {| ra_composition := composition;
                   ra_durationInFrames := durationInFrames env config;
                   ra_fps := fps config; ra_width := width config;
                   ra_height := height config; ra_serveUrl := bundleLocation;
                   ra_codec := u "h264"; ra_outputLocation := outputPath |})) ->
  keeps I (render_with_config env jobId tsxFilePath outputFileName outputPath config).
Proof.
  intros Hrender. unfold render_with_config.
  apply keeps_bind; [apply keeps_ensureBrowser|]. intros _.
  apply keeps_bind; [apply keeps_log_info; auto|]. intros _.
  eapply hoare_bind; [apply hoare_createTempProject | | intros e st [H _]; exact H].
  intros d. apply hoare_assume. intros ->.
  apply keeps_bind; [apply keeps_modify; auto|]. intros _.
  apply keeps_bind; [apply keeps_log_info; auto|]. intros _. cbv zeta.
  apply keeps_bind; [apply keeps_bundle|]. intros bundleLocation.
  apply keeps_bind; [apply keeps_log_info; auto|]. intros _.
  apply keeps_bind; [apply keeps_selectComposition|]. intros composition.
  apply keeps_bind; [apply keeps_log_info; auto|]. intros _.
  apply keeps_bind; [apply keeps_renderMedia; apply Hrender|]. intros _.
  apply keeps_bind; [apply keeps_log_info; auto|]. intros _.
  apply keeps_bind; [apply keeps_unlink; auto|]. intros _.
  apply keeps_bind; [apply keeps_readFile|]. intros stream.
  apply keeps_ret.
Qed.

Lemma keeps_render_try jobId tsx tsxFilePath outputFileName outputPath :
  (forall config composition bundleLocation,
     call_ok (CallRenderMedia
                {| ra_composition := composition;
                   ra_durationInFrames := durationInFrames env config;
                   ra_fps := fps config; ra_width := width config;
                   ra_height := height config; ra_serveUrl := bundleLocation;
                   ra_codec := u "h264"; ra_outputLocation := outputPath |})) ->
  keeps I (render_try env jobId tsx tsxFilePath outputFileName outputPath).
Proof.
  intros Hrender. unfold render_try.
  apply keeps_bind; [apply keeps_writeFile; auto|]. intros _.
  apply keeps_bind; [apply keeps_log_info; auto|]. intros _.
  apply keeps_bind.
  - apply keeps_try_catch; [|intros; apply keeps_ret].
    apply keeps_bind; [apply keeps_extractCompositionConfig; auto|]. intros config.
    apply keeps_bind; [apply keeps_log_info; auto | intros; apply keeps_ret].
  - intros [reply|config]; [apply keeps_ret|].
    apply keeps_render_with_config. intros. apply Hrender.
Qed.

Lemma keeps_render_catch jobId tsxFilePath outputPath err :
  keeps I (render_catch env jobId tsxFilePath outputPath err).
Proof.
  unfold render_catch.
  apply keeps_bind; [apply keeps_log_error; auto|]. intros _.
  apply keeps_bind; [|intros; apply keeps_ret].
  apply keeps_try_catch; [|intros; apply keeps_log_error; auto].
  apply keeps_bind; [apply keeps_existsSync|]. intros b1.
  apply keeps_bind; [destruct b1; [apply keeps_unlink; auto | apply keeps_ret]|]. intros _.
  apply keeps_bind; [apply keeps_existsSync|]. intros b2.
  destruct b2; [apply keeps_unlink; auto | apply keeps_ret].
Qed.

Lemma keeps_render_finally : keeps I (render_finally env).
Proof.
  unfold render_finally. apply keeps_bind; [apply keeps_get|]. intros st.
  destruct (st_tempProjectDir st) as [[|c d]|]; try apply keeps_ret.
  apply keeps_cleanupTempProject; auto.
Qed.

End HandlerInvariants.

(** ** Cleanup of the project directory *)

Lemma normalize_nonempty p : Path.normalize p <> [].
Proof.
  unfold Path.normalize. destruct p as [|c p]; [discriminate|].
  destruct (Path.join_slash _) as [|b body].
  - destruct (Path.is_absolute _); [discriminate|]. destruct (ends_with _ _); discriminate.
  - destruct (Path.is_absolute _); [discriminate|]. destruct (ends_with _ _); discriminate.
Qed.

Lemma join_nonempty parts : Path.join parts <> [].
Proof.
  unfold Path.join. destruct (List.filter _ parts); [discriminate | apply normalize_nonempty].
Qed.

Lemma exists_on_disk_false p st : exists_on_disk p st = false <-> st_fs st !! p = None.
Proof.
  unfold exists_on_disk. rewrite bool_decide_eq_false, <- eq_None_not_Some. reflexivity.
Qed.

(** The [finally] block leaves the variable alone and, when the removal
    does not fail, leaves no entry at the directory it names. *)
Lemma render_finally_cleans env st rf st' :
  render_finally env st = (rf, st') ->
  st_tempProjectDir st' = st_tempProjectDir st /\
  forall d, st_tempProjectDir st = Some d -> d <> [] ->
            fault env (OpRm d) = None -> exists_on_disk d st' = false.
Proof.
  unfold render_finally, bind, get.
  destruct (st_tempProjectDir st) as [[|c d]|] eqn:Hd.
  - intros [= <- <-]. split; [auto|]. intros d [= <-]; congruence.
  - unfold cleanupTempProject, bind, existsSync, try_catch, rmSync, guarded, modify, throw, ret.
    destruct (bool_decide _) eqn:Hex.
    + destruct (fault env (OpRm (c :: d))) eqn:Hf; intros [= <- <-]; (split; [auto|]);
        intros d' [= <-] _ Hf'; [congruence|].
      apply exists_on_disk_false. simpl. apply map_lookup_filter_None. right.
      intros x _. cbn [fst]. rewrite str_eqb_refl. discriminate.
    + intros [= <- <-]. split; [auto|]. intros d' [= <-] _ _. exact Hex.
  - intros [= <- <-]. split; [auto|]. discriminate.
Qed.




(** ** Cleanup of the job's files *)

Lemma writeFile_ok env p data st :
  fault env (OpWrite p) = None ->
  (forall t, st_fs st !! p <> Some (Dir t)) ->
  writeFile env p data st = (Val tt, set_fs (insert p (File data (Date_now env))) st).
Proof.
  intros Hf Hd. unfold writeFile, guarded, bind, get, modify. rewrite Hf.
  destruct (st_fs st !! p) as [[|t]|] eqn:E; try reflexivity.
  exfalso. apply (Hd t). reflexivity.
Qed.

(** C1, at the failing inputs. Whenever the source text of a request
    contains no configuration export (and the temporary source file can be
    written and read back), the request is answered with status 400 from
    inside the try block and the job's temporary source file, with the
    source text in it, is still on disk afterwards: the cleanup of the
    failure path is not reached. *)
Theorem C1_config_failure_leaves_source_file env tsx_text st :
  let tsxFilePath := Path.join [TEMP_DIR env; cat [randomUUID env; u ".tsx"]] in
  let run := render env {| tsx := VStr tsx_text; filename := VUndef |} st in
  tsx_text <> [] ->
  (Z.of_nat (length tsx_text) >? MAX_TSX_SIZE) = false ->
  str_match re_compositionConfig tsx_text = None ->
  fault env (OpWrite tsxFilePath) = None ->
  fault env (OpRead tsxFilePath) = None ->
  (forall t, st_fs st !! tsxFilePath <> Some (Dir t)) ->
  fst run = Val (send 400 [(u "error", u "Invalid composition config");
                           (u "message", invalid_config_message);
                           (u "details",
                            no_config_message (Path.basename tsxFilePath (u ".tsx")))]) /\
  content_on_disk tsxFilePath (snd run) = Some tsx_text.
Proof.
  intros tsxFilePath run Hne Hsize Hmatch Hw Hr Hd.
  assert (Hrun : run =
    (Val (send 400 [(u "error", u "Invalid composition config");
                    (u "message", invalid_config_message);
                    (u "details",
                     no_config_message (Path.basename tsxFilePath (u ".tsx")))]),
     add_log (LogInfo (u "TSX file created"))
       (set_fs (insert tsxFilePath (File tsx_text (Date_now env)))
          (set_tempProjectDir None st)))).
  { subst run. destruct tsx_text as [|c t]; [congruence|].
    unfold render. cbn [tsx filename]. rewrite Hsize.
    change (outputFileName_of (randomUUID env) VUndef)
      with (VStr (cat [randomUUID env; u ".mp4"])).
    cbv zeta. fold tsxFilePath.
    unfold bind at 1, modify at 1. unfold try_catch_finally, try_catch.
    unfold render_try. unfold bind at 1.
    rewrite (writeFile_ok env tsxFilePath (c :: t) _ Hw) by exact Hd.
    unfold bind at 1, log_info at 1, modify at 1.
    unfold bind at 1, try_catch at 1, bind at 1, extractCompositionConfig, bind at 1.
    rewrite (readFile_on_disk env tsxFilePath (c :: t) (Date_now env))
      by (try exact Hr; cbn [st_fs add_log set_fs set_tempProjectDir]; apply lookup_insert_eq).
    unfold extract_from. rewrite Hmatch. unfold throw, ret.
    unfold render_finally, bind, get.
    cbn [st_tempProjectDir add_log set_fs set_tempProjectDir].
    reflexivity. }
  rewrite Hrun. cbn [fst snd]. split; [reflexivity|].
  unfold content_on_disk. cbn [st_fs add_log set_fs set_tempProjectDir].
  rewrite lookup_insert_eq. reflexivity.
Qed.

Lemma C1_config_failure_leaves_source_file_witness :
  fst (render Scenario.env_A Scenario.plain_request Scenario.booted)
  = Val (send 400 [(u "error", u "Invalid composition config");
                   (u "message", invalid_config_message);
                   (u "details",
                    no_config_message
                      (Path.basename
                         (Path.join [TEMP_DIR Scenario.env_A;
                                     cat [randomUUID Scenario.env_A; u ".tsx"]])
                         (u ".tsx")))]) /\
  content_on_disk (Path.join [TEMP_DIR Scenario.env_A;
                              cat [randomUUID Scenario.env_A; u ".tsx"]])
    (snd (render Scenario.env_A Scenario.plain_request Scenario.booted))
  = Some Scenario.plain_tsx.
Proof.
  apply (C1_config_failure_leaves_source_file Scenario.env_A Scenario.plain_tsx Scenario.booted).
  - discriminate.
  - vm_compute; reflexivity.
  - vm_compute; reflexivity.
  - reflexivity.
  - reflexivity.
  - intros t. vm_compute. discriminate.
Defined.

(** The failure path of the later stages does delete the job's files:
    with a failing bundler the reply has status 500 and neither the
    temporary source file nor an output file is left. *)
Example bundler_failure_cleans_up :
  let run := render Scenario.env_bundle_fails Scenario.demo_request Scenario.booted in
  fst run = Val (send 500 [(u "error", u "Render failed");
                           (u "message", u "Module not found");
                           (u "jobId", Scenario.uuid_A)]) /\
  exists_on_disk Scenario.tsx_A (snd run) = false /\
  exists_on_disk Scenario.output_A (snd run) = false.
Proof. cbv zeta. repeat split; vm_compute; reflexivity. Qed.

(** ** Evaluation of the captured literal *)

Lemma eval_config_calls env captured filename st :
  st_calls (snd (eval_config env captured filename st))
  = CallEval (cat [u "("; clean_config captured; u ")"]) :: st_calls st.
Proof.
  cbv beta iota zeta delta [eval_config bind eval record modify prop ret throw].
  match goal with |- context [js_eval env ?a ?b] => destruct (js_eval env a b) as [[v|] fs'] end;
    cbv beta iota; [|reflexivity].
  repeat (match goal with
          | |- context [match get_prop ?v ?k with _ => _ end] => destruct (get_prop v k)
          end; cbv beta iota); reflexivity.
Qed.

(** C3, amended. Whenever the configuration pattern is found in the source
    text, the extractor hands the captured literal, stripped of comments and
    trailing commas and wrapped in parentheses, to the evaluator of the
    language, once; when the pattern is not found it evaluates nothing. No
    structured-literal parser takes part. *)
Theorem C3_literal_is_evaluated env content filename st :
  st_calls (snd (extract_from env content filename st))
  = match str_match re_compositionConfig content with
    | Some configMatch =>
        CallEval (eval_source (group1 configMatch)) :: st_calls st
    | None => st_calls st
    end.
Proof.
  unfold extract_from, eval_source. destruct (str_match _ _) as [m|]; [|reflexivity].
  unfold try_catch.
  pose proof (eval_config_calls env (group1 m) filename st) as H.
  destruct (eval_config env (group1 m) filename st) as [[cfg|e] st1]; exact H.
Qed.

(** C3 as stated fails: the literal of the demo component is handed to
    [eval] as program text. *)
Lemma C3_counterexample_eval_called :
  ~ never_evaluates_input Scenario.env_A Scenario.demo_tsx (u "demo") Scenario.booted.
Proof.
  intros H.
  apply (H (u "({ id: 'demo', fps: 24, width: 640, height: 480, durationInSeconds: 2 })")).
  vm_compute. left. reflexivity.
Qed.

(** ** Backfilling of the evaluated literal *)

Lemma get_prop_own v key :
  is_nullish v = false ->
  get_prop v key = Some (match own v key with Some x => x | None => VUndef end).
Proof. destruct v; simpl; intros H; try discriminate; reflexivity. Qed.

Lemma js_or_field_or_default present default :
  js_or (match present with Some x => x | None => VUndef end) default
  = field_or_default present default.
Proof. destruct present; reflexivity. Qed.

Lemma eval_config_value env captured filename st v fs' :
  js_eval env (eval_source captured) (st_fs st) = (Some v, fs') ->
  is_nullish v = false ->
  fst (eval_config env captured filename st) = Val (config_backfilled v filename).
Proof.
  intros He Hv. unfold eval_source in He.
  cbv beta iota zeta delta [eval_config bind eval record modify prop ret throw].
  cbn [st_fs add_call]. rewrite He. cbv beta iota.
  rewrite !(get_prop_own v _ Hv). cbv beta iota. cbn [fst].
  unfold DEFAULTS_durationInSeconds, DEFAULTS_fps, DEFAULTS_width, DEFAULTS_height.
  rewrite !js_or_field_or_default. reflexivity.
Qed.

Lemma field_or_default_not_nullish present default :
  is_nullish default = false -> is_nullish (field_or_default present default) = false.
Proof.
  intros Hd. unfold field_or_default. destruct present as [v|]; [|exact Hd].
  destruct (truthy v) eqn:E; [|exact Hd]. destruct v; simpl in *; congruence.
Qed.




(** ** The regex fallback *)

Lemma string_value_capture key rest s' cs :
  Match (re_string_value key) rest [] s' cs -> exists c w, cs = [(1%nat, c :: w)].
Proof.
  unfold re_string_value, ws, Chr; cbn [seqs]. intros H.
  apply Match_Seq in H as (s1 & c1 & H1 & H). apply Match_Lit in H1 as [-> ->].
  apply Match_Seq in H as (s2 & c2 & H2 & H). apply Match_Star_Cls in H2 as (w1 & -> & _ & ->).
  apply Match_Seq in H as (s3 & c3 & H3 & H). apply Match_Cls in H3 as (x3 & -> & _ & ->).
  apply Match_Seq in H as (s4 & c4 & H4 & H). apply Match_Star_Cls in H4 as (w2 & -> & _ & ->).
  apply Match_Seq in H as (s5 & c5 & H5 & H). apply Match_Cls in H5 as (x5 & -> & _ & ->).
  apply Match_Seq in H as (s6 & c6 & H6 & H).
  apply Match_Group in H6 as (c7 & H6 & ->).
  apply Match_Plus_Cls in H6 as (c & w & -> & _ & _ & ->).
  apply Match_Cls in H as (x6 & -> & _ & ->).
  exists c, w. change (c :: w ++ x6 :: s') with ((c :: w) ++ x6 :: s').
  rewrite consumed_app. reflexivity.
Qed.

Lemma numeric_value_capture key rest s' cs :
  Match (re_numeric_value key) rest [] s' cs -> exists c w, cs = [(1%nat, c :: w)].
Proof.
  unfold re_numeric_value, ws, Chr; cbn [seqs]. intros H.
  apply Match_Seq in H as (s1 & c1 & H1 & H). apply Match_Lit in H1 as [-> ->].
  apply Match_Seq in H as (s2 & c2 & H2 & H). apply Match_Star_Cls in H2 as (w1 & -> & _ & ->).
  apply Match_Seq in H as (s3 & c3 & H3 & H). apply Match_Cls in H3 as (x3 & -> & _ & ->).
  apply Match_Seq in H as (s4 & c4 & H4 & H). apply Match_Star_Cls in H4 as (w2 & -> & _ & ->).
  apply Match_Group in H as (c5 & H & ->).
  apply Match_Seq in H as (s6 & c6 & H6 & H).
  apply Match_Plus_Cls in H6 as (c & w & -> & _ & _ & ->).
  pose proof (Match_group_free _ _ _ _ _ H eq_refl) as ->.
  destruct (Match_suffix _ _ _ _ _ H) as [x ->].
  exists c, (w ++ x).
  replace (c :: w ++ x ++ s') with ((c :: w ++ x) ++ s')
    by (simpl; rewrite <- app_assoc; reflexivity).
  rewrite consumed_app. reflexivity.
Qed.

(** What [extractValue] returns is never the empty string. *)
Lemma extractValue_nonempty configStr key s :
  extractValue configStr key = Some s -> s <> [].
Proof.
  unfold extractValue.
  destruct (str_match (re_string_value key) configStr) as [m|] eqn:E1.
  - intros [= <-]. apply str_match_Some in E1 as (_ & _ & Hh & _).
    apply match_here_Some, string_value_capture in Hh as (c & w & Hc).
    unfold group1, group. rewrite Hc. discriminate.
  - destruct (str_match (re_numeric_value key) configStr) as [m|] eqn:E2; [|discriminate].
    intros [= <-]. apply str_match_Some in E2 as (_ & _ & Hh & _).
    apply match_here_Some, numeric_value_capture in Hh as (c & w & Hc).
    unfold group1, group. rewrite Hc. discriminate.
Qed.

Lemma js_or_number_or_default parse matched default :
  truthy (VNum (parse (u "null"))) = false ->
  js_or (VNum (parse (string_or_null matched))) default
  = number_or_default (parse <$> matched) default.
Proof.
  intros Hnull. destruct matched as [s|]; [reflexivity|].
  unfold js_or, string_or_null. rewrite Hnull. reflexivity.
Qed.

Lemma regex_fallback_amended captured filename :
  regex_fallback captured filename = fallback_amended captured filename.
Proof.
  unfold regex_fallback, fallback_amended.
  unfold DEFAULTS_durationInSeconds, DEFAULTS_fps, DEFAULTS_width, DEFAULTS_height.
  rewrite !js_or_number_or_default by (vm_compute; reflexivity).
  f_equal.
  destruct (extractValue captured (u "id")) as [s|] eqn:E; [|reflexivity].
  apply extractValue_nonempty in E. destruct s; [congruence | reflexivity].
Qed.

Lemma eval_config_throws env captured filename st :
  evaluation_fails env captured st ->
  exists e, fst (eval_config env captured filename st) = Exc e.
Proof.
  unfold evaluation_fails, eval_source.
  cbv beta iota zeta delta [eval_config bind eval record modify prop ret throw].
  cbn [st_fs add_call].
  match goal with |- context [js_eval env ?a ?b] => destruct (js_eval env a b) as [[v|] fs'] end;
    cbn [fst]; cbv beta iota; [|eauto].
  intros Hv. destruct v; try discriminate; cbn; eauto.
Qed.




(** ** The reaper *)

Lemma for_each_app {A} (l1 l2 : list A) (f : A -> M unit) st :
  for_each (l1 ++ l2) f st
  = match for_each l1 f st with
    | (Val _, st1) => for_each l2 f st1
    | (Exc e, st1) => (Exc e, st1)
    end.
Proof.
  revert st; induction l1 as [|x l1 IH]; intros st; simpl; [reflexivity|].
  unfold bind. destruct (f x st) as [[[]|e] st1]; [apply IH | reflexivity].
Qed.

(** A file operation that throws leaves the state as it was. *)
Lemma stat_run env p st r st' :
  stat env p st = (r, st') -> st' = st.
Proof.
  unfold stat, guarded, bind, get, throw, ret.
  destruct (fault env (OpStat p)); [intros [= _ <-]; reflexivity|].
  destruct (st_fs st !! p); intros [= _ <-]; reflexivity.
Qed.

Lemma unlink_run env p st r st' :
  unlink env p st = (r, st') ->
  (exists e, r = Exc e /\ st' = st) \/ (r = Val tt /\ st' = set_fs (delete p) st).
Proof.
  unfold unlink, guarded, bind, get, throw, modify.
  destruct (fault env (OpUnlink p)); [intros [= <- <-]; eauto|].
  destruct (st_fs st !! p) as [[]|]; intros [= <- <-]; eauto.
Qed.

Lemma sweep_file_run env dir file st r st' :
  sweep_file env dir file st = (r, st') ->
  (exists e, r = Exc e /\ st' = st) \/
  (r = Val tt /\ (st' = st \/ st' = set_fs (delete (Path.join [dir; file])) st)).
Proof.
  unfold sweep_file, bind. cbv zeta.
  destruct (stat env _ st) as [[t|e] st1] eqn:E; apply stat_run in E as ->.
  - destruct (_ >? _).
    + intros H. apply unlink_run in H as [(e & -> & ->)|[-> ->]]; eauto.
    + intros [= <- <-]. eauto.
  - intros [= <- <-]. eauto.
Qed.

(** The loop touches no path but those of the files it went through. *)
Lemma for_each_sweep_frame env dir files st r st' p :
  for_each files (sweep_file env dir) st = (r, st') ->
  (forall f, In f files -> Path.join [dir; f] <> p) ->
  st_fs st' !! p = st_fs st !! p /\ st_log st' = st_log st.
Proof.
  revert st; induction files as [|f files IH]; intros st; simpl.
  - intros [= <- <-] _. auto.
  - unfold bind. destruct (sweep_file env dir f st) as [r1 st1] eqn:E. intros H Hp.
    assert (Hf : st_fs st1 !! p = st_fs st !! p /\ st_log st1 = st_log st).
    { apply sweep_file_run in E as [(e & -> & ->)|[-> [-> | ->]]]; auto.
      simpl. split; [|reflexivity]. apply lookup_delete_ne. apply Hp. left; reflexivity. }
    destruct r1 as [[]|e].
    + destruct (IH st1 H) as [H1 H2]; [intros; apply Hp; right; assumption|].
      destruct Hf. split; congruence.
    + injection H as <- <-. exact Hf.
Qed.

Lemma sweep_dir_returns env dir st : fst (sweep_dir env dir st) = Val tt.
Proof.
  unfold sweep_dir, try_catch.
  destruct (bind _ _ st) as [[[]|e] st1]; reflexivity.
Qed.

Lemma cleanupOldFiles_both env st :
  cleanupOldFiles env st
  = (Val tt, snd (sweep_dir env (OUTPUT_DIR env) (snd (sweep_dir env (TEMP_DIR env) st)))).
Proof.
  unfold cleanupOldFiles. simpl. unfold bind.
  pose proof (sweep_dir_returns env (TEMP_DIR env) st) as H1.
  destruct (sweep_dir env (TEMP_DIR env) st) as [r1 st1]. simpl in H1. subst r1.
  pose proof (sweep_dir_returns env (OUTPUT_DIR env) st1) as H2.
  simpl. destruct (sweep_dir env (OUTPUT_DIR env) st1) as [r2 st2]. simpl in H2. subst r2.
  reflexivity.
Qed.

(** C8, amended. A failure to stat or delete one file ends the sweep of
    its directory: one error is logged for the directory, the files listed
    after the failing one are not examined and stay as they are, and the
    sweep goes on with the other directory, which is swept whatever
    happened in the first. *)
Theorem C8_failure_ends_directory_sweep env dir st pre file post e st1 :
  readdir env dir st = (Val (pre ++ file :: post), st) ->
  for_each pre (sweep_file env dir) st = (Val tt, st1) ->
  fst (sweep_file env dir file st1) = Exc e ->
  sweep_dir env dir st = (Val tt, add_log (cleanup_error dir e) st1) /\
  (forall p, (forall f, In f pre -> Path.join [dir; f] <> p) ->
             st_fs st1 !! p = st_fs st !! p) /\
  cleanupOldFiles env st
  = (Val tt, snd (sweep_dir env (OUTPUT_DIR env) (snd (sweep_dir env (TEMP_DIR env) st)))).
Proof.
  intros Hdir Hpre Hfile. split; [|split].
  - unfold sweep_dir, try_catch. unfold bind at 1. rewrite Hdir.
    rewrite for_each_app, Hpre. simpl. unfold bind.
    destruct (sweep_file env dir file st1) as [r2 st2] eqn:E. simpl in Hfile. subst r2.
    apply sweep_file_run in E as [(e' & [= <-] & ->)|[[=] _]].
    reflexivity.
  - intros p Hp. eapply for_each_sweep_frame; eauto.
  - apply cleanupOldFiles_both.
Qed.

Lemma C8_failure_ends_directory_sweep_witness :
  sweep_dir Scenario.env_sweep (u "/srv/app/temp") Scenario.stale_disk
  = (Val tt, add_log (cleanup_error (u "/srv/app/temp") (u "EACCES: permission denied"))
               Scenario.stale_disk) /\
  (forall p, (forall f, In f [] -> Path.join [u "/srv/app/temp"; f] <> p) ->
             st_fs Scenario.stale_disk !! p = st_fs Scenario.stale_disk !! p) /\
  cleanupOldFiles Scenario.env_sweep Scenario.stale_disk
  = (Val tt, snd (sweep_dir Scenario.env_sweep (OUTPUT_DIR Scenario.env_sweep)
                    (snd (sweep_dir Scenario.env_sweep (TEMP_DIR Scenario.env_sweep)
                            Scenario.stale_disk)))).
Proof.
  apply (C8_failure_ends_directory_sweep Scenario.env_sweep (u "/srv/app/temp")
           Scenario.stale_disk [] (u "a.tsx") [u "b.tsx"] (u "EACCES: permission denied")
           Scenario.stale_disk).
  - vm_compute; reflexivity.
  - reflexivity.
  - vm_compute; reflexivity.
Defined.

(** C8 as stated fails: the stat of a.tsx is refused; b.tsx, listed after
    it, is stale and nothing fails on it, yet it is still on disk after the
    sweep, while the stale file of the other area is deleted. *)
Lemma C8_counterexample_rest_of_directory_skipped :
  exists_on_disk Scenario.output_old
    (snd (cleanupOldFiles Scenario.env_sweep Scenario.stale_disk)) = false /\
  ~ sweep_deletes_other_stale_files Scenario.env_sweep Scenario.stale_disk.
Proof.
  split; [vm_compute; reflexivity|].
  intros H. specialize (H (u "/srv/app/temp") (u "b.tsx")).
  assert (Hb : exists_on_disk (Path.join [u "/srv/app/temp"; u "b.tsx"])
                 (snd (cleanupOldFiles Scenario.env_sweep Scenario.stale_disk)) = true)
    by (vm_compute; reflexivity).
  rewrite Hb in H. apply diff_true_false. apply H.
  - left. vm_compute; reflexivity.
  - right; left. vm_compute; reflexivity.
  - vm_compute; reflexivity.
  - vm_compute; reflexivity.
  - vm_compute; reflexivity.
Qed.

(** ** Paths *)

Lemma split_slash_plain n cur :
  forallb (fun c => negb (char_eqb c Path.slash)) n = true ->
  Path.split_slash n cur = [rev cur ++ n].
Proof.
  revert cur; induction n as [|c n IH]; intros cur H; simpl in *.
  - rewrite app_nil_r. reflexivity.
  - apply andb_true_iff in H as [Hc Hn]. apply negb_true_iff in Hc. rewrite Hc.
    rewrite IH by exact Hn. simpl. rewrite <- app_assoc. reflexivity.
Qed.

Lemma split_slash_app x y cur :
  Path.split_slash (x ++ Path.slash :: y) cur = Path.split_slash x cur ++ Path.split_slash y [].
Proof.
  revert cur; induction x as [|c x IH]; intros cur; simpl.
  - reflexivity.
  - destruct (char_eqb c Path.slash); simpl; rewrite IH; reflexivity.
Qed.

Lemma normalize_segments_last allow segs n acc :
  plain_name n = true ->
  exists acc', Path.normalize_segments allow (segs ++ [n]) acc = rev (n :: acc').
Proof.
  intros Hn. unfold plain_name in Hn.
  apply andb_true_iff in Hn as [Hn _]. apply andb_true_iff in Hn as [Hn H2].
  apply andb_true_iff in Hn as [H0 H1].
  apply negb_true_iff in H0, H1, H2.
  revert acc; induction segs as [|seg segs IH]; intros acc.
  - simpl. rewrite H0, H1, H2. simpl. eauto.
  - simpl. destruct (_ || _); [apply IH|].
    destruct (str_eqb seg (u "..")); [|apply IH].
    destruct acc as [|top acc]; [apply IH|].
    destruct (str_eqb top (u "..")); apply IH.
Qed.

Lemma join_slash_last l n : exists pre, Path.join_slash (l ++ [n]) = pre ++ n.
Proof.
  induction l as [|x l [pre IH]].
  - exists []; reflexivity.
  - simpl. destruct (l ++ [n]) eqn:E; [destruct l; discriminate|].
    rewrite IH. exists (x ++ Path.slash :: pre). rewrite <- app_assoc. reflexivity.
Qed.

Lemma plain_name_last n :
  plain_name n = true -> exists pre c, n = pre ++ [c] /\ char_eqb c Path.slash = false.
Proof.
  unfold plain_name. intros H. apply andb_true_iff in H as [H Hall].
  apply andb_true_iff in H as [H _]. apply andb_true_iff in H as [H _].
  apply negb_true_iff, str_eqb_neq in H.
  destruct (exists_last H) as (pre & c & ->). exists pre, c. split; [reflexivity|].
  rewrite forallb_app in Hall. apply andb_true_iff in Hall as [_ Hc]. simpl in Hc.
  rewrite andb_true_r in Hc. apply negb_true_iff in Hc. exact Hc.
Qed.

(** Normalizing a path that ends with a file name keeps the name at the
    end. *)
Lemma normalize_plain x n :
  (x = [] \/ exists y, x = y ++ [Path.slash]) -> plain_name n = true ->
  exists pre, Path.normalize (x ++ n) = pre ++ n.
Proof.
  intros Hx Hn. destruct (plain_name_last n Hn) as (npre & c & En & Hc).
  assert (Hsplit : exists segs, Path.split_slash (x ++ n) [] = segs ++ [n]).
  { assert (Hall : forallb (fun c => negb (char_eqb c Path.slash)) n = true)
      by (unfold plain_name in Hn; apply andb_true_iff in Hn as [_ Hn]; exact Hn).
    destruct Hx as [->|[y ->]].
    - exists []. simpl. apply split_slash_plain; exact Hall.
    - rewrite <- app_assoc. simpl. rewrite split_slash_app.
      rewrite (split_slash_plain n [] Hall). eauto. }
  destruct Hsplit as [segs Hsplit].
  assert (Hne : x ++ n <> []) by (rewrite En; destruct x; [destruct npre|]; discriminate).
  assert (Htrail : ends_with [Path.slash] (x ++ n) = false).
  { unfold ends_with. rewrite En, app_assoc, rev_app_distr.
    cbn [rev app starts_with]. unfold char_eqb in *. rewrite N.eqb_sym, Hc. reflexivity. }
  unfold Path.normalize. destruct (x ++ n) as [|c0 p] eqn:Ep; [congruence|].
  rewrite Hsplit, Htrail.
  destruct (normalize_segments_last (negb (Path.is_absolute (c0 :: p))) segs n [] Hn)
    as [acc' ->].
  simpl rev. destruct (join_slash_last (rev acc') n) as [pre ->].
  destruct (pre ++ n) eqn:E;
    [apply app_eq_nil in E as [_ E]; rewrite En in E; destruct npre; discriminate|].
  rewrite <- E. destruct (Path.is_absolute _).
  - exists (Path.slash :: pre). reflexivity.
  - exists pre. reflexivity.
Qed.

Lemma join_plain a n :
  plain_name n = true -> exists pre, Path.join [a; n] = pre ++ n.
Proof.
  intros Hn. unfold Path.join. simpl.
  assert (Hne : str_eqb n [] = false).
  { unfold plain_name in Hn. apply andb_true_iff in Hn as [Hn _].
    apply andb_true_iff in Hn as [Hn _]. apply andb_true_iff in Hn as [Hn _].
    apply negb_true_iff in Hn. exact Hn. }
  rewrite Hne. destruct (str_eqb a []) eqn:Ea; simpl.
  - apply (normalize_plain [] n); auto.
  - destruct a as [|c a]; [discriminate|].
    change ((c :: a) ++ Path.slash :: n) with ((c :: a) ++ [Path.slash] ++ n).
    rewrite app_assoc. apply normalize_plain; eauto.
Qed.

(** Joined paths with file names that end differently are different. *)
Lemma join_plain_differ a b n m c d npre mpre :
  plain_name n = true -> plain_name m = true ->
  n = npre ++ [c] -> m = mpre ++ [d] -> c <> d ->
  Path.join [a; n] <> Path.join [b; m].
Proof.
  intros Hn Hm En Em Hcd.
  destruct (join_plain a n Hn) as [p1 ->]. destruct (join_plain b m Hm) as [p2 ->].
  rewrite En, Em, !app_assoc. intros H. apply app_inj_tail in H as [_ H]. congruence.
Qed.

(** ** Duration in frames *)

Lemma writeFile_run env p data st r st' :
  writeFile env p data st = (r, st') ->
  (exists e, r = Exc e /\ st' = st) \/
  (r = Val tt /\ st' = set_fs (insert p (File data (Date_now env))) st).
Proof.
  unfold writeFile, guarded, bind, get, throw, modify.
  destruct (fault env (OpWrite p)); [intros [= <- <-]; eauto|].
  destruct (st_fs st !! p) as [[]|]; intros [= <- <-]; eauto.
Qed.

Lemma unlines_app a b : unlines (a ++ b) = unlines a ++ unlines b.
Proof. unfold unlines. rewrite map_app, concat_app. reflexivity. Qed.

Lemma unlines_middle before line after :
  unlines (before ++ line :: after) = unlines before ++ line ++ nl ++ unlines after.
Proof.
  rewrite unlines_app. unfold unlines at 2. simpl. rewrite <- app_assoc. reflexivity.
Qed.

(** What a successful [createTempProject] leaves at [src/Root.tsx]. *)
Lemma createTempProject_root env tsxFilePath config st dir st' :
  createTempProject env tsxFilePath config st = (Val dir, st') ->
  exists style,
    content_on_disk (Path.join [Path.join [dir; u "src"]; u "Root.tsx"]) st'
    = Some (rootTsx env config (importStatement style (forward_slashes tsxFilePath))).
Proof.
  intros H. pose proof (createTempProject_returns _ _ _ _ _ _ H) as ->.
  unfold createTempProject in H. cbv zeta in H. unfold bind in H.
  destruct (mkdir env _ st) as [[[]|e1] s1]; [|discriminate].
  destruct (mkdir env _ s1) as [[[]|e2] s2]; [|discriminate].
  destruct (detectExportStyle env _ s2) as [[style|e3] s3]; [|discriminate].
  destruct (writeFile env _ indexTs s3) as [[[]|e4] s4]; [|discriminate].
  destruct (writeFile env _ (rootTsx _ _ _) s4) as [[[]|e5] s5] eqn:E5; [|discriminate].
  destruct (writeFile env _ tsconfig_json s5) as [[[]|e6] s6] eqn:E6; [|discriminate].
  destruct (writeFile env _ remotionConfig s6) as [[[]|e7] s7] eqn:E7; [|discriminate].
  injection H as <-.
  apply writeFile_run in E5 as [(e & [=] & _)|[_ ->]].
  apply writeFile_run in E6 as [(e & [=] & _)|[_ ->]].
  apply writeFile_run in E7 as [(e & [=] & _)|[_ ->]].
  exists style. unfold content_on_disk. cbn [st_fs set_fs].
  rewrite lookup_insert_ne.
  2:{ apply (join_plain_differ _ _ _ _ 115%N 120%N (u "remotion.config.t") (u "Root.ts"));
        (vm_compute; reflexivity) || discriminate. }
  rewrite lookup_insert_ne.
  2:{ apply (join_plain_differ _ _ _ _ 110%N 120%N (u "tsconfig.jso") (u "Root.ts"));
        (vm_compute; reflexivity) || discriminate. }
  rewrite lookup_insert_eq. reflexivity.
Qed.

Lemma render_with_config_calls env jobId tsxFilePath outputFileName outputPath config
      (ok : RenderArgs -> Prop) :
  (forall composition bundleLocation,
     ok {| ra_composition := composition;
           ra_durationInFrames := durationInFrames env config;
           ra_fps := fps config; ra_width := width config;
           ra_height := height config; ra_serveUrl := bundleLocation;
           ra_codec := u "h264"; ra_outputLocation := outputPath |}) ->
  keeps (fun st => Forall (renderer_calls ok) (st_calls st))
        (render_with_config env jobId tsxFilePath outputFileName outputPath config).
Proof.
  intros Hok.
  apply keeps_render_with_config with (call_ok := renderer_calls ok);
    unfold fs_blind, log_blind; simpl; auto.
Qed.

(** [round_half_up sm k] is the integer nearest to [sm / 2^k], the larger
    one when two are equally near. *)
Lemma round_half_up_nearest sm k :
  0 <= k ->
  2 ^ k * (2 * round_half_up sm k - 1) <= 2 * sm < 2 ^ k * (2 * round_half_up sm k + 1).
Proof.
  intros Hk. unfold round_half_up.
  assert (Hp : 0 < 2 ^ k) by (apply Z.pow_pos_nonneg; lia).
  replace (2 ^ (k + 1)) with (2 * 2 ^ k) by (rewrite Z.pow_add_r by lia; lia).
  pose proof (Z.mul_div_le (2 * sm + 2 ^ k) (2 * 2 ^ k) ltac:(lia)) as H1.
  pose proof (Z.mul_succ_div_gt (2 * sm + 2 ^ k) (2 * 2 ^ k) ltac:(lia)) as H2.
  set (n := (2 * sm + 2 ^ k) / (2 * 2 ^ k)) in *. lia.
Qed.

(** [Math.round] of a number with a fractional part is that nearest
    integer, as a number; integers, zeros, infinities and NaN are returned
    as they are. *)
Lemma Math_round_finite x sgn m e :
  Prim2SF x = S754_finite sgn m e -> e < 0 ->
  let sm := if sgn then Z.neg m else Z.pos m in
  let n := round_half_up sm (- e) in
  2 ^ (- e) * (2 * n - 1) <= 2 * sm < 2 ^ (- e) * (2 * n + 1) /\
  Math_round x = if n =? 0 then (if sgn then neg_zero else pos_zero) else Z_to_float n.
Proof.
  intros Hx He. cbv zeta. split; [apply round_half_up_nearest; lia|].
  unfold Math_round. rewrite Hx.
  destruct (Z.leb_spec 0 e); [lia | reflexivity].
Qed.

(** 5 s at 29.97 fps: the product 149.85 is rounded to 150 frames. *)
Example Math_round_29_97 :
  Math_round (PrimFloat.mul 5 (parseFloat (u "29.97"))) = 150%float.
Proof. vm_compute. reflexivity. Qed.



(** The demo job end to end: a 48-frame, 24 fps, 640 by 480 composition
    named demo is handed to the renderer, and the root file declares 48
    frames (on the platform where the project directory is not removed, so
    that the file can be read after the job). *)
Example demo_job_renders_48_frames :
  let run := render Scenario.env_locked Scenario.demo_request Scenario.booted in
  duration_line Scenario.env_A (Math_round (PrimFloat.mul 2 24))
  = u "      durationInFrames={48}" /\
  hd_error (st_calls (snd run))
  = Some (CallRenderMedia
            {| ra_composition := VObj [(u "id", VStr (u "demo"))];
               ra_durationInFrames := 48; ra_fps := VNum 24;
               ra_width := VNum 640; ra_height := VNum 480;
               ra_serveUrl := u "/tmp/bundle"; ra_codec := u "h264";
               ra_outputLocation := Scenario.output_A |}) /\
  content_on_disk (u "/tmp/remotion-render-1700000000000/src/Root.tsx") (snd run)
  = Some (unlines
            [u "import React from 'react';";
             u "import { Composition } from 'remotion';";
             cat [u "import UserComponent from '"; Scenario.tsx_A; u "';"];
             [];
             u "export const Root: React.FC = () => {";
             u "  return (";
             u "    <Composition";
             cat [u "      id="; quoted (u "demo")];
             u "      component={UserComponent}";
             u "      durationInFrames={48}";
             u "      fps={24}";
             u "      width={640}";
             u "      height={480}";
             u "      defaultProps={{}}";
             u "    />";
             u "  );";
             u "};"]).
Proof. cbv zeta. repeat split; vm_compute; reflexivity. Qed.

(** ** Output file name *)

Section Returns.
Context {A B : Type}.

Lemma returns_ret (a : A) (Q : A -> Prop) : Q a -> returns (ret a) Q.
Proof. intros H st a' st' [= <- <-]. exact H. Qed.

Lemma returns_bind (m : M A) (k : A -> M B) (R : A -> Prop) (Q : B -> Prop) :
  returns m R -> (forall a, R a -> returns (k a) Q) -> returns (bind m k) Q.
Proof.
  intros Hm Hk st b st'. unfold bind.
  destruct (m st) as [[a|e] st1] eqn:E; [|discriminate].
  intros H. eapply Hk; [eapply Hm; exact E | exact H].
Qed.

Lemma returns_bind_any (m : M A) (k : A -> M B) (Q : B -> Prop) :
  (forall a, returns (k a) Q) -> returns (bind m k) Q.
Proof.
  intros Hk. apply returns_bind with (R := fun _ => True); [intros ? ? ? ?; exact I | auto].
Qed.

Lemma returns_try_catch (m : M A) (h : str -> M A) (Q : A -> Prop) :
  returns m Q -> (forall e, returns (h e) Q) -> returns (try_catch m h) Q.
Proof.
  intros Hm Hh st a st'. unfold try_catch.
  destruct (m st) as [[a1|e] st1] eqn:E.
  - intros [= <- <-]. eapply Hm; exact E.
  - apply Hh.
Qed.

Lemma returns_try_catch_finally (m : M A) (h : str -> M A) (fin : M unit) (Q : A -> Prop) :
  returns m Q -> (forall e, returns (h e) Q) -> returns (try_catch_finally m h fin) Q.
Proof.
  intros Hm Hh st a st'. unfold try_catch_finally.
  destruct (try_catch m h st) as [r1 st1] eqn:E.
  destruct (fin st1) as [[[]|e] st2]; [|discriminate].
  intros [= -> <-]. eapply (returns_try_catch m h Q Hm Hh); exact E.
Qed.

End Returns.

Lemma render_with_config_reply env jobId tsxFilePath outputFileName outputPath config :
  returns (render_with_config env jobId tsxFilePath outputFileName outputPath config)
          (fun reply => code reply = 200 /\ headers reply = video_headers outputFileName).
Proof.
  unfold render_with_config.
  repeat (apply returns_bind_any; intros ?).
  apply returns_ret. split; reflexivity.
Qed.

Lemma render_try_reply env jobId tsx tsxFilePath outputFileName outputPath :
  returns (render_try env jobId tsx tsxFilePath outputFileName outputPath)
          (fun reply => code reply = 200 -> headers reply = video_headers outputFileName).
Proof.
  unfold render_try.
  apply returns_bind_any; intros _. apply returns_bind_any; intros _.
  apply returns_bind with
    (R := fun extracted => match extracted with inl reply => code reply = 400 | inr _ => True end).
  - apply returns_try_catch.
    + repeat (apply returns_bind_any; intros ?). apply returns_ret. exact I.
    + intros e. apply returns_ret. reflexivity.
  - intros [reply|config] Hr.
    + apply returns_ret. rewrite Hr. discriminate.
    + intros st a st' H. apply render_with_config_reply in H as [_ H]. auto.
Qed.

Lemma render_catch_reply env jobId tsxFilePath outputPath err :
  returns (render_catch env jobId tsxFilePath outputPath err) (fun reply => code reply = 500).
Proof.
  unfold render_catch. repeat (apply returns_bind_any; intros ?).
  apply returns_ret. reflexivity.
Qed.

Lemma render_reply env request outputFileName :
  outputFileName_of (randomUUID env) (filename request) = VStr outputFileName ->
  returns (render env request)
          (fun reply => code reply = 200 -> headers reply = video_headers outputFileName).
Proof.
  intros Hname. unfold render.
  destruct (tsx request) as [| | | |[|c t]|]; try (apply returns_ret; discriminate).
  destruct (_ >? _); [apply returns_ret; discriminate|].
  rewrite Hname. apply returns_bind_any; intros _.
  apply returns_try_catch_finally.
  - apply render_try_reply.
  - intros e st a st' H. apply render_catch_reply in H. rewrite H. discriminate.
Qed.

Lemma render_output_location env request outputFileName :
  outputFileName_of (randomUUID env) (filename request) = VStr outputFileName ->
  keeps (fun st => Forall (renderer_calls
                             (fun a => ra_outputLocation a
                                       = Path.join [OUTPUT_DIR env; outputFileName]))
                          (st_calls st))
        (render env request).
Proof.
  intros Hname. unfold render.
  destruct (tsx request) as [| | | |[|c t]|]; try apply keeps_ret.
  destruct (_ >? _); [apply keeps_ret|].
  rewrite Hname. apply keeps_bind; [apply keeps_modify; auto|]. intros _.
  set (ok := fun a => ra_outputLocation a = Path.join [OUTPUT_DIR env; outputFileName]).
  apply keeps_try_catch_finally.
  - apply keeps_render_try with (call_ok := renderer_calls ok);
      unfold fs_blind, log_blind, ok; simpl; auto.
  - intros e. apply keeps_render_catch; unfold fs_blind, log_blind; simpl; auto.
  - apply keeps_render_finally. unfold fs_blind; simpl; auto.
Qed.


(** A filename with parent directories and no video extension is accepted
    as it is: the renderer is told to write outside the outputs directory,
    and the header repeats the name. *)
Example escaping_filename_is_used :
  let run := render Scenario.env_A Scenario.escaping_request Scenario.booted in
  hd_error (st_calls (snd run))
  = Some (CallRenderMedia
            {| ra_composition := VObj [(u "id", VStr (u "demo"))];
               ra_durationInFrames := 48; ra_fps := VNum 24;
               ra_width := VNum 640; ra_height := VNum 480;
               ra_serveUrl := u "/tmp/bundle"; ra_codec := u "h264";
               ra_outputLocation := u "/srv/etc/cron.d/job" |}) /\
  fst run = Val {| code := 200;
                   headers := video_headers (u "../../etc/cron.d/job");
                   payload := Buffer (u "MP4") |}.
Proof. cbv zeta. split; vm_compute; reflexivity. Qed.


(** ** The handler's exits *)

Section Total.
Context {A B : Type}.

Lemma never_throws_ret (a : A) : never_throws (ret a).
Proof. intros st. exists a, st. reflexivity. Qed.

Lemma never_throws_bind (m : M A) (k : A -> M B) :
  never_throws m -> (forall a, never_throws (k a)) -> never_throws (bind m k).
Proof.
  intros Hm Hk st. unfold bind. destruct (Hm st) as (a & st1 & ->). apply Hk.
Qed.

Lemma never_throws_try_catch (m : M A) (h : str -> M A) :
  (forall e, never_throws (h e)) -> never_throws (try_catch m h).
Proof.
  intros Hh st. unfold try_catch. destruct (m st) as [[a|e] st1]; [eauto | apply Hh].
Qed.

End Total.

Lemma never_throws_modify f : never_throws (modify f).
Proof. intros st. exists tt, (f st). reflexivity. Qed.

Lemma never_throws_cleanupTempProject env d : never_throws (cleanupTempProject env d).
Proof.
  destruct d as [|c d]; [apply never_throws_ret|]. unfold cleanupTempProject.
  apply never_throws_bind; [intros st; eexists _, st; reflexivity|].
  intros [|]; [|apply never_throws_ret].
  apply never_throws_try_catch. intros e. apply never_throws_ret.
Qed.

Lemma never_throws_render_finally env : never_throws (render_finally env).
Proof.
  intros st. unfold render_finally, bind, get.
  destruct (st_tempProjectDir st) as [[|c d]|]; try (exists tt, st; reflexivity).
  apply never_throws_cleanupTempProject.
Qed.

Lemma never_throws_render_catch env jobId tsxFilePath outputPath err :
  never_throws (render_catch env jobId tsxFilePath outputPath err).
Proof.
  unfold render_catch.
  apply never_throws_bind; [apply never_throws_modify|]. intros _.
  apply never_throws_bind; [|intros _; apply never_throws_ret].
  apply never_throws_try_catch. intros e. apply never_throws_modify.
Qed.

Lemma render_try_code env jobId tsx tsxFilePath outputFileName outputPath :
  returns (render_try env jobId tsx tsxFilePath outputFileName outputPath)
          (fun reply => code reply = 200 \/ code reply = 400).
Proof.
  unfold render_try.
  apply returns_bind_any; intros _. apply returns_bind_any; intros _.
  apply returns_bind with
    (R := fun extracted => match extracted with inl reply => code reply = 400 | inr _ => True end).
  - apply returns_try_catch.
    + repeat (apply returns_bind_any; intros ?). apply returns_ret. exact I.
    + intros e. apply returns_ret. reflexivity.
  - intros [reply|config] Hr.
    + apply returns_ret. right. exact Hr.
    + intros st a st' H. apply render_with_config_reply in H as [H _]. left. exact H.
Qed.



(** X2. A request with an acceptable source whose filename member is
    truthy and not a string (a number, true, an object) makes the handler
    throw while it builds the output path, outside its try block: the error
    leaves the handler, and nothing has been written, called or logged. *)
Theorem X2_filename_of_wrong_type_throws env request st :
  acceptable_tsx (tsx request) = true ->
  usable_filename (filename request) = false ->
  exists e, render env request st = (Exc e, st).
Proof.
  intros Ht Hf. unfold render.
  destruct (tsx request) as [| | | |[|c t]|]; try discriminate.
  unfold acceptable_tsx in Ht. apply andb_prop in Ht as [_ Ht]. apply Z.leb_le in Ht.
  destruct (Z.of_nat (length (c :: t)) >? MAX_TSX_SIZE) eqn:Hs;
    [rewrite Z.gtb_ltb, Z.ltb_lt in Hs; lia|].
  unfold outputFileName_of, js_or.
  destruct (filename request) as [| |b|x|s|o]; cbn [usable_filename] in Hf;
    try discriminate; apply negb_false_iff in Hf; rewrite Hf; eexists; reflexivity.
Qed.

Lemma X2_filename_of_wrong_type_throws_witness :
  exists e,
    render Scenario.env_A {| tsx := VStr Scenario.demo_tsx; filename := VBool true |}
      Scenario.booted = (Exc e, Scenario.booted).
Proof.
  apply (X2_filename_of_wrong_type_throws Scenario.env_A
           {| tsx := VStr Scenario.demo_tsx; filename := VBool true |} Scenario.booted).
  - vm_compute; reflexivity.
  - reflexivity.
Defined.



(** ** What is left on disk *)

Lemma exists_on_disk_true p st n : st_fs st !! p = Some n -> exists_on_disk p st = true.
Proof. intros H. unfold exists_on_disk. apply bool_decide_eq_true. rewrite H. eauto. Qed.

(** [if (fs.existsSync(p)) fs.unlink(p)] on a path that is no directory. *)
Lemma remove_if_present env p st :
  is_directory p st = false -> fault env (OpUnlink p) = None ->
  exists st',
    bind (existsSync p) (fun there => if there then unlink env p else ret tt) st
    = (Val tt, st') /\
    st_fs st' = delete p (st_fs st) /\ st_log st' = st_log st /\
    st_calls st' = st_calls st /\ st_tempProjectDir st' = st_tempProjectDir st.
Proof.
  intros Hd Hf. unfold bind, existsSync, is_directory in *.
  destruct (st_fs st !! p) as [[data t|t]|] eqn:Hp; [| discriminate |].
  - rewrite bool_decide_eq_true_2 by eauto.
    unfold unlink, guarded, bind, get, modify. rewrite Hf, Hp.
    eexists. split; [reflexivity|]. simpl. auto.
  - rewrite bool_decide_eq_false_2 by (intros [x Hx]; discriminate).
    exists st. split; [reflexivity|]. rewrite delete_id by exact Hp. auto.
Qed.

(** The recursive removal of a project directory: it never throws, and
    each entry of the disk is as before or gone. *)
Lemma cleanupTempProject_run env d st :
  exists st',
    cleanupTempProject env d st = (Val tt, st') /\
    st_calls st' = st_calls st /\ st_log st' = st_log st /\
    st_tempProjectDir st' = st_tempProjectDir st /\
    forall p, st_fs st' !! p = st_fs st !! p \/ (inside d p /\ st_fs st' !! p = None).
Proof.
  destruct d as [|c d]; [solve [exists st; simpl; auto 6]|].
  unfold cleanupTempProject, bind, existsSync.
  destruct (bool_decide _); [|solve [exists st; auto 6]].
  unfold try_catch, rmSync, guarded, modify, throw, ret.
  destruct (fault env (OpRm (c :: d))); [solve [exists st; auto 6]|].
  eexists. split; [reflexivity|]. simpl. repeat (split; [reflexivity|]).
  intros p.
  destruct (str_eqb p (c :: d) || below (c :: d) p) eqn:Hin.
  - right. split.
    + apply orb_prop in Hin as [H|H]; [left; apply str_eqb_eq; exact H | right; exact H].
    + apply map_lookup_filter_None. right. intros x _. cbn [fst]. rewrite Hin. discriminate.
  - left. destruct (st_fs st !! p) as [x|] eqn:Hp.
    + apply map_lookup_filter_Some. split; [exact Hp|]. cbn [fst]. rewrite Hin. reflexivity.
    + apply map_lookup_filter_None. left. exact Hp.
Qed.

Lemma render_finally_run env st :
  exists st',
    render_finally env st = (Val tt, st') /\
    st_calls st' = st_calls st /\ st_log st' = st_log st /\
    forall p, st_fs st' !! p = st_fs st !! p \/
              (st_fs st' !! p = None /\
               exists d, st_tempProjectDir st = Some d /\ inside d p).
Proof.
  unfold render_finally, bind, get.
  destruct (st_tempProjectDir st) as [[|c d]|] eqn:Hd; try solve [exists st; auto 6].
  destruct (cleanupTempProject_run env (c :: d) st) as (st' & -> & Hc & Hl & _ & Hfs).
  exists st'. repeat (split; [auto|]). intros p.
  destruct (Hfs p) as [H|[H1 H2]]; [left; exact H | right; eauto].
Qed.



Lemma cleanupTempProject_removes env d st p :
  d <> [] -> exists_on_disk d st = true -> fault env (OpRm d) = None ->
  p = d \/ below d p = true ->
  exists_on_disk p (snd (cleanupTempProject env d st)) = false.
Proof.
  intros Hd Hex Hf Hin. apply exists_on_disk_false.
  destruct d as [|c d]; [congruence|].
  unfold cleanupTempProject, bind, existsSync. unfold exists_on_disk in Hex. rewrite Hex.
  unfold try_catch, rmSync, guarded, modify. rewrite Hf. simpl.
  apply map_lookup_filter_None. right. intros x _. cbn [fst].
  destruct Hin as [->|Hin]; [rewrite str_eqb_refl | rewrite Hin, orb_true_r]; discriminate.
Qed.


(** X5. When the removal of an existing project directory does not fail,
    the directory and every entry below it are gone afterwards. *)
Theorem X5_cleanup_removes_the_subtree env d st p :
  d <> [] -> exists_on_disk d st = true -> fault env (OpRm d) = None ->
  p = d \/ below d p = true ->
  exists_on_disk p (snd (cleanupTempProject env d st)) = false.
Proof. apply cleanupTempProject_removes. Qed.

Lemma X5_cleanup_removes_the_subtree_witness :
  exists_on_disk Scenario.temp_a
    (snd (cleanupTempProject Scenario.env_A (u "/srv/app/temp") Scenario.stale_disk)) = false.
Proof.
  apply (X5_cleanup_removes_the_subtree Scenario.env_A (u "/srv/app/temp") Scenario.stale_disk
           Scenario.temp_a).
  - discriminate.
  - vm_compute; reflexivity.
  - reflexivity.
  - right. vm_compute; reflexivity.
Defined.



Ltac hoare_skip :=
  eapply hoare_bind with (R := fun _ _ => True);
  [ intros ? ? ? ? ?; exact I | intros ? | intros ? ? _ ? [=] ].

(** When the pipeline returns its reply, the source file has been deleted
    and the body of the reply is what was read at the output path. *)
Lemma render_with_config_delivers env jobId tsxFilePath outputFileName outputPath config :
  hoare (fun _ => True)
    (render_with_config env jobId tsxFilePath outputFileName outputPath config)
    (fun r st => forall reply, r = Val reply ->
       st_fs st !! tsxFilePath = None /\
       exists data, payload reply = Buffer data /\ content_on_disk outputPath st = Some data).
Proof.
  unfold render_with_config. cbv zeta.
  repeat lazymatch goal with
         | |- hoare _ (bind (unlink _ _) _) _ => fail
         | |- hoare _ (bind _ _) _ => hoare_skip
         end.
  intros st r st' _ E reply ->. unfold bind in E.
  destruct (unlink env tsxFilePath st) as [ru su] eqn:Eu.
  apply unlink_run in Eu as [(e & -> & ->)|[-> ->]]; [discriminate|].
  unfold readFile, guarded, bind, get, throw, ret in E.
  destruct (fault env (OpRead outputPath)); [discriminate|].
  destruct (st_fs (set_fs (delete tsxFilePath) st) !! outputPath) as [[data t|t]|] eqn:Ho;
    try discriminate.
  injection E as <- <-. split.
  - simpl. apply lookup_delete_eq.
  - exists data. split; [reflexivity|]. unfold content_on_disk. rewrite Ho. reflexivity.
Qed.

Lemma render_try_delivers env jobId tsx tsxFilePath outputFileName outputPath :
  hoare (fun _ => True)
    (render_try env jobId tsx tsxFilePath outputFileName outputPath)
    (fun r st => forall reply, r = Val reply -> code reply = 200 ->
       st_fs st !! tsxFilePath = None /\
       exists data, payload reply = Buffer data /\ content_on_disk outputPath st = Some data).
Proof.
  unfold render_try. hoare_skip. hoare_skip.
  eapply hoare_bind with
    (R := fun r _ => forall reply, r = Val (inl reply) -> code reply = 400).
  - intros st r st' _ E reply ->.
    unfold try_catch, bind, log_info, modify, ret in E.
    destruct (extractCompositionConfig env tsxFilePath st) as [[cfg|e] s1];
      [discriminate E | injection E as <- _; reflexivity].
  - intros [reply|config].
    + apply hoare_ret. intros st H reply' [= <-] Hc. rewrite (H reply eq_refl) in Hc.
      discriminate.
    + intros st r st' _ E reply Hr _.
      exact (render_with_config_delivers env jobId tsxFilePath outputFileName outputPath
               config st r st' I E reply Hr).
  - intros e st _ reply [=].
Qed.

(** X7. A job answered with status 200: its temporary source file is no
    longer on disk, and the body of the reply is the content read from the
    job's output file, which is still on disk with that content unless the
    output path lies in the job's project directory, removed on the way
    out. *)
Theorem X7_delivered_video env request st reply st' outputFileName :
  outputFileName_of (randomUUID env) (filename request) = VStr outputFileName ->
  render env request st = (Val reply, st') ->
  code reply = 200 ->
  exists_on_disk (job_source env) st' = false /\
  exists data,
    payload reply = Buffer data /\
    (content_on_disk (job_output env outputFileName) st' = Some data \/
     inside (tempDir_name env) (job_output env outputFileName)).
Proof.
  intros Hname Hrun Hcode. unfold render in Hrun.
  destruct (tsx request) as [| | | |[|c t]|];
    try (injection Hrun as <- <-; discriminate).
  destruct (Z.of_nat (length (c :: t)) >? MAX_TSX_SIZE);
    [injection Hrun as <- <-; discriminate|].
  rewrite Hname in Hrun.
  unfold bind at 1 in Hrun. unfold modify in Hrun.
  unfold try_catch_finally in Hrun.
  destruct (try_catch _ _ _) as [r1 st1] eqn:E1.
  assert (H1 : tempProjectDir_ok env st1).
  { match type of E1 with ?m _ = _ => assert (K : keeps (tempProjectDir_ok env) m) end.
    { apply keeps_try_catch.
      - apply keeps_render_try with (call_ok := fun _ => True);
          unfold fs_blind, log_blind, tempProjectDir_ok; auto.
      - intros e. apply keeps_render_catch; unfold fs_blind, log_blind; auto. }
    eapply K; [|exact E1]. left; reflexivity. }
  destruct (render_finally_run env st1) as (st2 & E2 & _ & _ & Hfs).
  rewrite E2 in Hrun. injection Hrun as -> <-.
  unfold try_catch in E1.
  destruct (render_try _ _ _ _ _ _ _) as [[a|e] s0] eqn:E0.
  - injection E1 as -> ->.
    destruct (render_try_delivers env _ _ _ _ _ _ _ _ I E0 reply eq_refl Hcode)
      as (Hsrc & data & Hp & Hout).
    split.
    + apply exists_on_disk_false. fold (job_source env) in Hsrc.
      destruct (Hfs (job_source env)) as [H|[H _]]; congruence.
    + exists data. split; [exact Hp|].
      fold (job_output env outputFileName) in Hout.
      destruct (Hfs (job_output env outputFileName)) as [H|[_ (d & Hd & Hin)]].
      * left. unfold content_on_disk in *. rewrite H. exact Hout.
      * right. destruct H1 as [H1|H1]; [congruence|].
        assert (d = tempDir_name env) by congruence. subst d. exact Hin.
  - apply render_catch_reply in E1. rewrite E1 in Hcode. discriminate.
Qed.

Lemma X7_delivered_video_witness :
  exists_on_disk (job_source Scenario.env_A)
    (snd (render Scenario.env_A Scenario.demo_request Scenario.booted)) = false /\
  exists data,
    payload {| code := 200;
               headers := video_headers Scenario.output_name_A;
               payload := Buffer (u "MP4") |} = Buffer data /\
    (content_on_disk (job_output Scenario.env_A Scenario.output_name_A)
       (snd (render Scenario.env_A Scenario.demo_request Scenario.booted)) = Some data \/
     inside (tempDir_name Scenario.env_A) (job_output Scenario.env_A Scenario.output_name_A)).
Proof.
  apply (X7_delivered_video Scenario.env_A Scenario.demo_request Scenario.booted
           {| code := 200;
              headers := video_headers Scenario.output_name_A;
              payload := Buffer (u "MP4") |}
           (snd (render Scenario.env_A Scenario.demo_request Scenario.booted))
           Scenario.output_name_A).
  - reflexivity.
  - apply run_returns. vm_compute; reflexivity.
  - reflexivity.
Defined.

(** ** The sweep of old files *)

Lemma stale_same env st st' p :
  st_fs st' !! p = st_fs st !! p -> stale env st' p = stale env st p.
Proof. intros H. unfold stale. rewrite H. reflexivity. Qed.

(** One file of the sweep: an entry that is not stale is left as it is. *)
Lemma sweep_file_spares env dir file st r st' p :
  sweep_file env dir file st = (r, st') ->
  stale env st p = false ->
  st_fs st' !! p = st_fs st !! p.
Proof.
  unfold sweep_file, bind. cbv zeta. intros H Hp.
  destruct (stat env _ st) as [[t|e] st1] eqn:E.
  - assert (st1 = st) by (eapply stat_run; exact E). subst st1.
    destruct (Date_now env - t >? ONE_HOUR) eqn:Hold.
    + apply unlink_run in H as [(e & _ & ->)|[_ ->]]; [reflexivity|].
      simpl. apply lookup_delete_ne. intros <-.
      unfold stat, guarded, bind, get, throw, ret in E.
      destruct (fault env (OpStat _)); [discriminate|].
      unfold stale in Hp.
      destruct (st_fs st !! Path.join [dir; file]) as [n|]; [|discriminate].
      injection E as <-. congruence.
    + injection H as _ <-. reflexivity.
  - apply stat_run in E as ->. injection H as _ <-. reflexivity.
Qed.

Lemma for_each_sweep_spares env dir files st r st' p :
  for_each files (sweep_file env dir) st = (r, st') ->
  stale env st p = false ->
  st_fs st' !! p = st_fs st !! p.
Proof.
  revert st; induction files as [|f files IH]; intros st; simpl.
  - intros [= _ <-] _. reflexivity.
  - unfold bind. destruct (sweep_file env dir f st) as [r1 st1] eqn:E. intros H Hp.
    pose proof (sweep_file_spares env dir f st r1 st1 p E Hp) as H1.
    destruct r1 as [[]|e].
    + rewrite <- H1. apply IH; [exact H|]. rewrite (stale_same env st st1 p H1). exact Hp.
    + injection H as _ <-. exact H1.
Qed.

Lemma sweep_dir_spares env dir st p :
  stale env st p = false ->
  st_fs (snd (sweep_dir env dir st)) !! p = st_fs st !! p.
Proof.
  intros Hp. unfold sweep_dir, try_catch, bind.
  destruct (readdir env dir st) as [[files|e] st1] eqn:Er.
  - assert (st1 = st).
    { unfold readdir, guarded, bind, get, throw, ret in Er.
      destruct (fault env (OpReaddir dir)); [congruence|].
      destruct (st_fs st !! dir) as [[]|]; congruence. }
    subst st1.
    destruct (for_each files (sweep_file env dir) st) as [[[]|e] st2] eqn:E;
      simpl; eapply for_each_sweep_spares; eauto.
  - assert (st1 = st).
    { unfold readdir, guarded, bind, get, throw, ret in Er.
      destruct (fault env (OpReaddir dir)); [congruence|].
      destruct (st_fs st !! dir) as [[]|]; congruence. }
    subst st1. reflexivity.
Qed.

(** X8. The periodic sweep never touches an entry that is not older than
    an hour by the clock, whether it is listed or not, and never creates
    one: after the sweep, whatever failed in it, every path that was absent
    or not stale holds exactly what it held before. *)
Theorem X8_sweep_spares_what_is_not_stale env st p :
  stale env st p = false ->
  fst (cleanupOldFiles env st) = Val tt /\
  st_fs (snd (cleanupOldFiles env st)) !! p = st_fs st !! p.
Proof.
  intros Hp. rewrite cleanupOldFiles_both. simpl. split; [reflexivity|].
  rewrite sweep_dir_spares.
  - apply sweep_dir_spares. exact Hp.
  - rewrite (stale_same env st _ p); [exact Hp|]. apply sweep_dir_spares. exact Hp.
Qed.

Lemma X8_sweep_spares_what_is_not_stale_witness :
  fst (cleanupOldFiles Scenario.env_sweep_free Scenario.mixed_disk) = Val tt /\
  st_fs (snd (cleanupOldFiles Scenario.env_sweep_free Scenario.mixed_disk)) !! Scenario.temp_b
  = st_fs Scenario.mixed_disk !! Scenario.temp_b.
Proof.
  apply (X8_sweep_spares_what_is_not_stale Scenario.env_sweep_free Scenario.mixed_disk
           Scenario.temp_b).
  vm_compute; reflexivity.
Defined.

Lemma distinct_cons p l :
  distinct (p :: l) = true -> ~ In p l /\ distinct l = true.
Proof.
  simpl. intros H. apply andb_prop in H as [H1 H2]. split; [|exact H2].
  intros Hin. apply negb_true_iff in H1.
  assert (existsb (str_eqb p) l = true); [|congruence].
  apply existsb_exists. exists p. split; [exact Hin | apply str_eqb_refl].
Qed.

Lemma distinct_app l1 l2 :
  distinct (l1 ++ l2) = true ->
  distinct l1 = true /\ distinct l2 = true /\ forall p, In p l1 -> ~ In p l2.
Proof.
  induction l1 as [|q l1 IH]; intros H.
  - simpl in *. auto.
  - change ((q :: l1) ++ l2) with (q :: (l1 ++ l2)) in H.
    apply distinct_cons in H as [Hq H]. destruct (IH H) as (H1 & H2 & H3).
    split; [|split; [exact H2|]].
    + simpl. rewrite H1, andb_true_r. apply negb_true_iff.
      destruct (existsb (str_eqb q) l1) eqn:Hex; [|reflexivity].
      apply existsb_exists in Hex as (x & Hx & Heq). apply str_eqb_eq in Heq. subst x.
      exfalso. apply Hq. apply in_or_app. left. exact Hx.
    + intros p [<-|Hp] Hin; [apply Hq; apply in_or_app; right; exact Hin|].
      exact (H3 p Hp Hin).
Qed.

Lemma is_file_same st st' p :
  st_fs st' !! p = st_fs st !! p -> is_file p st' = is_file p st.
Proof. intros H. unfold is_file. rewrite H. reflexivity. Qed.

(** The loop over the files of one directory when nothing fails: it runs
    to its end, logs nothing, deletes every stale file it is given and
    touches no other path. *)
Lemma for_each_sweep_unhindered env dir files st :
  (forall f, In f files ->
             is_file (Path.join [dir; f]) st = true /\
             fault env (OpStat (Path.join [dir; f])) = None /\
             fault env (OpUnlink (Path.join [dir; f])) = None) ->
  distinct (map (fun f => Path.join [dir; f]) files) = true ->
  exists st',
    for_each files (sweep_file env dir) st = (Val tt, st') /\
    st_log st' = st_log st /\
    (forall f, In f files -> stale env st (Path.join [dir; f]) = true ->
               st_fs st' !! Path.join [dir; f] = None) /\
    (forall q, ~ In q (map (fun f => Path.join [dir; f]) files) ->
               st_fs st' !! q = st_fs st !! q) /\
    (forall q, st_fs st' !! q = st_fs st !! q \/ st_fs st' !! q = None).
Proof.
  revert st; induction files as [|f files IH]; intros st Hok Hd.
  - exists st. simpl. split; [reflexivity|]. split; [reflexivity|].
    split; [intros f []|]. auto.
  - change (map (fun f => Path.join [dir; f]) (f :: files))
      with (Path.join [dir; f] :: map (fun f => Path.join [dir; f]) files) in *.
    apply distinct_cons in Hd as [Hf Hd].
    destruct (Hok f (or_introl eq_refl)) as (Hfile & Hstat & Hunl).
    set (pf := Path.join [dir; f]) in *.
    assert (Hstep : exists st1,
               sweep_file env dir f st = (Val tt, st1) /\ st_log st1 = st_log st /\
               (stale env st pf = true -> st_fs st1 !! pf = None) /\
               (forall q, q <> pf -> st_fs st1 !! q = st_fs st !! q) /\
               (forall q, st_fs st1 !! q = st_fs st !! q \/ st_fs st1 !! q = None)).
    { unfold sweep_file, bind. cbv zeta. fold pf.
      unfold stat, guarded, bind, get, ret. rewrite Hstat.
      unfold is_file in Hfile. unfold stale.
      destruct (st_fs st !! pf) as [[data t|t]|] eqn:Hp; try discriminate.
      cbn [mtime_of].
      destruct (Date_now env - t >? ONE_HOUR) eqn:Hold.
      - unfold unlink, guarded, bind, get, modify. rewrite Hunl, Hp.
        eexists. split; [reflexivity|]. simpl. split; [reflexivity|].
        split; [intros _; apply lookup_delete_eq|].
        split; [intros q Hq; apply lookup_delete_ne; congruence|].
        intros q. destruct (decide (q = pf)) as [->|Hq].
        + right. apply lookup_delete_eq.
        + left. apply lookup_delete_ne. congruence.
      - exists st. split; [reflexivity|]. split; [reflexivity|].
        split; [discriminate|]. auto. }
    destruct Hstep as (st1 & E1 & Hl1 & Hdel1 & Hfr1 & Hsh1).
    destruct (IH st1) as (st' & E & Hl & Hdel & Hfr & Hsh).
    { intros g Hg. destruct (Hok g (or_intror Hg)) as (H1 & H2 & H3).
      split; [|auto]. rewrite <- H1. apply is_file_same. apply Hfr1.
      intros Heq. apply Hf. rewrite <- Heq. apply in_map_iff. exists g. auto. }
    { exact Hd. }
    exists st'. simpl. unfold bind. rewrite E1. split; [exact E|].
    split; [congruence|]. split; [|split].
    + intros g [<-|Hg] Hst.
      * fold pf. rewrite (Hfr pf Hf). apply Hdel1. exact Hst.
      * apply Hdel; [exact Hg|]. rewrite <- Hst. apply stale_same. apply Hfr1.
        intros Heq. apply Hf. rewrite <- Heq. apply in_map_iff. exists g. auto.
    + intros q Hq. rewrite Hfr by (intros H; apply Hq; right; exact H).
      apply Hfr1. intros ->. apply Hq. left. reflexivity.
    + intros q. destruct (Hsh q) as [H|H]; [|right; exact H].
      rewrite H. apply Hsh1.
Qed.

Lemma sweep_dir_unhindered env dir st :
  is_directory dir st = true -> fault env (OpReaddir dir) = None ->
  (forall p, In p (listed_paths env dir) ->
             is_file p st = true /\ fault env (OpStat p) = None /\
             fault env (OpUnlink p) = None) ->
  distinct (listed_paths env dir) = true ->
  exists st',
    sweep_dir env dir st = (Val tt, st') /\
    st_log st' = st_log st /\
    (forall p, In p (listed_paths env dir) -> stale env st p = true ->
               st_fs st' !! p = None) /\
    (forall q, ~ In q (listed_paths env dir) -> st_fs st' !! q = st_fs st !! q) /\
    (forall q, st_fs st' !! q = st_fs st !! q \/ st_fs st' !! q = None).
Proof.
  intros Hdir Hread Hok Hd. unfold listed_paths in *.
  destruct (for_each_sweep_unhindered env dir (readdir_listing env dir) st)
    as (st' & E & Hl & Hdel & Hfr & Hsh).
  { intros f Hf. apply Hok. apply in_map_iff. exists f. auto. }
  { exact Hd. }
  exists st'. split; [|split; [exact Hl|split; [|split; [exact Hfr | exact Hsh]]]].
  - assert (Er : readdir env dir st = (Val (readdir_listing env dir), st)).
    { unfold readdir, guarded, bind, get, ret. rewrite Hread.
      unfold is_directory in Hdir.
      destruct (st_fs st !! dir) as [[|]|]; try discriminate. reflexivity. }
    unfold sweep_dir, try_catch, bind. rewrite Er, E. reflexivity.
  - intros p Hp Hst. apply in_map_iff in Hp as (f & <- & Hf). apply Hdel; assumption.
Qed.

(** X9. When nothing stands in the way of the sweep (both storage
    directories can be listed, every listed path is a file that can be
    examined and deleted, and no path is listed twice), every listed file
    older than an hour is gone after the sweep, and no error is logged. *)
Theorem X9_sweep_deletes_every_stale_file env st p :
  sweep_unhindered env st = true ->
  In p (swept_paths env) ->
  stale env st p = true ->
  exists_on_disk p (snd (cleanupOldFiles env st)) = false /\
  st_log (snd (cleanupOldFiles env st)) = st_log st.
Proof.
  intros Hun Hp Hst. unfold sweep_unhindered in Hun.
  apply andb_prop in Hun as [Hun Hdist]. apply andb_prop in Hun as [Hdirs Hfiles].
  assert (Hdir : forall dir, In dir [TEMP_DIR env; OUTPUT_DIR env] ->
                             is_directory dir st = true /\ fault env (OpReaddir dir) = None).
  { intros dir Hin. apply (proj1 (forallb_forall _ _) Hdirs) in Hin.
    apply andb_prop in Hin as [H1 H2]. split; [exact H1|].
    destruct (fault env (OpReaddir dir)); [discriminate | reflexivity]. }
  assert (Hfile : forall q, In q (swept_paths env) ->
                            is_file q st = true /\ fault env (OpStat q) = None /\
                            fault env (OpUnlink q) = None).
  { intros q Hin. apply (proj1 (forallb_forall _ _) Hfiles) in Hin.
    apply andb_prop in Hin as [Hin H3]. apply andb_prop in Hin as [H1 H2].
    split; [exact H1|].
    destruct (fault env (OpStat q)); [discriminate|].
    destruct (fault env (OpUnlink q)); [discriminate|]. auto. }
  unfold swept_paths in *.
  apply distinct_app in Hdist as (Hd1 & Hd2 & Hdisj).
  destruct (Hdir (TEMP_DIR env)) as [Ht1 Ht2]; [left; reflexivity|].
  destruct (Hdir (OUTPUT_DIR env)) as [Ho1 Ho2]; [right; left; reflexivity|].
  destruct (sweep_dir_unhindered env (TEMP_DIR env) st Ht1 Ht2)
    as (st1 & E1 & Hl1 & Hdel1 & Hfr1 & Hsh1).
  { intros q Hq. apply Hfile. apply in_or_app. left. exact Hq. }
  { exact Hd1. }
  assert (Hout : forall q, In q (listed_paths env (OUTPUT_DIR env)) ->
                           st_fs st1 !! q = st_fs st !! q).
  { intros q Hq. apply Hfr1. intros H. exact (Hdisj q H Hq). }
  destruct (sweep_dir_unhindered env (OUTPUT_DIR env) st1)
    as (st2 & E2 & Hl2 & Hdel2 & Hfr2 & Hsh2).
  { unfold is_directory in *. rewrite Hfr1; [exact Ho1|].
    intros H. destruct (Hfile (OUTPUT_DIR env)) as [Hf _]; [apply in_or_app; left; exact H|].
    unfold is_file in Hf. destruct (st_fs st !! OUTPUT_DIR env) as [[|]|]; discriminate. }
  { exact Ho2. }
  { intros q Hq. destruct (Hfile q) as (H1 & H2 & H3); [apply in_or_app; right; exact Hq|].
    split; [|auto]. rewrite <- H1. apply is_file_same. apply Hout. exact Hq. }
  { exact Hd2. }
  rewrite cleanupOldFiles_both, E1. cbn [snd]. rewrite E2. cbn [snd].
  split; [|congruence].
  apply exists_on_disk_false. apply in_app_or in Hp as [Hp|Hp].
  - destruct (Hsh2 p) as [H|H]; [|exact H]. rewrite H. apply Hdel1; assumption.
  - apply Hdel2; [exact Hp|]. rewrite <- Hst. apply stale_same. apply Hout. exact Hp.
Qed.

Lemma X9_sweep_deletes_every_stale_file_witness :
  exists_on_disk Scenario.output_old
    (snd (cleanupOldFiles Scenario.env_sweep_free Scenario.mixed_disk)) = false /\
  st_log (snd (cleanupOldFiles Scenario.env_sweep_free Scenario.mixed_disk))
  = st_log Scenario.mixed_disk.
Proof.
  apply (X9_sweep_deletes_every_stale_file Scenario.env_sweep_free Scenario.mixed_disk
           Scenario.output_old).
  - vm_compute; reflexivity.
  - right. right. left. vm_compute; reflexivity.
  - vm_compute; reflexivity.
Defined.

(** ** The order of the external calls *)

Lemma stages_add_call c st : stages (add_call c st) = stages st ++ [stage_of c].
Proof. reflexivity. Qed.

Lemma stages_fs_blind X : fs_blind (fun st => stages st = X).
Proof. intros st f H. exact H. Qed.

Lemma stages_log_blind X : log_blind (fun st => stages st = X).
Proof. intros st l H. exact H. Qed.

Lemma ensureBrowser_stage env X :
  hoare (fun st => stages st = X) (ensureBrowser env)
        (fun _ st => stages st = X ++ [SBrowser]).
Proof.
  intros st r st' HX E. unfold ensureBrowser, bind, record, modify in E.
  destruct (ensureBrowser_result env); injection E as _ <-;
    rewrite stages_add_call, HX; reflexivity.
Qed.

Lemma bundle_stage env entryPoint modules X :
  hoare (fun st => stages st = X) (bundle env entryPoint modules)
        (fun _ st => stages st = X ++ [SBundle]).
Proof.
  intros st r st' HX E. unfold bundle, bind, record, modify in E.
  destruct (bundle_result env entryPoint); injection E as _ <-;
    rewrite stages_add_call, HX; reflexivity.
Qed.

Lemma selectComposition_stage env serveUrl i X :
  hoare (fun st => stages st = X) (selectComposition env serveUrl i)
        (fun _ st => stages st = X ++ [SSelect]).
Proof.
  intros st r st' HX E. unfold selectComposition, bind, record, modify in E.
  destruct (selectComposition_result env serveUrl i); injection E as _ <-;
    rewrite stages_add_call, HX; reflexivity.
Qed.

Lemma renderMedia_stage env args X :
  hoare (fun st => stages st = X) (renderMedia env args)
        (fun _ st => stages st = X ++ [SRender]).
Proof.
  intros st r st' HX E. unfold renderMedia, bind, record, modify, ret, throw in E.
  destruct (ro_written (renderMedia_result env args));
    destruct (ro_error (renderMedia_result env args)); injection E as _ <-;
    unfold stages in *; simpl; rewrite HX; reflexivity.
Qed.

Lemma readFile_run env p st r st' : readFile env p st = (r, st') -> st' = st.
Proof.
  unfold readFile, guarded, bind, get, throw, ret.
  destruct (fault env (OpRead p)); [intros [= _ <-]; reflexivity|].
  destruct (st_fs st !! p) as [[]|]; intros [= _ <-]; reflexivity.
Qed.

(** The extractor calls the evaluator once when it returns a
    configuration, and makes no call when it throws. *)
Lemma extractCompositionConfig_stage env p st r st' :
  extractCompositionConfig env p st = (r, st') ->
  stages st' = match r with
               | Val _ => stages st ++ [SEval]
               | Exc _ => stages st
               end.
Proof.
  unfold extractCompositionConfig, bind.
  destruct (readFile env p st) as [[content|e] s0] eqn:Er; apply readFile_run in Er as ->.
  - unfold extract_from. destruct (str_match _ _) as [m|].
    + unfold try_catch.
      pose proof (eval_config_calls env (group1 m) (Path.basename p (u ".tsx")) st) as Hc.
      destruct (eval_config env (group1 m) (Path.basename p (u ".tsx")) st) as [[cfg|e] s1];
        simpl in Hc; intros [= <- <-]; unfold stages; rewrite Hc; reflexivity.
    + intros [= <- <-]. reflexivity.
  - intros [= <- <-]. reflexivity.
Qed.

Ltac stage_step X lem :=
  eapply hoare_bind with (R := fun _ st => stages st = X);
  [ lem | intros ? | intros ? ? ->; reflexivity ].

Lemma render_with_config_stages env jobId tsxFilePath outputFileName outputPath config :
  hoare (fun st => stages st = [SEval])
    (render_with_config env jobId tsxFilePath outputFileName outputPath config)
    (fun r st => match r with
                 | Val _ => stages st = pipeline
                 | Exc _ => is_prefix (stages st) pipeline = true
                 end).
Proof.
  unfold render_with_config. cbv zeta.
  stage_step [SEval; SBrowser] ltac:(apply (ensureBrowser_stage env [SEval])).
  stage_step [SEval; SBrowser] ltac:(apply keeps_log_info; apply stages_log_blind).
  stage_step [SEval; SBrowser] ltac:(apply keeps_createTempProject; apply stages_fs_blind).
  stage_step [SEval; SBrowser] ltac:(apply keeps_modify; auto).
  stage_step [SEval; SBrowser] ltac:(apply keeps_log_info; apply stages_log_blind).
  stage_step [SEval; SBrowser; SBundle]
    ltac:(apply (bundle_stage env _ _ [SEval; SBrowser])).
  stage_step [SEval; SBrowser; SBundle] ltac:(apply keeps_log_info; apply stages_log_blind).
  stage_step [SEval; SBrowser; SBundle; SSelect]
    ltac:(apply (selectComposition_stage env _ _ [SEval; SBrowser; SBundle])).
  stage_step [SEval; SBrowser; SBundle; SSelect]
    ltac:(apply keeps_log_info; apply stages_log_blind).
  stage_step pipeline
    ltac:(apply (renderMedia_stage env _ [SEval; SBrowser; SBundle; SSelect])).
  stage_step pipeline ltac:(apply keeps_log_info; apply stages_log_blind).
  stage_step pipeline ltac:(apply keeps_unlink; apply stages_fs_blind).
  stage_step pipeline ltac:(apply keeps_readFile).
  apply hoare_ret. auto.
Qed.

Lemma render_try_stages env jobId tsx tsxFilePath outputFileName outputPath :
  hoare (fun st => stages st = [])
    (render_try env jobId tsx tsxFilePath outputFileName outputPath)
    (fun r st => match r with
                 | Val reply => (code reply = 200 /\ stages st = pipeline) \/
                                (code reply = 400 /\ stages st = [])
                 | Exc _ => is_prefix (stages st) pipeline = true
                 end).
Proof.
  unfold render_try.
  stage_step (@nil stage) ltac:(apply keeps_writeFile; apply stages_fs_blind).
  stage_step (@nil stage) ltac:(apply keeps_log_info; apply stages_log_blind).
  eapply hoare_bind with
    (R := fun r st => match r with
                      | Val (inr _) => stages st = [SEval]
                      | Val (inl reply) => code reply = 400 /\ stages st = []
                      | Exc _ => False
                      end).
  - intros st r st' HX E. unfold try_catch, bind, log_info, modify, ret in E.
    destruct (extractCompositionConfig env tsxFilePath st) as [[cfg|e] s1] eqn:Ex;
      apply extractCompositionConfig_stage in Ex; rewrite HX in Ex;
      injection E as <- <-; [exact Ex | split; [reflexivity | exact Ex]].
  - intros [reply|config].
    + apply hoare_ret. intros st H. right. exact H.
    + intros st r st' HX E.
      pose proof (render_with_config_stages env jobId tsxFilePath outputFileName outputPath
                    config st r st' HX E) as H.
      destruct r as [reply|e]; [|exact H]. left. split; [|exact H].
      apply render_with_config_reply in E as [E _]. exact E.
  - intros e st [].
Qed.



(** ** The export of the configuration *)

Lemma config_export_Match rest s' cs :
  Match re_compositionConfig rest [] s' cs <->
  exists literal, config_export_here rest literal s' /\ cs = [(1%nat, literal)].
Proof.
  unfold re_compositionConfig, config_export_here; cbn [seqs]. split.
  - intros H.
    apply Match_Seq in H as (s1 & c1 & H1 & H). apply Match_Lit in H1 as [-> ->].
    apply Match_Seq in H as (s2 & c2 & H2 & H).
    apply blank_Plus in H2 as (w1 & -> & Hw1 & ->).
    apply Match_Seq in H as (s3 & c3 & H3 & H). apply Match_Lit in H3 as [-> ->].
    apply Match_Seq in H as (s4 & c4 & H4 & H).
    apply blank_Plus in H4 as (w2 & -> & Hw2 & ->).
    apply Match_Seq in H as (s5 & c5 & H5 & H). apply Match_Lit in H5 as [-> ->].
    apply Match_Seq in H as (s6 & c6 & H6 & H).
    apply Match_Star_Cls in H6 as (w3 & -> & Hw3 & ->).
    apply Match_Seq in H as (s7 & c7 & H7 & H).
    apply Match_Cls in H7 as (e & -> & He & ->). apply char_eqb_eq in He. subst e.
    apply Match_Seq in H as (s8 & c8 & H8 & H).
    apply Match_Star_Cls in H8 as (w4 & -> & Hw4 & ->).
    apply Match_Seq in H as (s9 & c9 & H9 & H).
    apply Match_Cls in H as (e & -> & He & ->). apply char_eqb_eq in He. subst e.
    apply Match_Group in H9 as (c10 & H9 & ->).
    apply Match_Seq in H9 as (s10 & c11 & H10 & H9).
    apply Match_Cls in H10 as (e & -> & He & ->). apply char_eqb_eq in He. subst e.
    apply Match_Seq in H9 as (s11 & c12 & H11 & H12).
    apply Match_Star_Cls in H11 as (body & -> & _ & ->).
    apply Match_Cls in H12 as (e & -> & He & ->). apply char_eqb_eq in He. subst e.
    exists (u "{" ++ body ++ u "}"). split.
    + exists w1, w2, w3, w4, body. repeat split; try apply Hw1; try apply Hw2; auto.
      repeat (rewrite <- ?app_assoc; cbn [app]). reflexivity.
    + f_equal. f_equal.
      replace (ch "{" :: body ++ ch "}" :: ch ";" :: s')
        with ((u "{" ++ body ++ u "}") ++ ch ";" :: s').
      * apply consumed_app.
      * change (u "{") with [ch "{"]. change (u "}") with [ch "}"].
        cbn [app]. rewrite <- app_assoc. reflexivity.
  - intros (literal & (w1 & w2 & w3 & w4 & body & -> & Hw1 & Hw2 & Hw3 & Hw4 & ->) & ->).
    apply Match_Seq. eexists _, []. split; [apply Match_Lit; eauto|].
    apply Match_Seq. eexists _, []. split; [apply blank_Plus; eauto|].
    apply Match_Seq. eexists _, []. split; [apply Match_Lit; eauto|].
    apply Match_Seq. eexists _, []. split; [apply blank_Plus; eauto|].
    apply Match_Seq. eexists _, []. split; [apply Match_Lit; eauto|].
    apply Match_Seq. eexists _, []. split; [apply Match_Star_Cls; eauto|].
    apply Match_Seq. exists (w4 ++ (u "{" ++ body ++ u "}") ++ u ";" ++ s'), [].
    split; [apply Match_Cls; exists (ch "="); repeat split; apply char_eqb_eq; reflexivity|].
    apply Match_Seq. eexists _, []. split; [apply Match_Star_Cls; eauto|].
    apply Match_Seq. exists (u ";" ++ s'), [(1%nat, u "{" ++ body ++ u "}")]. split.
    + apply Match_Group. exists []. split; [|rewrite consumed_app; reflexivity].
      apply Match_Seq. exists ((body ++ u "}") ++ u ";" ++ s'), []. split.
      { apply Match_Cls. exists (ch "{"). repeat split. }
      apply Match_Seq. exists (u "}" ++ u ";" ++ s'), []. split.
      { apply Match_Star_Cls. exists body. rewrite <- app_assoc. repeat split.
        apply forallb_forall. reflexivity. }
      apply Match_Cls. exists (ch "}"). repeat split.
    + apply Match_Cls. exists (ch ";"). repeat split.
Qed.

Lemma str_match_config_export content :
  is_Some (str_match re_compositionConfig content) <-> config_export_occurs content.
Proof.
  pose proof (test_true re_compositionConfig content) as H. unfold test in H.
  unfold config_export_occurs, occurs in *. split.
  - intros [m Hm]. rewrite Hm in H.
    destruct (proj1 H eq_refl) as (pre & rest & s' & cs & -> & HM).
    apply config_export_Match in HM as (literal & Hl & _).
    exists pre, rest, literal, s'. auto.
  - intros (pre & rest & literal & post & -> & Hl).
    destruct (str_match re_compositionConfig (pre ++ rest)); [eauto|].
    assert (false = true); [|discriminate]. apply H.
    exists pre, rest, post, [(1%nat, literal)]. split; [reflexivity|].
    apply config_export_Match. eauto.
Qed.



(** A lazy repetition of a class stops at the first position where what
    follows matches. *)
Lemma star_loop_lazy_first {A} p (k : str -> captures -> option A) fuel :
  forall s cs a,
    star_loop (rmatch (Cls p)) false k fuel s cs = Some a ->
    exists w s', s = w ++ s' /\ forallb p w = true /\ k s' cs = Some a /\
                 forall i, (i < length w)%nat -> k (drop i s) cs = None.
Proof.
  induction fuel as [|fuel IH]; intros s cs a H; cbn [star_loop] in H.
  - destruct (k s cs) as [a'|] eqn:Ek; [|discriminate]. injection H as ->.
    exists [], s. repeat split; auto. simpl. intros i Hi. lia.
  - destruct (k s cs) as [a'|] eqn:Ek.
    + injection H as ->. exists [], s. repeat split; auto. simpl. intros i Hi. lia.
    + cbn [rmatch] in H. destruct s as [|c s]; [discriminate|].
      destruct (p c) eqn:Hc; [|discriminate].
      destruct (length s <? length (c :: s))%nat; [|discriminate].
      apply IH in H as (w & s' & -> & Hw & Hk & Hnone).
      exists (c :: w), s'. repeat split; auto.
      * simpl. rewrite Hc, Hw. reflexivity.
      * intros [|i] Hi; [exact Ek|]. simpl in Hi. apply Hnone. lia.
Qed.

Lemma includes_closing body post :
  (forall i, (i < length body)%nat ->
             starts_with (u "};") (drop i (body ++ u "};" ++ post)) = false) ->
  includes (u "};") (body ++ u "}") = false.
Proof.
  induction body as [|c body IH]; intros H; [reflexivity|].
  change ((c :: body) ++ u "}") with (c :: (body ++ u "}")). cbn [includes].
  rewrite IH.
  - rewrite orb_false_r. specialize (H 0%nat ltac:(simpl; lia)).
    change (drop 0 ((c :: body) ++ u "};" ++ post)) with (c :: (body ++ u "};" ++ post)) in H.
    destruct body as [|d body]; [|exact H].
    simpl. apply andb_false_intro2. reflexivity.
  - intros i Hi. apply (H (S i)). simpl. lia.
Qed.

(** The literal in braces, as the matcher takes it: it ends at the first
    closing brace that a semicolon follows. *)
Lemma rmatch_literal {A} s cs (k : str -> captures -> option A) a :
  (forall s' cs', is_Some (k s' cs')) ->
  rmatch (Seq (Group 1 (seqs [Chr (ch "{"); Star false Any; Chr (ch "}")])) (Chr (ch ";")))
         s cs k = Some a ->
  exists body post,
    s = u "{" ++ body ++ u "};" ++ post /\
    k post ((1%nat, u "{" ++ body ++ u "}") :: cs) = Some a /\
    includes (u "};") (body ++ u "}") = false.
Proof.
  intros Htotal. cbn [seqs]. unfold Chr, Any. cbn [rmatch].
  destruct s as [|c s]; [discriminate|].
  destruct (char_eqb (ch "{") c) eqn:Hc; [|discriminate].
  apply char_eqb_eq in Hc. subst c. intros H.
  apply (star_loop_lazy_first (fun _ => true)) in H as (body & s' & -> & _ & Hk & Hnone).
  destruct s' as [|c1 s']; [discriminate|].
  destruct (char_eqb (ch "}") c1) eqn:Hc1; [|discriminate].
  apply char_eqb_eq in Hc1. subst c1.
  destruct s' as [|c2 post]; [discriminate|].
  destruct (char_eqb (ch ";") c2) eqn:Hc2; [|discriminate].
  apply char_eqb_eq in Hc2. subst c2.
  exists body, post. split; [reflexivity|]. split.
  - rewrite <- Hk. f_equal. f_equal. f_equal.
    replace (ch "{" :: body ++ ch "}" :: ch ";" :: post)
      with ((u "{" ++ body ++ u "}") ++ ch ";" :: post).
    + symmetry. apply consumed_app.
    + change (u "{") with [ch "{"]. change (u "}") with [ch "}"].
      cbn [app]. rewrite <- app_assoc. reflexivity.
  - apply (includes_closing body post). intros i Hi. specialize (Hnone i Hi).
    change (u "};" ++ post) with (ch "}" :: ch ";" :: post).
    destruct (drop i (body ++ ch "}" :: ch ";" :: post)) as [|x [|y r]].
    + reflexivity.
    + change (starts_with (u "};") [x]) with (char_eqb (ch "}") x && false).
      apply andb_false_r.
    + change (starts_with (u "};") (x :: y :: r))
        with (char_eqb (ch "}") x && (char_eqb (ch ";") y && true)).
      cbv beta iota in Hnone.
      destruct (char_eqb (ch "}") x); [|reflexivity].
      destruct (char_eqb (ch ";") y); [|reflexivity].
      match type of Hnone with ?t = None => destruct (Htotal r ((1%nat, consumed (ch "{" :: body ++ ch "}" :: ch ";" :: post) (y :: r)) :: cs)) as [v Hv] end.
      congruence.
Qed.

(** X12. The literal that extractCompositionConfig takes from the text
    is the one of the leftmost export of the configuration, and it ends at
    the first closing brace that a semicolon follows: the captured text is
    an opening brace, a body and a closing brace, the brace-semicolon pair
    occurs nowhere in it before its end, a semicolon follows it in the
    text, and no export of the configuration begins further left. A literal
    that holds that pair inside (after a nested object, say) is cut
    there. *)
Theorem X12_literal_ends_at_first_closing content m :
  str_match re_compositionConfig content = Some m ->
  exists body head,
    group1 m = u "{" ++ body ++ u "}" /\
    includes (u "};") (body ++ u "}") = false /\
    content = m_pre m ++ head ++ group1 m ++ u ";" ++ m_post m /\
    forall i literal post,
      (i < length (m_pre m))%nat -> ~ config_export_here (drop i content) literal post.
Proof.
  intros H. apply str_match_Some in H as (Hs & _ & Hhere & Hleft).
  assert (Hlit : exists body head,
             group1 m = u "{" ++ body ++ u "}" /\
             includes (u "};") (body ++ u "}") = false /\
             m_text m ++ m_post m = head ++ group1 m ++ u ";" ++ m_post m).
  { unfold match_here, re_compositionConfig in Hhere; cbn [seqs] in Hhere.
    apply rmatch_Seq_sound in Hhere as (s1 & c1 & M1 & Hhere).
    apply rmatch_Seq_sound in Hhere as (s2 & c2 & M2 & Hhere).
    apply rmatch_Seq_sound in Hhere as (s3 & c3 & M3 & Hhere).
    apply rmatch_Seq_sound in Hhere as (s4 & c4 & M4 & Hhere).
    apply rmatch_Seq_sound in Hhere as (s5 & c5 & M5 & Hhere).
    apply rmatch_Seq_sound in Hhere as (s6 & c6 & M6 & Hhere).
    apply rmatch_Seq_sound in Hhere as (s7 & c7 & M7 & Hhere).
    apply rmatch_Seq_sound in Hhere as (s8 & c8 & M8 & Hhere).
    apply Match_suffix in M1 as [h1 E1]. apply Match_suffix in M2 as [h2 E2].
    apply Match_suffix in M3 as [h3 E3]. apply Match_suffix in M4 as [h4 E4].
    apply Match_suffix in M5 as [h5 E5]. apply Match_suffix in M6 as [h6 E6].
    apply Match_suffix in M7 as [h7 E7]. apply Match_suffix in M8 as [h8 E8].
    apply rmatch_literal in Hhere as (body & post & E9 & Hk & Hinc); [|eauto].
    injection Hk as Hpost Hcaps.
    assert (Hg : group1 m = u "{" ++ body ++ u "}").
    { unfold group1, group. rewrite <- Hcaps. reflexivity. }
    exists body, (h1 ++ h2 ++ h3 ++ h4 ++ h5 ++ h6 ++ h7 ++ h8).
    split; [exact Hg|]. split; [exact Hinc|].
    rewrite E1, E2, E3, E4, E5, E6, E7, E8, E9, Hg, Hpost.
    repeat rewrite <- app_assoc. reflexivity. }
  destruct Hlit as (body & head & Hg & Hinc & Htext).
  exists body, head. split; [exact Hg|]. split; [exact Hinc|]. split.
  - rewrite Hs at 1. rewrite Htext. reflexivity.
  - intros i literal post Hi Hhere'.
    specialize (Hleft i Hi). rewrite match_here_None in Hleft.
    apply (Hleft post [(1%nat, literal)]). apply config_export_Match. eauto.
Qed.

Lemma X12_literal_ends_at_first_closing_witness :
  exists body head,
    group1 Scenario.nested_match = u "{" ++ body ++ u "}" /\
    includes (u "};") (body ++ u "}") = false /\
    Scenario.nested_tsx
    = m_pre Scenario.nested_match ++ head ++ group1 Scenario.nested_match ++ u ";"
      ++ m_post Scenario.nested_match /\
    forall i literal post,
      (i < length (m_pre Scenario.nested_match))%nat ->
      ~ config_export_here (drop i Scenario.nested_tsx) literal post.
Proof.
  apply (X12_literal_ends_at_first_closing Scenario.nested_tsx Scenario.nested_match).
  vm_compute; reflexivity.
Defined.

(** ** Names of project directories *)

Lemma plain_name_parts n :
  plain_name n = true ->
  str_eqb n [] = false /\ str_eqb n (u ".") = false /\ str_eqb n (u "..") = false /\
  forallb (fun c => negb (char_eqb c Path.slash)) n = true.
Proof.
  unfold plain_name. intros H. apply andb_true_iff in H as [H H3].
  apply andb_true_iff in H as [H H2]. apply andb_true_iff in H as [H0 H1].
  apply negb_true_iff in H0, H1, H2. auto.
Qed.

(** The segments kept before a file name do not depend on the name. *)
Lemma normalize_segments_before_name allow segs acc :
  exists acc', forall n, plain_name n = true ->
    Path.normalize_segments allow (segs ++ [n]) acc = rev (n :: acc').
Proof.
  revert acc; induction segs as [|seg segs IH]; intros acc.
  - exists acc. intros n Hn. apply plain_name_parts in Hn as (H0 & H1 & H2 & _).
    simpl. rewrite H0, H1, H2. reflexivity.
  - simpl. destruct (_ || _); [apply IH|].
    destruct (str_eqb seg (u "..")); [|apply IH].
    destruct acc as [|top acc]; [apply IH|].
    destruct (str_eqb top (u "..")); apply IH.
Qed.

Lemma join_slash_before_name l :
  exists pre, forall n, Path.join_slash (l ++ [n]) = pre ++ n.
Proof.
  induction l as [|x l [pre IH]].
  - exists []. reflexivity.
  - exists (x ++ Path.slash :: pre). intros n. simpl.
    destruct (l ++ [n]) eqn:E; [destruct l; discriminate|].
    rewrite <- E, IH, <- app_assoc. reflexivity.
Qed.

Lemma plain_name_not_absolute n : plain_name n = true -> Path.is_absolute n = false.
Proof.
  intros Hn. apply plain_name_parts in Hn as (H0 & _ & _ & Hall).
  destruct n as [|c n]; [discriminate|]. simpl in Hall.
  apply andb_true_iff in Hall as [Hc _]. apply negb_true_iff in Hc.
  unfold Path.is_absolute. cbn [starts_with]. unfold char_eqb in *.
  rewrite N.eqb_sym, Hc. reflexivity.
Qed.

(** What the normalization puts before a file name does not depend on
    the name. *)
Lemma normalize_before_name x :
  (x = [] \/ exists y, x = y ++ [Path.slash]) ->
  exists pre, forall n, plain_name n = true -> Path.normalize (x ++ n) = pre ++ n.
Proof.
  intros Hx.
  assert (Hsplit : exists segs, forall n, plain_name n = true ->
                                         Path.split_slash (x ++ n) [] = segs ++ [n]).
  { destruct Hx as [->|[y ->]].
    - exists []. intros n Hn. apply plain_name_parts in Hn as (_ & _ & _ & Hall).
      simpl. apply split_slash_plain; exact Hall.
    - exists (Path.split_slash y []). intros n Hn.
      apply plain_name_parts in Hn as (_ & _ & _ & Hall).
      rewrite <- app_assoc. simpl. rewrite split_slash_app.
      rewrite (split_slash_plain n [] Hall). reflexivity. }
  destruct Hsplit as [segs Hsplit].
  assert (Habs : exists abs, forall n, plain_name n = true ->
                                       Path.is_absolute (x ++ n) = abs).
  { destruct x as [|c x].
    - exists false. intros n Hn. apply plain_name_not_absolute. exact Hn.
    - exists (Path.is_absolute (c :: x)). intros n _. reflexivity. }
  destruct Habs as [abs Habs].
  destruct (normalize_segments_before_name (negb abs) segs []) as [acc' Hacc].
  destruct (join_slash_before_name (rev acc')) as [pre Hpre].
  exists (if abs then Path.slash :: pre else pre). intros n Hn.
  destruct (plain_name_last n Hn) as (npre & c & En & Hc).
  assert (Htrail : ends_with [Path.slash] (x ++ n) = false).
  { unfold ends_with. rewrite En, app_assoc, rev_app_distr.
    cbn [rev app starts_with]. unfold char_eqb in *. rewrite N.eqb_sym, Hc. reflexivity. }
  specialize (Hsplit n Hn). specialize (Habs n Hn). specialize (Hacc n Hn).
  unfold Path.normalize. destruct (x ++ n) as [|c0 p] eqn:Ep.
  { rewrite En in Ep. destruct x; [destruct npre|]; discriminate. }
  rewrite Hsplit, Htrail, Habs, Hacc. simpl rev. rewrite Hpre.
  destruct (pre ++ n) eqn:E;
    [apply app_eq_nil in E as [_ E]; rewrite En in E; destruct npre; discriminate|].
  rewrite <- E. destruct abs; reflexivity.
Qed.

Lemma join_before_name a :
  exists pre, forall n, plain_name n = true -> Path.join [a; n] = pre ++ n.
Proof.
  destruct (str_eqb a []) eqn:Ea.
  - destruct (normalize_before_name [] (or_introl eq_refl)) as [pre Hpre].
    exists pre. intros n Hn. unfold Path.join. simpl. rewrite Ea.
    destruct (plain_name_parts n Hn) as (H0 & _). rewrite H0. simpl. apply Hpre. exact Hn.
  - destruct a as [|c a]; [discriminate|].
    destruct (normalize_before_name ((c :: a) ++ [Path.slash])) as [pre Hpre]; [eauto|].
    exists pre. intros n Hn. unfold Path.join. simpl.
    destruct (plain_name_parts n Hn) as (H0 & _). rewrite H0. simpl.
    specialize (Hpre n Hn). rewrite <- app_assoc in Hpre. exact Hpre.
Qed.

(** In one directory, different file names give different paths. *)
Lemma join_name_injective a n m :
  plain_name n = true -> plain_name m = true ->
  Path.join [a; n] = Path.join [a; m] -> n = m.
Proof.
  intros Hn Hm. destruct (join_before_name a) as [pre Hpre].
  rewrite (Hpre n Hn), (Hpre m Hm). apply app_inv_head.
Qed.

(** *** Decimal digits *)

Lemma digit_value_of_digit k :
  0 <= k < 10 -> digit_value (Z.to_N (48 + k)) = k.
Proof.
  intros Hk. unfold digit_value, is_digit, in_range.
  assert (H1 : (48 <=? Z.to_N (48 + k))%N = true) by (apply N.leb_le; lia).
  assert (H2 : (Z.to_N (48 + k) <=? 57)%N = true) by (apply N.leb_le; lia).
  rewrite H1, H2. simpl. lia.
Qed.

Lemma digits_fuel_value fuel :
  forall n acc, 0 <= n < 2 ^ Z.of_nat fuel ->
    fold_left (fun a c => a * 10 + digit_value c) (digits_fuel fuel n acc) 0
    = fold_left (fun a c => a * 10 + digit_value c) acc n.
Proof.
  induction fuel as [|fuel IH]; intros n acc Hn.
  - simpl in *. assert (n = 0) by lia. subst n. reflexivity.
  - cbn [digits_fuel]. cbv zeta.
    assert (Hmod : 0 <= n mod 10 < 10) by (apply Z.mod_pos_bound; lia).
    destruct (n <? 10) eqn:Hlt.
    + apply Z.ltb_lt in Hlt. cbn [fold_left].
      rewrite digit_value_of_digit by exact Hmod.
      rewrite Z.mod_small by lia. reflexivity.
    + apply Z.ltb_ge in Hlt. rewrite IH.
      * cbn [fold_left]. rewrite digit_value_of_digit by exact Hmod.
        f_equal. pose proof (Z.div_mod n 10). lia.
      * split; [apply Z.div_pos; lia|].
        apply Z.div_lt_upper_bound; [lia|].
        rewrite Nat2Z.inj_succ, Z.pow_succ_r in Hn by lia. lia.
Qed.

Lemma digits_fuel_chars fuel :
  forall n acc, 0 <= n ->
    forallb is_digit acc = true -> forallb is_digit (digits_fuel fuel n acc) = true.
Proof.
  induction fuel as [|fuel IH]; intros n acc Hn Hacc; [exact Hacc|].
  cbn [digits_fuel]. cbv zeta.
  assert (Hmod : 0 <= n mod 10 < 10) by (apply Z.mod_pos_bound; lia).
  assert (Hd : is_digit (Z.to_N (48 + n mod 10)) = true).
  { unfold is_digit, in_range. apply andb_true_iff. split; apply N.leb_le; lia. }
  destruct (n <? 10).
  - cbn [forallb]. rewrite Hd, Hacc. reflexivity.
  - apply IH; [apply Z.div_pos; lia|]. cbn [forallb]. rewrite Hd, Hacc. reflexivity.
Qed.

Lemma digits_fuel_nonempty fuel n acc : digits_fuel (S fuel) n acc <> [].
Proof.
  revert n acc. induction fuel as [|fuel IH]; intros n acc.
  - cbn [digits_fuel]. cbv zeta. destruct (n <? 10); discriminate.
  - change (digits_fuel (S (S fuel)) n acc)
      with (let acc' := Z.to_N (48 + n mod 10) :: acc in
            if n <? 10 then acc' else digits_fuel (S fuel) (n / 10) acc').
    cbv zeta. destruct (n <? 10); [discriminate | apply IH].
Qed.

Lemma decimal_value n :
  0 <= n -> digits_value 10 (digits_fuel (S (Z.to_nat (Z.log2 n))) n []) = n.
Proof.
  intros Hn. unfold digits_value. rewrite digits_fuel_value; [reflexivity|].
  split; [exact Hn|]. rewrite Nat2Z.inj_succ, Z2Nat.id by apply Z.log2_nonneg.
  destruct (Z.eq_dec n 0) as [->|Hne]; [reflexivity|].
  apply Z.log2_spec. lia.
Qed.

(** The decimal notation of an integer determines it. *)
Lemma Z_to_decimal_injective z1 z2 : Z_to_decimal z1 = Z_to_decimal z2 -> z1 = z2.
Proof.
  unfold Z_to_decimal. cbv zeta.
  pose proof (decimal_value (Z.abs z1) (Z.abs_nonneg z1)) as V1.
  pose proof (decimal_value (Z.abs z2) (Z.abs_nonneg z2)) as V2.
  pose proof (digits_fuel_chars (S (Z.to_nat (Z.log2 (Z.abs z1)))) (Z.abs z1) []
                (Z.abs_nonneg z1) eq_refl) as D1.
  pose proof (digits_fuel_chars (S (Z.to_nat (Z.log2 (Z.abs z2)))) (Z.abs z2) []
                (Z.abs_nonneg z2) eq_refl) as D2.
  set (ds1 := digits_fuel (S (Z.to_nat (Z.log2 (Z.abs z1)))) (Z.abs z1) []) in *.
  set (ds2 := digits_fuel (S (Z.to_nat (Z.log2 (Z.abs z2)))) (Z.abs z2) []) in *.
  clearbody ds1 ds2.
  destruct (z1 <? 0) eqn:S1; destruct (z2 <? 0) eqn:S2; intros H.
  - injection H as H. rewrite H in V1. apply Z.ltb_lt in S1, S2. lia.
  - rewrite <- H in D2. discriminate D2.
  - rewrite H in D1. discriminate D1.
  - rewrite H in V1. apply Z.ltb_ge in S1, S2. lia.
Qed.

Lemma Z_to_decimal_no_slash z :
  forallb (fun c => negb (char_eqb c Path.slash)) (Z_to_decimal z) = true.
Proof.
  assert (Hd : forall l, forallb is_digit l = true ->
                         forallb (fun c => negb (char_eqb c Path.slash)) l = true).
  { induction l as [|c l IH]; [reflexivity|]. cbn [forallb]. intros H.
    apply andb_true_iff in H as [Hc Hl]. rewrite (IH Hl), andb_true_r.
    apply negb_true_iff. apply N.eqb_neq. intros ->. discriminate Hc. }
  unfold Z_to_decimal. cbv zeta.
  pose proof (digits_fuel_chars (S (Z.to_nat (Z.log2 (Z.abs z)))) (Z.abs z) []
                (Z.abs_nonneg z) eq_refl) as D.
  destruct (z <? 0); [|apply Hd; exact D].
  cbn [forallb]. rewrite (Hd _ D). reflexivity.
Qed.

Lemma project_name_plain z :
  plain_name (cat [u "remotion-render-"; Z_to_decimal z]) = true.
Proof.
  unfold plain_name, cat. cbn [concat]. rewrite app_nil_r.
  rewrite forallb_app, Z_to_decimal_no_slash. reflexivity.
Qed.

(** X13. Project directories are told apart by the clock alone: two
    projects created under the same temp root at different milliseconds
    get different directories. *)
Theorem X13_clock_tells_projects_apart env1 env2 p1 p2 config1 config2 st1 st2 d1 d2 st1' st2' :
  tmpdir env1 = tmpdir env2 ->
  Date_now env1 <> Date_now env2 ->
  createTempProject env1 p1 config1 st1 = (Val d1, st1') ->
  createTempProject env2 p2 config2 st2 = (Val d2, st2') ->
  d1 <> d2.
Proof.
  intros Htmp Hclock E1 E2.
  apply createTempProject_returns in E1, E2. subst d1 d2.
  unfold tempDir_name. rewrite Htmp. intros H.
  apply join_name_injective in H; try apply project_name_plain.
  unfold cat in H. cbn [concat] in H. apply app_inv_head in H.
  rewrite !app_nil_r in H. apply Z_to_decimal_injective in H. contradiction.
Qed.

Lemma X13_clock_tells_projects_apart_witness :
  Scenario.project_A <> u "/tmp/remotion-render-1700000000001".
Proof.
  apply (X13_clock_tells_projects_apart Scenario.env_A Scenario.env_later
           Scenario.tsx_A Scenario.tsx_B Scenario.demo_config Scenario.demo_config
           Scenario.both_submitted Scenario.both_submitted
           Scenario.project_A (u "/tmp/remotion-render-1700000000001")
           (snd (createTempProject Scenario.env_A Scenario.tsx_A Scenario.demo_config
                   Scenario.both_submitted))
           (snd (createTempProject Scenario.env_later Scenario.tsx_B Scenario.demo_config
                   Scenario.both_submitted))).
  - reflexivity.
  - discriminate.
  - apply run_returns. vm_compute; reflexivity.
  - apply run_returns. vm_compute; reflexivity.
Defined.

(** ** The files of a project *)

Lemma mkdir_run env p st r st' :
  mkdir env p st = (r, st') ->
  (forall q, q <> p -> st_fs st' !! q = st_fs st !! q) /\
  (forall q n, st_fs st !! q = Some n -> st_fs st' !! q = Some n) /\
  st_calls st' = st_calls st /\ st_log st' = st_log st /\
  (r = Val tt -> is_directory p st' = true).
Proof.
  unfold mkdir, guarded, bind, get, throw, ret, modify, is_directory.
  destruct (fault env (OpMkdir p)); [intros [= <- <-]; repeat split; auto; discriminate|].
  destruct (st_fs st !! p) as [[data t|t]|] eqn:Hp; intros [= <- <-]; simpl.
  - repeat split; auto; discriminate.
  - rewrite Hp. repeat split; auto.
  - repeat split; auto.
    + intros q Hq. apply lookup_insert_ne. congruence.
    + intros q n Hq. rewrite lookup_insert_ne by congruence. exact Hq.
    + rewrite lookup_insert_eq. reflexivity.
Qed.

Lemma writeFile_keeps_directories env p data st st' q :
  writeFile env p data st = (Val tt, st') ->
  is_directory q st = true -> is_directory q st' = true.
Proof.
  unfold writeFile, guarded, bind, get, throw, modify, is_directory.
  destruct (fault env (OpWrite p)); [discriminate|].
  destruct (st_fs st !! p) as [[data' t|t]|] eqn:Hp; try discriminate;
    intros [= <-]; simpl; intros Hq;
    (rewrite lookup_insert_ne; [exact Hq|]); intros <-; rewrite Hp in Hq; discriminate.
Qed.

Lemma readFile_content env p st content st' :
  readFile env p st = (Val content, st') -> content_on_disk p st = Some content.
Proof.
  unfold readFile, guarded, bind, get, throw, ret, content_on_disk.
  destruct (fault env (OpRead p)); [discriminate|].
  destruct (st_fs st !! p) as [[c t|t]|]; try discriminate.
  intros [= <- _]. reflexivity.
Qed.

Lemma detectExportStyle_run env p st r st' :
  detectExportStyle env p st = (r, st') ->
  st' = st /\
  forall style, r = Val style ->
    exists content, content_on_disk p st = Some content /\
                    style = detect_from content (Path.basename p (u ".tsx")).
Proof.
  unfold detectExportStyle, bind.
  destruct (readFile env p st) as [[content|e] s1] eqn:Er;
    pose proof (readFile_run _ _ _ _ _ Er) as ->; intros [= <- <-]; split; auto.
  - intros style [= <-]. exists content. split; [|reflexivity].
    eapply readFile_content. exact Er.
  - discriminate.
Qed.

(** Suffixes of equal length of equal texts are equal. *)
Lemma join_suffix_differ a b n m n1 n2 m1 m2 :
  plain_name n = true -> plain_name m = true ->
  n = n1 ++ n2 -> m = m1 ++ m2 -> length n2 = length m2 -> n2 <> m2 ->
  Path.join [a; n] <> Path.join [b; m].
Proof.
  intros Hn Hm En Em Hlen Hne.
  destruct (join_plain a n Hn) as [p1 ->]. destruct (join_plain b m Hm) as [p2 ->].
  rewrite En, Em, !app_assoc. intros H. apply app_inj_2 in H as [_ H]; [congruence|exact Hlen].
Qed.

Lemma project_files_differ env :
  project_index env <> project_root env /\
  project_index env <> project_tsconfig env /\
  project_index env <> project_config env /\
  project_root env <> project_tsconfig env /\
  project_root env <> project_config env /\
  project_tsconfig env <> project_config env.
Proof.
  unfold project_index, project_root, project_tsconfig, project_config.
  repeat split.
  - apply (join_suffix_differ _ _ _ _ (u "index.t") (u "s") (u "Root.ts") (u "x"));
      (vm_compute; reflexivity) || discriminate.
  - apply (join_suffix_differ _ _ _ _ (u "index.t") (u "s") (u "tsconfig.jso") (u "n"));
      (vm_compute; reflexivity) || discriminate.
  - apply (join_suffix_differ _ _ _ _ (u "inde") (u "x.ts") (u "remotion.confi") (u "g.ts"));
      (vm_compute; reflexivity) || discriminate.
  - apply (join_suffix_differ _ _ _ _ (u "Root.ts") (u "x") (u "tsconfig.jso") (u "n"));
      (vm_compute; reflexivity) || discriminate.
  - apply (join_suffix_differ _ _ _ _ (u "Root.ts") (u "x") (u "remotion.config.t") (u "s"));
      (vm_compute; reflexivity) || discriminate.
  - apply (join_suffix_differ _ _ _ _ (u "tsconfig.jso") (u "n") (u "remotion.config.t") (u "s"));
      (vm_compute; reflexivity) || discriminate.
Qed.

Lemma createTempProject_layout env tsxFilePath config st d st' :
  createTempProject env tsxFilePath config st = (Val d, st') ->
  d = tempDir_name env /\
  is_directory (tempDir_name env) st' = true /\
  is_directory (project_src env) st' = true /\
  content_on_disk (project_index env) st' = Some indexTs /\
  (exists content,
     content_on_disk tsxFilePath st = Some content /\
     content_on_disk (project_root env) st'
     = Some (rootTsx env config
               (importStatement (detect_from content (Path.basename tsxFilePath (u ".tsx")))
                                (forward_slashes tsxFilePath)))) /\
  content_on_disk (project_tsconfig env) st' = Some tsconfig_json /\
  content_on_disk (project_config env) st' = Some remotionConfig.
Proof.
  intros H. pose proof (createTempProject_returns _ _ _ _ _ _ H) as ->.
  split; [reflexivity|].
  unfold createTempProject in H. cbv zeta in H. unfold bind in H.
  fold (project_src env) in H.
  fold (project_index env) (project_root env) (project_tsconfig env) (project_config env) in H.
  destruct (mkdir env (tempDir_name env) st) as [[[]|e1] s1] eqn:E1; [|discriminate].
  destruct (mkdir env (project_src env) s1) as [[[]|e2] s2] eqn:E2; [|discriminate].
  destruct (detectExportStyle env tsxFilePath s2) as [[style|e3] s3] eqn:E3; [|discriminate].
  destruct (writeFile env (project_index env) indexTs s3) as [[[]|e4] s4] eqn:E4;
    [|discriminate].
  destruct (writeFile env (project_root env) _ s4) as [[[]|e5] s5] eqn:E5; [|discriminate].
  destruct (writeFile env (project_tsconfig env) tsconfig_json s5) as [[[]|e6] s6] eqn:E6;
    [|discriminate].
  destruct (writeFile env (project_config env) remotionConfig s6) as [[[]|e7] s7] eqn:E7;
    [|discriminate].
  injection H as <-.
  apply mkdir_run in E1 as (F1 & K1 & _ & _ & D1). specialize (D1 eq_refl).
  apply mkdir_run in E2 as (F2 & K2 & _ & _ & D2). specialize (D2 eq_refl).
  apply detectExportStyle_run in E3 as [-> Hstyle].
  destruct (Hstyle style eq_refl) as (content & Hcontent & ->).
  assert (Hd1 : is_directory (tempDir_name env) s2 = true).
  { unfold is_directory in *. destruct (st_fs s1 !! tempDir_name env) as [[|t]|] eqn:E;
      try discriminate. rewrite (K2 _ _ E). reflexivity. }
  assert (Hsrc : content_on_disk tsxFilePath st = Some content).
  { unfold content_on_disk, is_directory in *.
    destruct (st_fs s2 !! tsxFilePath) as [[c t|t]|] eqn:E; try discriminate.
    assert (N2 : tsxFilePath <> project_src env)
      by (intros ->; rewrite E in D2; discriminate).
    assert (N1 : tsxFilePath <> tempDir_name env)
      by (intros ->; rewrite E in Hd1; discriminate).
    rewrite F2, F1 in E by assumption.
    rewrite E. exact Hcontent. }
  pose proof (writeFile_keeps_directories _ _ _ _ _ _ E4 Hd1) as Ha4.
  pose proof (writeFile_keeps_directories _ _ _ _ _ _ E5 Ha4) as Ha5.
  pose proof (writeFile_keeps_directories _ _ _ _ _ _ E6 Ha5) as Ha6.
  pose proof (writeFile_keeps_directories _ _ _ _ _ _ E7 Ha6) as Ha7.
  pose proof (writeFile_keeps_directories _ _ _ _ _ _ E4 D2) as Hb4.
  pose proof (writeFile_keeps_directories _ _ _ _ _ _ E5 Hb4) as Hb5.
  pose proof (writeFile_keeps_directories _ _ _ _ _ _ E6 Hb5) as Hb6.
  pose proof (writeFile_keeps_directories _ _ _ _ _ _ E7 Hb6) as Hb7.
  split; [exact Ha7|]. split; [exact Hb7|].
  apply writeFile_run in E4 as [(e & [=] & _)|[_ ->]].
  apply writeFile_run in E5 as [(e & [=] & _)|[_ ->]].
  apply writeFile_run in E6 as [(e & [=] & _)|[_ ->]].
  apply writeFile_run in E7 as [(e & [=] & _)|[_ ->]].
  destruct (project_files_differ env) as (N1 & N2 & N3 & N4 & N5 & N6).
  unfold content_on_disk. cbn [st_fs set_fs].
  split; [|split; [|split]].
  - rewrite !lookup_insert_ne by congruence. rewrite lookup_insert_eq. reflexivity.
  - exists content. split; [exact Hsrc|].
    rewrite !lookup_insert_ne by congruence. rewrite lookup_insert_eq. reflexivity.
  - rewrite !lookup_insert_ne by congruence. rewrite lookup_insert_eq. reflexivity.
  - rewrite lookup_insert_eq. reflexivity.
Qed.


(** X14. A project that createTempProject returns is complete: the
    directory named after the clock and its src directory exist, and the
    four files hold what was generated for them, the root file importing
    the component in the style detected in the text of the source file. *)
Theorem X14_created_project_is_complete env tsxFilePath config st d st' :
  createTempProject env tsxFilePath config st = (Val d, st') ->
  d = tempDir_name env /\
  is_directory (tempDir_name env) st' = true /\
  is_directory (project_src env) st' = true /\
  content_on_disk (project_index env) st' = Some indexTs /\
  (exists content,
     content_on_disk tsxFilePath st = Some content /\
     content_on_disk (project_root env) st'
     = Some (rootTsx env config
               (importStatement (detect_from content (Path.basename tsxFilePath (u ".tsx")))
                                (forward_slashes tsxFilePath)))) /\
  content_on_disk (project_tsconfig env) st' = Some tsconfig_json /\
  content_on_disk (project_config env) st' = Some remotionConfig.
Proof. apply createTempProject_layout. Qed.

Lemma X14_created_project_is_complete_witness :
  Scenario.project_A = tempDir_name Scenario.env_A /\
  is_directory (tempDir_name Scenario.env_A)
    (snd (createTempProject Scenario.env_A Scenario.tsx_A Scenario.demo_config
            Scenario.both_submitted)) = true /\
  is_directory (project_src Scenario.env_A)
    (snd (createTempProject Scenario.env_A Scenario.tsx_A Scenario.demo_config
            Scenario.both_submitted)) = true /\
  content_on_disk (project_index Scenario.env_A)
    (snd (createTempProject Scenario.env_A Scenario.tsx_A Scenario.demo_config
            Scenario.both_submitted)) = Some indexTs /\
  (exists content,
     content_on_disk Scenario.tsx_A Scenario.both_submitted = Some content /\
     content_on_disk (project_root Scenario.env_A)
       (snd (createTempProject Scenario.env_A Scenario.tsx_A Scenario.demo_config
               Scenario.both_submitted))
     = Some (rootTsx Scenario.env_A Scenario.demo_config
               (importStatement
                  (detect_from content (Path.basename Scenario.tsx_A (u ".tsx")))
                  (forward_slashes Scenario.tsx_A)))) /\
  content_on_disk (project_tsconfig Scenario.env_A)
    (snd (createTempProject Scenario.env_A Scenario.tsx_A Scenario.demo_config
            Scenario.both_submitted)) = Some tsconfig_json /\
  content_on_disk (project_config Scenario.env_A)
    (snd (createTempProject Scenario.env_A Scenario.tsx_A Scenario.demo_config
            Scenario.both_submitted)) = Some remotionConfig.
Proof.
  apply (X14_created_project_is_complete Scenario.env_A Scenario.tsx_A Scenario.demo_config
           Scenario.both_submitted Scenario.project_A
           (snd (createTempProject Scenario.env_A Scenario.tsx_A Scenario.demo_config
                   Scenario.both_submitted))).
  apply run_returns. vm_compute; reflexivity.
Defined.

Lemma createTempProject_confined env tsxFilePath config st p :
  project_path env p = false ->
  st_fs (snd (createTempProject env tsxFilePath config st)) !! p = st_fs st !! p /\
  st_calls (snd (createTempProject env tsxFilePath config st)) = st_calls st /\
  st_log (snd (createTempProject env tsxFilePath config st)) = st_log st.
Proof.
  intros Hp.
  assert (Hnot : forall q, In q (project_paths env) -> p <> q).
  { intros q Hq ->. unfold project_path in Hp.
    assert (existsb (str_eqb q) (project_paths env) = true); [|congruence].
    apply existsb_exists. exists q. split; [exact Hq | apply str_eqb_refl]. }
  assert (Hw : forall q data s r s',
             In q (project_paths env) -> writeFile env q data s = (r, s') ->
             st_fs s' !! p = st_fs s !! p /\ st_calls s' = st_calls s /\ st_log s' = st_log s).
  { intros q data s r s' Hq E. apply writeFile_run in E as [(e & _ & ->)|[_ ->]]; [auto|].
    simpl. split; [|auto]. apply lookup_insert_ne. intros Heq. exact (Hnot q Hq (eq_sym Heq)). }
  assert (Hm : forall q s r s',
             In q (project_paths env) -> mkdir env q s = (r, s') ->
             st_fs s' !! p = st_fs s !! p /\ st_calls s' = st_calls s /\ st_log s' = st_log s).
  { intros q s r s' Hq E. apply mkdir_run in E as (F & _ & Hc & Hl & _).
    split; [|auto]. apply F. apply Hnot. exact Hq. }
  unfold createTempProject. cbv zeta. unfold bind.
  fold (project_src env).
  fold (project_index env) (project_root env) (project_tsconfig env) (project_config env).
  destruct (mkdir env (tempDir_name env) st) as [r1 s1] eqn:E1.
  apply Hm in E1 as (A1 & B1 & C1); [|unfold project_paths; simpl; auto].
  destruct r1 as [[]|e1]; [|simpl; auto].
  destruct (mkdir env (project_src env) s1) as [r2 s2] eqn:E2.
  apply Hm in E2 as (A2 & B2 & C2); [|unfold project_paths; simpl; auto].
  destruct r2 as [[]|e2]; [|simpl; split; [|split]; congruence].
  destruct (detectExportStyle env tsxFilePath s2) as [r3 s3] eqn:E3.
  apply detectExportStyle_run in E3 as [-> _].
  destruct r3 as [style|e3]; [|simpl; split; [|split]; congruence].
  destruct (writeFile env (project_index env) indexTs s2) as [r4 s4] eqn:E4.
  apply Hw in E4 as (A4 & B4 & C4); [|unfold project_paths; simpl; auto].
  destruct r4 as [[]|e4]; [|simpl; split; [|split]; congruence].
  destruct (writeFile env (project_root env) _ s4) as [r5 s5] eqn:E5.
  apply Hw in E5 as (A5 & B5 & C5); [|unfold project_paths; simpl; auto].
  destruct r5 as [[]|e5]; [|simpl; split; [|split]; congruence].
  destruct (writeFile env (project_tsconfig env) tsconfig_json s5) as [r6 s6] eqn:E6.
  apply Hw in E6 as (A6 & B6 & C6); [|unfold project_paths; simpl; auto 7].
  destruct r6 as [[]|e6]; [|simpl; split; [|split]; congruence].
  destruct (writeFile env (project_config env) remotionConfig s6) as [r7 s7] eqn:E7.
  apply Hw in E7 as (A7 & B7 & C7); [|unfold project_paths; simpl; auto 7].
  destruct r7 as [[]|e7]; simpl; split; [|split| |split]; congruence.
Qed.




(** ** What a job may touch *)

Section FrameAt.
Context (env : Env) (p : str) (v : option node).

Lemma holds_at_log_blind : log_blind (holds_at p v).
Proof. intros st l H. exact H. Qed.

Lemma holds_at_add_call st (c : call) : True -> holds_at p v st -> holds_at p v (add_call c st).
Proof. intros _ H. exact H. Qed.

Lemma keeps_at_writeFile q data : q <> p -> keeps (holds_at p v) (writeFile env q data).
Proof.
  intros Hq st r st' H E. apply writeFile_run in E as [(e & _ & ->)|[_ ->]]; [exact H|].
  unfold holds_at in *. simpl. rewrite lookup_insert_ne by exact Hq. exact H.
Qed.

Lemma keeps_at_unlink q : q <> p -> keeps (holds_at p v) (unlink env q).
Proof.
  intros Hq st r st' H E. apply unlink_run in E as [(e & _ & ->)|[_ ->]]; [exact H|].
  unfold holds_at in *. simpl. rewrite lookup_delete_ne by exact Hq. exact H.
Qed.

Lemma keeps_at_eval src : eval_pure env -> keeps (holds_at p v) (eval env src).
Proof.
  intros Hpure st r st' H. unfold eval, bind, record, modify.
  pose proof (Hpure src (st_fs (add_call (CallEval src) st))) as Hfs.
  destruct (js_eval env src (st_fs (add_call (CallEval src) st))) as [[x|] fs'];
    simpl in Hfs; subst fs'; intros [= <- <-]; exact H.
Qed.

Lemma keeps_at_extractCompositionConfig path :
  eval_pure env -> keeps (holds_at p v) (extractCompositionConfig env path).
Proof.
  intros Hpure. unfold extractCompositionConfig.
  apply keeps_bind; [apply keeps_readFile|]. intros content.
  unfold extract_from. destruct (str_match _ _); [|apply keeps_throw].
  apply keeps_try_catch; [|intros; apply keeps_ret].
  unfold eval_config.
  apply keeps_bind; [apply keeps_at_eval; exact Hpure|]. intros x.
  repeat (apply keeps_bind; [apply keeps_prop|intros ?]). apply keeps_ret.
Qed.

Lemma keeps_at_createTempProject tsxFilePath config :
  project_path env p = false ->
  keeps (holds_at p v) (createTempProject env tsxFilePath config).
Proof.
  intros Hp st r st' H E.
  pose proof (createTempProject_confined env tsxFilePath config st p Hp) as [Hfs _].
  rewrite E in Hfs. unfold holds_at in *. simpl in Hfs. congruence.
Qed.

Lemma keeps_at_renderMedia args :
  ra_outputLocation args <> p -> keeps (holds_at p v) (renderMedia env args).
Proof.
  intros Hq. unfold renderMedia.
  apply keeps_bind; [apply keeps_modify; auto|]. intros _.
  apply keeps_bind.
  - destruct (ro_written _); [|apply keeps_ret]. apply keeps_modify.
    intros st H. unfold holds_at in *. simpl. rewrite lookup_insert_ne by exact Hq. exact H.
  - intros _. destruct (ro_error _); [apply keeps_throw | apply keeps_ret].
Qed.

Lemma keeps_at_render_with_config jobId tsxFilePath outputFileName outputPath config :
  tsxFilePath <> p -> outputPath <> p -> project_path env p = false ->
  keeps (holds_at p v)
    (render_with_config env jobId tsxFilePath outputFileName outputPath config).
Proof.
  intros H1 H2 H3. unfold render_with_config. cbv zeta.
  apply keeps_bind;
    [apply keeps_ensureBrowser with (call_ok := fun _ => True);
     auto using holds_at_add_call|]. intros _.
  apply keeps_bind; [apply keeps_log_info; apply holds_at_log_blind|]. intros _.
  apply keeps_bind; [apply keeps_at_createTempProject; exact H3|]. intros d.
  apply keeps_bind; [apply keeps_modify; auto|]. intros _.
  apply keeps_bind; [apply keeps_log_info; apply holds_at_log_blind|]. intros _.
  apply keeps_bind;
    [apply keeps_bundle with (call_ok := fun _ => True); auto using holds_at_add_call|].
  intros bundleLocation.
  apply keeps_bind; [apply keeps_log_info; apply holds_at_log_blind|]. intros _.
  apply keeps_bind;
    [apply keeps_selectComposition with (call_ok := fun _ => True);
     auto using holds_at_add_call|].
  intros composition.
  apply keeps_bind; [apply keeps_log_info; apply holds_at_log_blind|]. intros _.
  apply keeps_bind; [apply keeps_at_renderMedia; exact H2|]. intros _.
  apply keeps_bind; [apply keeps_log_info; apply holds_at_log_blind|]. intros _.
  apply keeps_bind; [apply keeps_at_unlink; exact H1|]. intros _.
  apply keeps_bind; [apply keeps_readFile|]. intros stream.
  apply keeps_ret.
Qed.

Lemma keeps_at_render_try jobId tsx tsxFilePath outputFileName outputPath :
  eval_pure env ->
  tsxFilePath <> p -> outputPath <> p -> project_path env p = false ->
  keeps (holds_at p v) (render_try env jobId tsx tsxFilePath outputFileName outputPath).
Proof.
  intros Hpure H1 H2 H3. unfold render_try.
  apply keeps_bind; [apply keeps_at_writeFile; exact H1|]. intros _.
  apply keeps_bind; [apply keeps_log_info; apply holds_at_log_blind|]. intros _.
  apply keeps_bind.
  - apply keeps_try_catch; [|intros; apply keeps_ret].
    apply keeps_bind; [apply keeps_at_extractCompositionConfig; exact Hpure|]. intros config.
    apply keeps_bind; [apply keeps_log_info; apply holds_at_log_blind | intros; apply keeps_ret].
  - intros [reply|config]; [apply keeps_ret|].
    apply keeps_at_render_with_config; assumption.
Qed.

Lemma keeps_at_render_catch jobId tsxFilePath outputPath err :
  tsxFilePath <> p -> outputPath <> p ->
  keeps (holds_at p v) (render_catch env jobId tsxFilePath outputPath err).
Proof.
  intros H1 H2. unfold render_catch.
  apply keeps_bind; [apply keeps_log_error; apply holds_at_log_blind|]. intros _.
  apply keeps_bind; [|intros; apply keeps_ret].
  apply keeps_try_catch; [|intros; apply keeps_log_error; apply holds_at_log_blind].
  apply keeps_bind; [apply keeps_existsSync|]. intros b1.
  apply keeps_bind; [destruct b1; [apply keeps_at_unlink; exact H1 | apply keeps_ret]|].
  intros _.
  apply keeps_bind; [apply keeps_existsSync|]. intros b2.
  destruct b2; [apply keeps_at_unlink; exact H2 | apply keeps_ret].
Qed.

End FrameAt.



(** ** From the request to the evaluator *)

Lemma recorded_fs_blind c : fs_blind (fun st => In c (st_calls st)).
Proof. intros st f H. exact H. Qed.

Lemma recorded_log_blind c : log_blind (fun st => In c (st_calls st)).
Proof. intros st l H. exact H. Qed.

Lemma recorded_add_call c st (c' : call) :
  True -> In c (st_calls st) -> In c (st_calls (add_call c' st)).
Proof. intros _ H. right. exact H. Qed.



(** ** Start-up *)

Lemma mkdir_existing env p st r st' :
  is_directory p st = true -> mkdir env p st = (r, st') -> st' = st.
Proof.
  unfold mkdir, guarded, bind, get, throw, ret, modify, is_directory.
  destruct (fault env (OpMkdir p)); [intros _ [= _ <-]; reflexivity|].
  destruct (st_fs st !! p) as [[data t|t]|]; try discriminate.
  intros _ [= _ <-]. reflexivity.
Qed.



(** ** Normal forms of paths *)

Lemma plain_name_no_slash n : plain_name n = true -> no_slash n = true.
Proof. intros H. apply plain_name_parts in H as (_ & _ & _ & H). exact H. Qed.

Lemma good_segs_no_slash allow l :
  good_segs allow l = true -> Forall (fun s => no_slash s = true) l.
Proof.
  induction l as [|s l IH]; [constructor|]. cbn [good_segs].
  destruct (str_eqb s (u "..")) eqn:E.
  - intros H. apply andb_prop in H as [_ H]. constructor; [|apply IH; exact H].
    apply str_eqb_eq in E. subst s. reflexivity.
  - intros H. clear IH E. revert H. generalize (s :: l). intros l0 H.
    induction l0 as [|x l0 IH]; [constructor|]. simpl in H.
    apply andb_prop in H as [Hx H]. constructor; [apply plain_name_no_slash; exact Hx | auto].
Qed.

Lemma good_segs_plain allow l : forallb plain_name l = true -> good_segs allow l = true.
Proof.
  destruct l as [|s l]; [reflexivity|]. intros H. cbn [good_segs].
  destruct (str_eqb s (u "..")) eqn:E; [|exact H].
  apply str_eqb_eq in E. subst s. simpl in H. discriminate.
Qed.

Lemma good_segs_app_plain allow l n :
  good_segs allow l = true -> plain_name n = true -> good_segs allow (l ++ [n]) = true.
Proof.
  intros Hl Hn. induction l as [|s l IH].
  - apply good_segs_plain. simpl. rewrite Hn. reflexivity.
  - change ((s :: l) ++ [n]) with (s :: (l ++ [n])). cbn [good_segs] in *.
    destruct (str_eqb s (u "..")).
    + apply andb_prop in Hl as [Ha Hl]. apply andb_true_intro. split; [exact Ha | apply IH; exact Hl].
    + change (s :: (l ++ [n])) with ((s :: l) ++ [n]).
      rewrite forallb_app, Hl. simpl. rewrite Hn. reflexivity.
Qed.

Lemma good_segs_prefix allow l s :
  good_segs allow (l ++ [s]) = true -> good_segs allow l = true.
Proof.
  induction l as [|x l IH]; [reflexivity|].
  change ((x :: l) ++ [s]) with (x :: (l ++ [s])). cbn [good_segs].
  destruct (str_eqb x (u "..")).
  - intros H. apply andb_prop in H as [Ha H]. apply andb_true_intro. split; [exact Ha | apply IH; exact H].
  - change (x :: (l ++ [s])) with ((x :: l) ++ [s]). rewrite forallb_app.
    intros H. apply andb_prop in H as [H _]. exact H.
Qed.

Lemma good_segs_dots allow l :
  good_segs allow (l ++ [u ".."]) = true ->
  allow = true /\ good_segs allow ((l ++ [u ".."]) ++ [u ".."]) = true.
Proof.
  induction l as [|x l IH].
  - simpl. intros H. apply andb_prop in H as [Ha _]. subst allow. auto.
  - change ((x :: l) ++ [u ".."]) with (x :: (l ++ [u ".."])).
    change ((x :: (l ++ [u ".."])) ++ [u ".."]) with (x :: ((l ++ [u ".."]) ++ [u ".."])).
    cbn [good_segs]. destruct (str_eqb x (u "..")).
    + intros H. apply andb_prop in H as [Ha H]. destruct (IH H) as [_ IH'].
      split; [exact Ha|]. apply andb_true_intro. split; [exact Ha | exact IH'].
    + change (x :: (l ++ [u ".."])) with ((x :: l) ++ [u ".."]). rewrite forallb_app.
      intros H. apply andb_prop in H as [_ H]. simpl in H. discriminate.
Qed.

Lemma forallb_reversed {A} (p : A -> bool) l : forallb p (rev l) = forallb p l.
Proof.
  induction l as [|x l IH]; [reflexivity|]. cbn [rev forallb].
  rewrite forallb_app, IH. simpl. rewrite andb_true_r. apply andb_comm.
Qed.

Lemma split_slash_no_slash s cur :
  no_slash cur = true -> Forall (fun seg => no_slash seg = true) (Path.split_slash s cur).
Proof.
  revert cur; induction s as [|c s IH]; intros cur Hcur; cbn [Path.split_slash].
  - constructor; [|constructor]. unfold no_slash in *. rewrite forallb_reversed. exact Hcur.
  - destruct (char_eqb c Path.slash) eqn:E.
    + constructor; [unfold no_slash in *; rewrite forallb_reversed; exact Hcur|].
      apply IH. reflexivity.
    + apply IH. unfold no_slash in *. cbn [forallb]. rewrite E, Hcur. reflexivity.
Qed.

(** What the normalization keeps is in normal form. *)
Lemma normalize_segments_good allow segs :
  Forall (fun s => no_slash s = true) segs ->
  forall acc, good_segs allow (rev acc) = true ->
              good_segs allow (Path.normalize_segments allow segs acc) = true.
Proof.
  induction 1 as [|seg segs Hseg Hsegs IH]; intros acc Hacc; cbn [Path.normalize_segments].
  - exact Hacc.
  - destruct (str_eqb seg [] || str_eqb seg (u ".")) eqn:E1; [apply IH; exact Hacc|].
    apply orb_false_elim in E1 as [E0 E1].
    destruct (str_eqb seg (u "..")) eqn:E2.
    + destruct acc as [|top acc].
      * apply IH. apply str_eqb_eq in E2. subst seg. destruct allow; reflexivity.
      * destruct (str_eqb top (u "..")) eqn:E3.
        -- apply IH. apply str_eqb_eq in E2, E3. subst seg top.
           cbn [rev] in Hacc. destruct (good_segs_dots _ _ Hacc) as [-> H].
           cbn [rev]. exact H.
        -- apply IH. cbn [rev] in Hacc. eapply good_segs_prefix. exact Hacc.
    + apply IH. cbn [rev]. apply good_segs_app_plain; [exact Hacc|].
      unfold plain_name. rewrite E0, E1, E2. exact Hseg.
Qed.

Lemma normalize_segments_names allow l rest :
  forallb plain_name l = true ->
  forall acc, Path.normalize_segments allow (l ++ rest) acc
              = Path.normalize_segments allow rest (rev l ++ acc).
Proof.
  induction l as [|s l IH]; intros Hl acc; [reflexivity|].
  simpl in Hl. apply andb_prop in Hl as [Hs Hl].
  apply plain_name_parts in Hs as (H0 & H1 & H2 & _).
  change ((s :: l) ++ rest) with (s :: (l ++ rest)). cbn [Path.normalize_segments].
  rewrite H0, H1, H2. cbn [orb]. rewrite IH by exact Hl.
  cbn [rev]. rewrite <- app_assoc. reflexivity.
Qed.

(** Segments in normal form are kept as they are. *)
Lemma normalize_segments_replay allow l rest :
  good_segs allow l = true ->
  forall acc, (forall t, In t acc -> t = u "..") ->
    Path.normalize_segments allow (l ++ rest) acc
    = Path.normalize_segments allow rest (rev l ++ acc).
Proof.
  induction l as [|s l IH]; intros Hl acc Hacc; [reflexivity|].
  cbn [good_segs] in Hl. destruct (str_eqb s (u "..")) eqn:E.
  - apply andb_prop in Hl as [Ha Hl]. subst allow.
    apply str_eqb_eq in E. subst s.
    change ((u ".." :: l) ++ rest) with (u ".." :: (l ++ rest)).
    cbn [Path.normalize_segments].
    change (str_eqb (u "..") [] || str_eqb (u "..") (u ".")) with false.
    change (str_eqb (u "..") (u "..")) with true. cbv iota.
    assert (Hnext : Path.normalize_segments true (l ++ rest) (u ".." :: acc)
                    = Path.normalize_segments true rest (rev (u ".." :: l) ++ acc)).
    { rewrite IH; [cbn [rev]; rewrite <- app_assoc; reflexivity | exact Hl |].
      intros t [<-|Ht]; [reflexivity | apply Hacc; exact Ht]. }
    destruct acc as [|top acc]; [exact Hnext|].
    rewrite (Hacc top (or_introl eq_refl)).
    change (str_eqb (u "..") (u "..")) with true. cbv iota.
    rewrite (Hacc top (or_introl eq_refl)) in Hnext. exact Hnext.
  - apply normalize_segments_names. exact Hl.
Qed.

Lemma join_slash_snoc l n :
  l <> [] -> Path.join_slash (l ++ [n]) = Path.join_slash l ++ Path.slash :: n.
Proof.
  induction l as [|x l IH]; [congruence|]. intros _.
  destruct l as [|y l]; [reflexivity|].
  change ((x :: y :: l) ++ [n]) with (x :: ((y :: l) ++ [n])).
  change (Path.join_slash (x :: (y :: l) ++ [n]))
    with (x ++ Path.slash :: Path.join_slash ((y :: l) ++ [n])).
  rewrite IH by discriminate.
  change (Path.join_slash (x :: y :: l)) with (x ++ Path.slash :: Path.join_slash (y :: l)).
  rewrite <- app_assoc. reflexivity.
Qed.

Lemma split_join_slash l :
  Forall (fun s => no_slash s = true) l -> l <> [] ->
  Path.split_slash (Path.join_slash l) [] = l.
Proof.
  induction 1 as [|x l Hx Hl IH]; [congruence|]. intros _.
  destruct l as [|y l].
  - simpl. apply (split_slash_plain x []). exact Hx.
  - change (Path.join_slash (x :: y :: l)) with (x ++ Path.slash :: Path.join_slash (y :: l)).
    rewrite split_slash_app, (split_slash_plain x [] Hx), IH by discriminate. reflexivity.
Qed.

Lemma good_segs_head_not_slash allow l :
  l <> [] -> good_segs allow l = true ->
  exists c t, Path.join_slash l = c :: t /\ char_eqb c Path.slash = false.
Proof.
  destruct l as [|s l]; [congruence|]. intros _ H.
  assert (Hs : exists c t, s = c :: t /\ char_eqb c Path.slash = false).
  { cbn [good_segs] in H. destruct (str_eqb s (u "..")) eqn:E.
    - apply str_eqb_eq in E. subst s. exists (ch "."), (u "."). split; reflexivity.
    - simpl in H. apply andb_prop in H as [H _].
      apply plain_name_parts in H as (H0 & _ & _ & H3).
      destruct s as [|c t]; [discriminate|]. exists c, t. split; [reflexivity|].
      simpl in H3. apply andb_prop in H3 as [H3 _]. apply negb_true_iff in H3. exact H3. }
  destruct Hs as (c & t & -> & Hc). destruct l as [|y l].
  - exists c, t. auto.
  - exists c, (t ++ Path.slash :: Path.join_slash (y :: l)). auto.
Qed.

Lemma good_segs_last_not_slash allow l :
  l <> [] -> good_segs allow l = true ->
  exists t c, Path.join_slash l = t ++ [c] /\ char_eqb c Path.slash = false.
Proof.
  intros Hne H. destruct (exists_last Hne) as (l0 & s & ->).
  assert (Hs : exists t c, s = t ++ [c] /\ char_eqb c Path.slash = false).
  { pose proof (good_segs_no_slash _ _ H) as Hall.
    apply Forall_app in Hall as [_ Hall]. inversion Hall as [|? ? Hs _]; subst.
    assert (Hnz : s <> []).
    { intros ->. clear -H. induction l0 as [|x l0 IH]; [discriminate H|].
      change ((x :: l0) ++ [[]]) with (x :: (l0 ++ [[]])) in H. cbn [good_segs] in H.
      destruct (str_eqb x (u "..")).
      - apply andb_prop in H as [_ H]. auto.
      - change (x :: (l0 ++ [[]])) with ((x :: l0) ++ [[]]) in H.
        rewrite forallb_app in H. apply andb_prop in H as [_ H]. discriminate H. }
    destruct (exists_last Hnz) as (t & c & ->). exists t, c. split; [reflexivity|].
    unfold no_slash in Hs. rewrite forallb_app in Hs. apply andb_prop in Hs as [_ Hs].
    simpl in Hs. rewrite andb_true_r in Hs. apply negb_true_iff in Hs. exact Hs. }
  destruct Hs as (t & c & -> & Hc).
  destruct l0 as [|x l0].
  - exists t, c. auto.
  - rewrite join_slash_snoc by discriminate.
    exists (Path.join_slash (x :: l0) ++ Path.slash :: t), c.
    split; [|exact Hc]. rewrite <- app_assoc. reflexivity.
Qed.

(** A path in normal form is left as it is by the normalization. *)
Lemma normalize_path_of abs l :
  l <> [] -> good_segs (negb abs) l = true ->
  Path.normalize (path_of abs l) = path_of abs l.
Proof.
  intros Hne Hgood.
  destruct (good_segs_head_not_slash _ _ Hne Hgood) as (c & t & Ehead & Hc).
  destruct (good_segs_last_not_slash _ _ Hne Hgood) as (t' & c' & Elast & Hc').
  assert (Habs : Path.is_absolute (path_of abs l) = abs).
  { unfold path_of, Path.is_absolute. destruct abs; [reflexivity|].
    cbn [app]. rewrite Ehead. cbn [starts_with]. unfold char_eqb in *.
    rewrite N.eqb_sym, Hc. reflexivity. }
  assert (Htrail : ends_with [Path.slash] (path_of abs l) = false).
  { unfold ends_with, path_of. rewrite Elast, app_assoc, rev_app_distr.
    cbn [rev app starts_with]. unfold char_eqb in *. rewrite N.eqb_sym, Hc'. reflexivity. }
  assert (Hsplit : Path.normalize_segments (negb abs) (Path.split_slash (path_of abs l) []) []
                   = l).
  { assert (Hl : Path.normalize_segments (negb abs) l [] = l).
    { rewrite <- (app_nil_r l) at 1.
      rewrite normalize_segments_replay; [|exact Hgood|intros ? []].
      cbn [Path.normalize_segments]. rewrite app_nil_r. apply rev_involutive. }
    unfold path_of. destruct abs.
    - cbn [app Path.split_slash]. change (char_eqb Path.slash Path.slash) with true. cbv iota.
      rewrite split_join_slash; [|eapply good_segs_no_slash; exact Hgood|exact Hne].
      cbn [rev Path.normalize_segments]. exact Hl.
    - cbn [app]. rewrite split_join_slash;
        [exact Hl | eapply good_segs_no_slash; exact Hgood | exact Hne]. }
  unfold Path.normalize.
  destruct (path_of abs l) as [|c0 p0] eqn:Ep.
  { unfold path_of in Ep. rewrite Ehead in Ep. destruct abs; discriminate. }
  rewrite Habs, Hsplit, Htrail. rewrite Ehead.
  unfold path_of in Ep. rewrite Ehead in Ep. rewrite <- Ep. destruct abs; reflexivity.
Qed.

(** The path of a directory and a file name is in normal form. *)
Lemma join_clean a n : plain_name n = true -> clean_path (Path.join [a; n]).
Proof.
  intros Hn.
  assert (Hnorm : forall x, (x = [] \/ exists y, x = y ++ [Path.slash]) ->
                            clean_path (Path.normalize (x ++ n))).
  { intros x Hx.
    destruct (plain_name_last n Hn) as (npre & c & En & Hc).
    pose proof (plain_name_no_slash n Hn) as Hns.
    assert (Hsplit : exists segs, Path.split_slash (x ++ n) [] = segs ++ [n]).
    { destruct Hx as [->|[y ->]].
      - exists []. simpl. apply split_slash_plain; exact Hns.
      - rewrite <- app_assoc. simpl. rewrite split_slash_app.
        rewrite (split_slash_plain n [] Hns). eauto. }
    destruct Hsplit as [segs Hsplit].
    assert (Htrail : ends_with [Path.slash] (x ++ n) = false).
    { unfold ends_with. rewrite En, app_assoc, rev_app_distr.
      cbn [rev app starts_with]. unfold char_eqb in *. rewrite N.eqb_sym, Hc. reflexivity. }
    set (abs := Path.is_absolute (x ++ n)).
    assert (Hgood : good_segs (negb abs)
                      (Path.normalize_segments (negb abs) (Path.split_slash (x ++ n) []) [])
                    = true).
    { apply normalize_segments_good; [|reflexivity]. apply split_slash_no_slash. reflexivity. }
    destruct (normalize_segments_last (negb abs) segs n [] Hn) as [acc' Hacc].
    rewrite Hsplit in Hgood. rewrite Hacc in Hgood.
    exists abs, (rev (n :: acc')). split; [|split; [|exact Hgood]].
    - unfold Path.normalize. destruct (x ++ n) as [|c0 p0] eqn:Ep.
      { rewrite En in Ep. destruct x; [destruct npre|]; discriminate. }
      rewrite Hsplit, Htrail. fold abs. rewrite Hacc.
      destruct (Path.join_slash (rev (n :: acc'))) as [|b0 body] eqn:Eb.
      { exfalso. cbn [rev] in Eb. destruct (join_slash_last (rev acc') n) as [pre Hpre].
        rewrite Hpre in Eb. apply app_eq_nil in Eb as [_ Eb]. rewrite En in Eb.
        destruct npre; discriminate. }
      unfold path_of. rewrite Eb. destruct abs; reflexivity.
    - cbn [rev]. destruct (rev acc'); discriminate. }
  unfold Path.join. simpl.
  destruct (plain_name_parts n Hn) as (H0 & _). rewrite H0.
  destruct (str_eqb a []) eqn:Ea; simpl.
  - apply (Hnorm []). auto.
  - destruct a as [|c a]; [discriminate|].
    change ((c :: a) ++ Path.slash :: n) with ((c :: a) ++ [Path.slash] ++ n).
    rewrite app_assoc. apply Hnorm. eauto.
Qed.

Lemma clean_path_nonempty p : clean_path p -> p <> [].
Proof.
  intros (abs & l & -> & Hne & Hgood).
  destruct (good_segs_head_not_slash _ _ Hne Hgood) as (c & t & E & _).
  unfold path_of. rewrite E. destruct abs; discriminate.
Qed.

(** A file name joined to a path in normal form is appended to it. *)
Lemma join_clean_name p n :
  clean_path p -> plain_name n = true ->
  Path.join [p; n] = p ++ Path.slash :: n /\ clean_path (p ++ Path.slash :: n).
Proof.
  intros Hp Hn. pose proof (clean_path_nonempty p Hp) as Hpne.
  destruct Hp as (abs & l & -> & Hne & Hgood).
  assert (E : path_of abs l ++ Path.slash :: n = path_of abs (l ++ [n])).
  { unfold path_of. rewrite join_slash_snoc by exact Hne. rewrite <- app_assoc. reflexivity. }
  assert (Hgood' : good_segs (negb abs) (l ++ [n]) = true)
    by (apply good_segs_app_plain; assumption).
  assert (Hne' : l ++ [n] <> []) by (destruct l; discriminate).
  split.
  - unfold Path.join. simpl.
    destruct (plain_name_parts n Hn) as (H0 & _). rewrite H0.
    destruct (str_eqb (path_of abs l) []) eqn:Ea;
      [apply str_eqb_eq in Ea; congruence|]. simpl.
    rewrite E. apply normalize_path_of; assumption.
  - rewrite E. exists abs, (l ++ [n]). auto.
Qed.

(** Two file names joined to a path in normal form at once. *)
Lemma join_clean_names p n m :
  clean_path p -> plain_name n = true -> plain_name m = true ->
  Path.join [p; n; m] = (p ++ Path.slash :: n) ++ Path.slash :: m.
Proof.
  intros Hp Hn Hm. pose proof (clean_path_nonempty p Hp) as Hpne.
  destruct (join_clean_name p n Hp Hn) as [_ Hpn].
  destruct Hpn as (abs & l & E & Hne & Hgood).
  assert (E' : (p ++ Path.slash :: n) ++ Path.slash :: m = path_of abs (l ++ [m])).
  { rewrite E. unfold path_of. rewrite join_slash_snoc by exact Hne.
    rewrite <- app_assoc. reflexivity. }
  unfold Path.join. simpl.
  destruct (plain_name_parts n Hn) as (Hn0 & _). destruct (plain_name_parts m Hm) as (Hm0 & _).
  rewrite Hn0, Hm0.
  destruct (str_eqb p []) eqn:Ea; [apply str_eqb_eq in Ea; congruence|]. simpl.
  replace (p ++ Path.slash :: n ++ Path.slash :: m)
    with ((p ++ Path.slash :: n) ++ Path.slash :: m)
    by (rewrite <- app_assoc; reflexivity).
  rewrite E'. apply normalize_path_of; [destruct l; discriminate|].
  apply good_segs_app_plain; assumption.
Qed.

(** ** The paths of a project *)

Lemma tempDir_clean env : clean_path (tempDir_name env).
Proof. unfold tempDir_name. apply join_clean. apply project_name_plain. Qed.

Lemma project_src_path env :
  project_src env = tempDir_name env ++ Path.slash :: u "src" /\ clean_path (project_src env).
Proof.
  unfold project_src.
  destruct (join_clean_name (tempDir_name env) (u "src") (tempDir_clean env) eq_refl)
    as [E H].
  rewrite E. auto.
Qed.

Lemma project_index_path env :
  project_index env = (tempDir_name env ++ Path.slash :: u "src") ++ Path.slash :: u "index.ts".
Proof.
  destruct (project_src_path env) as [E H]. unfold project_index.
  destruct (join_clean_name (project_src env) (u "index.ts") H eq_refl) as [E' _].
  rewrite E', E. reflexivity.
Qed.

Lemma project_root_path env :
  project_root env = (tempDir_name env ++ Path.slash :: u "src") ++ Path.slash :: u "Root.tsx".
Proof.
  destruct (project_src_path env) as [E H]. unfold project_root.
  destruct (join_clean_name (project_src env) (u "Root.tsx") H eq_refl) as [E' _].
  rewrite E', E. reflexivity.
Qed.

Lemma project_tsconfig_path env :
  project_tsconfig env = tempDir_name env ++ Path.slash :: u "tsconfig.json".
Proof.
  unfold project_tsconfig.
  apply (join_clean_name (tempDir_name env) (u "tsconfig.json") (tempDir_clean env) eq_refl).
Qed.

Lemma project_config_path env :
  project_config env = tempDir_name env ++ Path.slash :: u "remotion.config.ts".
Proof.
  unfold project_config.
  apply (join_clean_name (tempDir_name env) (u "remotion.config.ts") (tempDir_clean env)
           eq_refl).
Qed.

(** The entry point the handler builds in one step is the index file
    that createTempProject wrote in two. *)
Lemma entry_point_is_index env :
  Path.join [tempDir_name env; u "src"; u "index.ts"] = project_index env.
Proof.
  rewrite project_index_path.
  apply (join_clean_names (tempDir_name env) (u "src") (u "index.ts") (tempDir_clean env));
    reflexivity.
Qed.

Lemma starts_with_app a x : starts_with a (a ++ x) = true.
Proof.
  induction a as [|c a IH]; [reflexivity|]. cbn [app starts_with].
  unfold char_eqb. rewrite N.eqb_refl. exact IH.
Qed.

Lemma below_appended d x : below d (d ++ Path.slash :: x) = true.
Proof.
  unfold below. change (d ++ Path.slash :: x) with (d ++ [Path.slash] ++ x).
  rewrite app_assoc. apply starts_with_app.
Qed.

(** The files of a project lie in its directory. *)
Lemma project_paths_inside env p :
  project_path env p = true -> inside (tempDir_name env) p.
Proof.
  unfold project_path, project_paths. intros H.
  apply existsb_exists in H as (q & Hq & Heq). apply str_eqb_eq in Heq. subst q.
  destruct (project_src_path env) as [Esrc _].
  pose proof (project_index_path env) as Ei. pose proof (project_root_path env) as Er.
  pose proof (project_tsconfig_path env) as Et. pose proof (project_config_path env) as Ec.
  destruct Hq as [<-|[<-|[<-|[<-|[<-|[<-|[]]]]]]].
  - left. reflexivity.
  - right. rewrite Esrc. apply below_appended.
  - right. rewrite Ei, <- app_assoc. apply below_appended.
  - right. rewrite Er, <- app_assoc. apply below_appended.
  - right. rewrite Et. apply below_appended.
  - right. rewrite Ec. apply below_appended.
Qed.

Section EntryPoint.
Context (env : Env).

Lemma entry_ok_fs_blind : fs_blind (fun st => Forall (entry_ok env) (st_calls st)).
Proof. intros st f H. exact H. Qed.

Lemma entry_ok_log_blind : log_blind (fun st => Forall (entry_ok env) (st_calls st)).
Proof. intros st l H. exact H. Qed.

Lemma entry_ok_add_call st c :
  entry_ok env c -> Forall (entry_ok env) (st_calls st) ->
  Forall (entry_ok env) (st_calls (add_call c st)).
Proof. intros Hc H. constructor; assumption. Qed.

Lemma keeps_entry_render_with_config jobId tsxFilePath outputFileName outputPath config :
  keeps (fun st => Forall (entry_ok env) (st_calls st))
    (render_with_config env jobId tsxFilePath outputFileName outputPath config).
Proof.
  unfold render_with_config.
  apply keeps_bind;
    [apply keeps_ensureBrowser with (call_ok := entry_ok env);
     [apply entry_ok_add_call | exact I]|]. intros _.
  apply keeps_bind; [apply keeps_log_info; apply entry_ok_log_blind|]. intros _.
  eapply hoare_bind;
    [apply hoare_createTempProject; apply entry_ok_fs_blind
    | | intros e st [H _]; exact H].
  intros d. apply hoare_assume. intros ->.
  apply keeps_bind; [apply keeps_modify; auto|]. intros _.
  apply keeps_bind; [apply keeps_log_info; apply entry_ok_log_blind|]. intros _. cbv zeta.
  apply keeps_bind.
  { unfold bundle. apply keeps_bind.
    - apply keeps_modify. intros st H. apply entry_ok_add_call; [|exact H].
      split; [apply entry_point_is_index | reflexivity].
    - intros _. destruct (bundle_result env _); [apply keeps_throw | apply keeps_ret]. }
  intros bundleLocation.
  apply keeps_bind; [apply keeps_log_info; apply entry_ok_log_blind|]. intros _.
  apply keeps_bind;
    [apply keeps_selectComposition with (call_ok := entry_ok env);
     [apply entry_ok_add_call | intros; exact I]|].
  intros composition.
  apply keeps_bind; [apply keeps_log_info; apply entry_ok_log_blind|]. intros _.
  apply keeps_bind;
    [apply keeps_renderMedia with (call_ok := entry_ok env);
     [apply entry_ok_fs_blind | apply entry_ok_add_call | exact I]|]. intros _.
  apply keeps_bind; [apply keeps_log_info; apply entry_ok_log_blind|]. intros _.
  apply keeps_bind; [apply keeps_unlink; apply entry_ok_fs_blind|]. intros _.
  apply keeps_bind; [apply keeps_readFile|]. intros stream.
  apply keeps_ret.
Qed.

Lemma keeps_entry_render_try jobId tsx tsxFilePath outputFileName outputPath :
  keeps (fun st => Forall (entry_ok env) (st_calls st))
    (render_try env jobId tsx tsxFilePath outputFileName outputPath).
Proof.
  unfold render_try.
  apply keeps_bind; [apply keeps_writeFile; apply entry_ok_fs_blind|]. intros _.
  apply keeps_bind; [apply keeps_log_info; apply entry_ok_log_blind|]. intros _.
  apply keeps_bind.
  - apply keeps_try_catch; [|intros; apply keeps_ret].
    apply keeps_bind.
    + apply keeps_extractCompositionConfig; [apply entry_ok_fs_blind|].
      intros st src H. apply entry_ok_add_call; [exact I | exact H].
    + intros config.
      apply keeps_bind; [apply keeps_log_info; apply entry_ok_log_blind|].
      intros; apply keeps_ret.
  - intros [reply|config]; [apply keeps_ret|]. apply keeps_entry_render_with_config.
Qed.

End EntryPoint.

(** X19. Whenever the bundler is called during a job, its entry point is
    the index file that createTempProject wrote for the project (the handler
    builds the path in one step, createTempProject in two), and the modules
    directory is the renderer's own. *)
Theorem X19_bundler_gets_the_project_index env request st r st' entryPoint modules :
  st_calls st = [] ->
  render env request st = (r, st') ->
  In (CallBundle entryPoint modules) (st_calls st') ->
  entryPoint = project_index env /\
  modules = Path.join [dirname env; u "node_modules"].
Proof.
  intros Hcalls Hrun Hin.
  assert (Hall : Forall (entry_ok env) (st_calls st')).
  { assert (K : keeps (fun st => Forall (entry_ok env) (st_calls st)) (render env request)).
    { unfold render.
      destruct (tsx request) as [| | | |[|c t]|]; try apply keeps_ret.
      destruct (_ >? _); [apply keeps_ret|].
      destruct (outputFileName_of _ _); try apply keeps_throw.
      apply keeps_bind; [apply keeps_modify; auto|]. intros _.
      apply keeps_try_catch_finally.
      - apply keeps_entry_render_try.
      - intros e. apply keeps_render_catch; [apply entry_ok_fs_blind | apply entry_ok_log_blind].
      - apply keeps_render_finally. apply entry_ok_fs_blind. }
    eapply K; [|exact Hrun]. rewrite Hcalls. constructor. }
  apply (proj1 (List.Forall_forall _ _) Hall _ Hin).
Qed.

Lemma X19_bundler_gets_the_project_index_witness :
  u "/tmp/remotion-render-1700000000000/src/index.ts" = project_index Scenario.env_A /\
  u "/srv/app/node_modules" = Path.join [dirname Scenario.env_A; u "node_modules"].
Proof.
  apply (X19_bundler_gets_the_project_index Scenario.env_A Scenario.demo_request
           Scenario.booted
           (fst (render Scenario.env_A Scenario.demo_request Scenario.booted))
           (snd (render Scenario.env_A Scenario.demo_request Scenario.booted))).
  - reflexivity.
  - apply surjective_pairing.
  - vm_compute. right. right. left. reflexivity.
Defined.



(** ** The validators *)

Lemma starts_with_prefix a s : starts_with a s = true -> exists x, s = a ++ x.
Proof.
  revert s; induction a as [|c a IH]; intros s H; [exists s; reflexivity|].
  destruct s as [|d s]; [discriminate|]. cbn [starts_with] in H.
  apply andb_prop in H as [Hc H]. apply char_eqb_eq in Hc. subst d.
  destruct (IH s H) as [x ->]. exists x. reflexivity.
Qed.

Lemma includes_occurs needle hay :
  includes needle hay = true -> exists pre post, hay = pre ++ needle ++ post.
Proof.
  induction hay as [|c hay IH]; cbn [includes].
  - intros H. apply starts_with_prefix in H as [x Hx]. exists [], x. exact Hx.
  - intros H. apply orb_prop in H as [H|H].
    + apply starts_with_prefix in H as [x Hx]. exists [], x. exact Hx.
    + destruct (IH H) as (pre & post & ->). exists (c :: pre), post. reflexivity.
Qed.

Lemma includes_app needle pre post : includes needle (pre ++ needle ++ post) = true.
Proof.
  induction pre as [|c pre IH].
  - cbn [app]. destruct (needle ++ post) eqn:E.
    + apply app_eq_nil in E as [-> _]. reflexivity.
    + cbn [includes]. rewrite <- E, starts_with_app. reflexivity.
  - cbn [app includes]. rewrite IH. apply orb_true_r.
Qed.

Lemma component_export_Match rest s' cs :
  Match re_component_export rest [] s' cs ->
  exists c, named_export_here rest [c] s'.
Proof.
  unfold re_component_export, named_export_here; cbn [seqs]. intros H.
  apply Match_Seq in H as (s1 & c1 & H1 & H). apply Match_Lit in H1 as [-> ->].
  apply Match_Seq in H as (s2 & c2 & H2 & H).
  apply blank_Plus in H2 as (w1 & -> & Hw1 & ->).
  apply Match_Seq in H as (s3 & c3 & H3 & H).
  apply Match_Group in H3 as (c3' & H3 & ->).
  assert (Hkw : exists kw, s2 = kw ++ s3 /\ (kw = u "const" \/ kw = u "function")).
  { apply Match_Alt in H3 as [H3|H3]; apply Match_Lit in H3 as [-> _]; eauto. }
  destruct Hkw as (kw & -> & Hkw).
  apply Match_Seq in H as (s4 & c4 & H4 & H).
  apply blank_Plus in H4 as (w2 & -> & Hw2 & _).
  apply Match_Cls in H as (c & -> & Hc & _).
  exists c, w1, kw, w2, c, []. repeat split; try tauto; try apply Hw1; try apply Hw2.
Qed.

(** Two results that throw messages with different beginnings. *)
Ltac messages_differ :=
  let H := fresh "H" in
  intros H;
  apply (f_equal (fun r : Res bool => match r with Exc e => take 15 e | Val _ => [] end)) in H;
  vm_compute in H; discriminate H.

Section ValidatorFacts.
Context (env : Env) (access_error : str -> option str) (toLowerCase_builtin : str -> str).

(** What an accepted file went through. *)
Lemma validateTsxFile_accepts filePath st b st' :
  validateTsxFile env access_error toLowerCase_builtin filePath st = (Val b, st') ->
  st' = st /\ b = true /\
  exists content,
    readFile env filePath st = (Val content, st) /\
    includes (u "compositionConfig") content = true /\
    (includes (u "export default") content = true \/
     test re_component_export content = true).
Proof.
  unfold validateTsxFile. unfold bind at 1. unfold existsSync.
  destruct (bool_decide (is_Some (st_fs st !! filePath))) eqn:Hex; [|discriminate].
  cbn [negb]. cbv zeta.
  destruct (str_eqb _ (u ".tsx")); [|discriminate]. cbn [negb].
  unfold bind at 1. unfold try_catch, accessSync, bind, get.
  apply bool_decide_eq_true in Hex. destruct Hex as [n Hn]. rewrite Hn.
  destruct (access_error filePath); [discriminate|]. unfold ret at 1.
  destruct (readFile env filePath st) as [[content|e] s1] eqn:Er; [|discriminate].
  pose proof (readFile_run _ _ _ _ _ Er) as ->.
  destruct (includes (u "compositionConfig") content) eqn:Hc; [|discriminate]. cbn [negb].
  destruct (includes (u "export default") content) eqn:Hd;
    destruct (test re_component_export content) eqn:Ht; cbn [negb andb];
    try discriminate; intros [= <- <-]; repeat split; eauto 6.
Qed.

End ValidatorFacts.



(** X22. The validator's configuration check is the weaker one: every
    file from which extractCompositionConfig extracts a configuration
    mentions compositionConfig, so validateTsxFile never rejects such a file
    for lacking the configuration export. *)
Theorem X22_extractable_file_passes_config_check
        env access_error toLowerCase_builtin filePath st cfg st' :
  extractCompositionConfig env filePath st = (Val cfg, st') ->
  fst (validateTsxFile env access_error toLowerCase_builtin filePath st)
  <> Exc no_config_export_message.
Proof.
  intros Hext. unfold extractCompositionConfig, bind in Hext.
  destruct (readFile env filePath st) as [[content|e] s1] eqn:Er; [|discriminate].
  pose proof (readFile_run _ _ _ _ _ Er) as ->.
  assert (Hinc : includes (u "compositionConfig") content = true).
  { unfold extract_from in Hext.
    destruct (str_match re_compositionConfig content) as [m|] eqn:Hm; [|discriminate].
    assert (Hocc : config_export_occurs content) by (apply str_match_config_export; eauto).
    destruct Hocc as (pre & rest & literal & post & -> &
                      (w1 & w2 & w3 & w4 & body & -> & _)).
    replace (pre ++ u "export" ++ w1 ++ u "const" ++ w2 ++ u "compositionConfig" ++ w3 ++
             u "=" ++ w4 ++ literal ++ u ";" ++ post)
      with ((pre ++ u "export" ++ w1 ++ u "const" ++ w2) ++ u "compositionConfig" ++
            (w3 ++ u "=" ++ w4 ++ literal ++ u ";" ++ post))
      by (repeat rewrite <- app_assoc; reflexivity).
    apply includes_app. }
  unfold validateTsxFile. unfold bind at 1. unfold existsSync.
  destruct (bool_decide (is_Some (st_fs st !! filePath))) eqn:Hex; cbn [negb];
    [|messages_differ].
  cbv zeta. destruct (str_eqb _ (u ".tsx")); cbn [negb]; [|messages_differ].
  unfold bind at 1. unfold try_catch, accessSync, bind, get.
  destruct (st_fs st !! filePath) as [n|]; [|messages_differ].
  destruct (access_error filePath); [messages_differ|].
  unfold ret at 1. rewrite Er. rewrite Hinc. cbn [negb].
  destruct (negb (includes (u "export default") content)
            && negb (test re_component_export content)); [messages_differ|].
  discriminate.
Qed.

Lemma X22_extractable_file_passes_config_check_witness :
  fst (validateTsxFile Scenario.env_A (fun _ => None) (fun s => s) Scenario.tsx_A
         Scenario.both_submitted)
  <> Exc no_config_export_message.
Proof.
  apply (X22_extractable_file_passes_config_check Scenario.env_A (fun _ => None) (fun s => s)
           Scenario.tsx_A Scenario.both_submitted Scenario.demo_config
           (snd (extractCompositionConfig Scenario.env_A Scenario.tsx_A
                   Scenario.both_submitted))).
  apply run_returns. vm_compute; reflexivity.
Defined.

(** *** The output path of a job *)

Lemma span_stop {A} (p : A -> bool) a x r :
  forallb p a = true -> p x = false -> span p (a ++ x :: r) = (a, x :: r).
Proof.
  intros Ha Hx. induction a as [|c a IH]; cbn [app span].
  - rewrite Hx. reflexivity.
  - simpl in Ha. apply andb_prop in Ha as [Hc Ha]. rewrite Hc, (IH Ha). reflexivity.
Qed.

Lemma drop_trailing_slashes_name n rest :
  plain_name n = true ->
  Path.drop_trailing_slashes (rev n ++ rest) = rev n ++ rest.
Proof.
  intros Hn. destruct (plain_name_last n Hn) as (npre & c & -> & Hc).
  rewrite rev_app_distr. cbn [rev app Path.drop_trailing_slashes]. rewrite Hc. reflexivity.
Qed.

Lemma no_slash_reversed n : no_slash n = true ->
  forallb (fun c => negb (char_eqb c Path.slash)) (rev n) = true.
Proof. intros H. rewrite forallb_reversed. exact H. Qed.

(** The directory of a file in a directory in normal form is that
    directory. *)
Lemma dirname_appended p n :
  clean_path p -> plain_name n = true -> Path.dirname (p ++ Path.slash :: n) = p.
Proof.
  intros Hp Hn. pose proof (clean_path_nonempty p Hp) as Hne.
  destruct p as [|c t]; [congruence|].
  change ((c :: t) ++ Path.slash :: n) with (c :: (t ++ Path.slash :: n)).
  unfold Path.dirname.
  assert (Hrev : rev (t ++ Path.slash :: n) = rev n ++ Path.slash :: rev t).
  { rewrite rev_app_distr. cbn [rev]. rewrite <- app_assoc. reflexivity. }
  rewrite Hrev, (drop_trailing_slashes_name n _ Hn).
  rewrite span_stop;
    [|apply no_slash_reversed, plain_name_no_slash; exact Hn
     |unfold char_eqb; rewrite N.eqb_refl; reflexivity].
  cbn [snd length]. rewrite length_rev.
  assert (Hroot : (char_eqb c Path.slash && Nat.eqb (S (length t)) 1)%bool = false).
  { destruct (char_eqb c Path.slash) eqn:Hc; [|reflexivity]. cbn [andb].
    destruct t as [|d t]; [|reflexivity]. exfalso.
    apply char_eqb_eq in Hc. subst c.
    destruct Hp as (abs & l & E & Hl & Hgood).
    destruct (good_segs_head_not_slash _ _ Hl Hgood) as (c0 & t0 & Eh & Hc0).
    unfold path_of in E. rewrite Eh in E. destruct abs; [discriminate|].
    injection E as E _. subst c0. discriminate Hc0. }
  rewrite Hroot.
  change (take (S (length t)) (c :: t ++ Path.slash :: n))
    with (c :: take (length t) (t ++ Path.slash :: n)).
  rewrite take_app_length. reflexivity.
Qed.

(** The extension of a video file with a stem. *)
Lemma extname_appended p stem :
  stem <> [] -> no_slash stem = true ->
  Path.extname (p ++ Path.slash :: stem ++ u ".mp4") = u ".mp4".
Proof.
  intros Hne Hns. unfold Path.extname.
  assert (Hrev : rev (p ++ Path.slash :: stem ++ u ".mp4")
                 = (u "4pm." ++ rev stem) ++ Path.slash :: rev p).
  { rewrite rev_app_distr. cbn [rev]. rewrite rev_app_distr.
    change (rev (u ".mp4")) with (u "4pm."). rewrite <- !app_assoc. reflexivity. }
  rewrite Hrev. cbv zeta.
  change ((u "4pm." ++ rev stem) ++ Path.slash :: rev p)
    with (ch "4" :: (u "pm." ++ rev stem) ++ Path.slash :: rev p).
  cbn [Path.drop_trailing_slashes].
  change (char_eqb (ch "4") Path.slash) with false. cbv iota.
  change (ch "4" :: (u "pm." ++ rev stem) ++ Path.slash :: rev p)
    with ((u "4pm." ++ rev stem) ++ Path.slash :: rev p).
  rewrite span_stop;
    [|rewrite forallb_app; apply andb_true_intro; split;
      [reflexivity | apply no_slash_reversed; exact Hns]
     |unfold char_eqb; rewrite N.eqb_refl; reflexivity].
  cbn [fst].
  change (u "4pm." ++ rev stem) with (u "4pm" ++ Path.dot :: rev stem).
  rewrite span_stop; [|reflexivity|reflexivity].
  destruct (rev stem) as [|d r] eqn:Er.
  { exfalso. apply Hne. rewrite <- (rev_involutive stem), Er. reflexivity. }
  reflexivity.
Qed.

(** X23. The default output path of a job passes validateOutputPath:
    once the outputs directory exists, the path the handler builds from
    the job's token (not empty, no separator in it) and the video extension
    is accepted, with the state left as it is. *)
Theorem X23_default_output_path_is_valid env toLowerCase_builtin st :
  exists_on_disk (OUTPUT_DIR env) st = true ->
  randomUUID env <> [] ->
  no_slash (randomUUID env) = true ->
  validateOutputPath toLowerCase_builtin
    (job_output env (cat [randomUUID env; u ".mp4"])) st
  = (Val true, st).
Proof.
  intros Hex Hne Hns.
  assert (Hclean : clean_path (OUTPUT_DIR env)) by (apply join_clean; reflexivity).
  assert (Hname : plain_name (cat [randomUUID env; u ".mp4"]) = true).
  { unfold cat. cbn [concat]. rewrite app_nil_r. unfold plain_name.
    assert (Hlen : forall x, (length x <= 2)%nat -> randomUUID env ++ u ".mp4" <> x).
    { intros x Hx H. apply (f_equal (@length char)) in H.
      rewrite length_app in H. simpl in H. lia. }
    rewrite (proj2 (str_eqb_neq _ _) (Hlen [] ltac:(simpl; lia))).
    rewrite (proj2 (str_eqb_neq _ _) (Hlen (u ".") ltac:(simpl; lia))).
    rewrite (proj2 (str_eqb_neq _ _) (Hlen (u "..") ltac:(simpl; lia))).
    unfold no_slash in Hns. rewrite forallb_app, Hns. reflexivity. }
  destruct (join_clean_name _ _ Hclean Hname) as [Ejoin _].
  unfold job_output. rewrite Ejoin.
  unfold validateOutputPath. cbv zeta.
  rewrite (dirname_appended _ _ Hclean Hname).
  unfold bind, existsSync. unfold exists_on_disk in Hex. rewrite Hex. cbn [negb].
  unfold cat. cbn [concat]. rewrite app_nil_r.
  rewrite (extname_appended _ _ Hne Hns). reflexivity.
Qed.

Lemma X23_default_output_path_is_valid_witness :
  validateOutputPath (fun s => s)
    (job_output Scenario.env_A (cat [randomUUID Scenario.env_A; u ".mp4"])) Scenario.booted
  = (Val true, Scenario.booted).
Proof.
  apply (X23_default_output_path_is_valid Scenario.env_A (fun s => s) Scenario.booted).
  - vm_compute; reflexivity.
  - discriminate.
  - vm_compute; reflexivity.
Defined.

(** ** Matches computed *)

Lemma rmatch_Lit {A} w s cs (k : str -> captures -> option A) :
  rmatch (Lit w) s cs k = if starts_with w s then k (drop (length w) s) cs else None.
Proof.
  revert s; induction w as [|c w IH]; intros s; [reflexivity|].
  change (Lit (c :: w)) with (Seq (Chr c) (Lit w)). unfold Chr. cbn [rmatch].
  destruct s as [|d s]; [reflexivity|]. cbn [starts_with length drop].
  destruct (char_eqb c d); [apply IH | reflexivity].
Qed.

(** A greedy repetition of a class takes the whole run of the class when
    what follows matches there. *)
Lemma star_loop_greedy_run {A} p (k : str -> captures -> option A) a :
  forall fuel s cs, (length s <= fuel)%nat ->
    k (snd (span p s)) cs = Some a ->
    star_loop (rmatch (Cls p)) true k fuel s cs = Some a.
Proof.
  induction fuel as [|fuel IH]; intros s cs Hlen Hk.
  - destruct s; [|simpl in Hlen; lia]. cbn [star_loop]. exact Hk.
  - destruct s as [|c s]; [cbn [star_loop rmatch]; exact Hk|].
    cbn [star_loop rmatch]. cbn [span] in Hk. destruct (p c) eqn:E; [|exact Hk].
    destruct (Nat.ltb_spec (length s) (length (c :: s))) as [_|Hge]; [|simpl in Hge; lia].
    rewrite IH; [reflexivity | simpl in Hlen; lia |].
    destruct (span p s) as [x y]. exact Hk.
Qed.

Lemma rmatch_Star_run {A} p w s cs (k : str -> captures -> option A) a :
  forallb p w = true ->
  match s with [] => True | c :: _ => p c = false end ->
  k s cs = Some a ->
  rmatch (Star true (Cls p)) (w ++ s) cs k = Some a.
Proof.
  intros Hw Hs Hk. cbn [rmatch]. apply star_loop_greedy_run; [lia|].
  assert (E : snd (span p (w ++ s)) = s).
  { destruct s as [|c r].
    - rewrite app_nil_r. clear Hk Hs. induction w as [|x w IH]; [reflexivity|].
      simpl in Hw. apply andb_prop in Hw as [Hx Hw]. cbn [span]. rewrite Hx.
      specialize (IH Hw). destruct (span p w). exact IH.
    - rewrite span_stop by assumption. reflexivity. }
  rewrite E. exact Hk.
Qed.

(** The first match is the one at the first position where the pattern
    matches. *)
Lemma search_from_at r rest cs :
  forall n pre_rev s,
    (forall i, (i < n)%nat -> match_here r (drop i s) = None) ->
    match_here r (drop n s) = Some (rest, cs) ->
    search_from r pre_rev s
    = Some {| m_pre := rev pre_rev ++ take n s; m_text := consumed (drop n s) rest;
              m_caps := cs; m_post := rest |}.
Proof.
  induction n as [|n IH]; intros pre_rev s Hnone Hhere.
  - rewrite drop_0 in Hhere. rewrite take_0, app_nil_r, drop_0.
    destruct s; cbn [search_from]; rewrite Hhere; reflexivity.
  - pose proof (Hnone 0%nat ltac:(lia)) as H0. rewrite drop_0 in H0.
    destruct s as [|c s].
    + rewrite drop_nil in Hhere. congruence.
    + cbn [search_from]. rewrite H0. cbn [drop take] in *.
      rewrite (IH (c :: pre_rev) s); [|intros i Hi; apply (Hnone (S i)); lia|exact Hhere].
      cbn [rev]. rewrite <- app_assoc. reflexivity.
Qed.

Lemma starts_with_two_first x y a r :
  includes [x; y] (a ++ [x]) = false ->
  forall i, (i < length a)%nat -> starts_with [x; y] (drop i (a ++ x :: r)) = false.
Proof.
  induction a as [|c a IH]; intros H i Hi; [simpl in Hi; lia|].
  change ((c :: a) ++ [x]) with (c :: (a ++ [x])) in H. cbn [includes] in H.
  apply orb_false_elim in H as [H0 H].
  destruct i as [|i].
  - rewrite drop_0. clear IH H. destruct a as [|d a].
    + cbn [app starts_with] in *. exact H0.
    + cbn [app starts_with] in *. exact H0.
  - change (drop (S i) ((c :: a) ++ x :: r)) with (drop i (a ++ x :: r)).
    apply IH; [exact H | simpl in Hi; lia].
Qed.

Lemma includes_shorter needle a c : includes needle (a ++ [c]) = false ->
  needle <> [] -> includes needle a = false.
Proof.
  intros H Hne. destruct (includes needle a) eqn:E; [|reflexivity].
  apply includes_occurs in E as (pre & post & ->).
  rewrite <- !app_assoc in H. rewrite includes_app in H. discriminate.
Qed.

Lemma replace_all_unmatched r repl s :
  str_match r s = None -> replace_all r repl s = s.
Proof. intros H. unfold replace_all. cbn [replace_all_fuel]. rewrite H. reflexivity. Qed.

(** ** Comments in the literal *)

Lemma line_comment_here b :
  forallb (fun c => negb (is_line_terminator c)) b = true ->
  match_here re_line_comment (u "//" ++ b) = Some ([], []).
Proof.
  intros Hb. unfold match_here, re_line_comment. cbn [seqs].
  change (rmatch (Seq (Lit (u "//")) (Seq (Star true Dot) Eol)) (u "//" ++ b) []
            (fun rest cs => Some (rest, cs)))
    with (rmatch (Lit (u "//")) (u "//" ++ b) []
            (fun s1 c1 => rmatch (Star true Dot) s1 c1
                            (fun s2 c2 => rmatch Eol s2 c2 (fun rest cs => Some (rest, cs))))).
  rewrite rmatch_Lit, starts_with_app.
  change (drop (length (u "//")) (u "//" ++ b)) with b.
  rewrite <- (app_nil_r b) at 1. unfold Dot.
  apply rmatch_Star_run; [exact Hb | exact I | reflexivity].
Qed.

Lemma line_comment_absent s :
  starts_with (u "//") s = false -> match_here re_line_comment s = None.
Proof.
  intros H. unfold match_here, re_line_comment. cbn [seqs].
  change (rmatch (Seq (Lit (u "//")) (Seq (Star true Dot) Eol)) s []
            (fun rest cs => Some (rest, cs)))
    with (rmatch (Lit (u "//")) s []
            (fun s1 c1 => rmatch (Seq (Star true Dot) Eol) s1 c1
                            (fun rest cs => Some (rest, cs)))).
  rewrite rmatch_Lit, H. reflexivity.
Qed.

Lemma line_comment_none a :
  includes (u "//") a = false -> str_match re_line_comment a = None.
Proof.
  intros H. unfold str_match. apply search_from_None. intros i Hi.
  apply line_comment_absent.
  destruct (starts_with (u "//") (drop i a)) eqn:E; [|reflexivity].
  apply starts_with_prefix in E as [x Hx].
  assert (includes (u "//") a = true); [|congruence].
  rewrite <- (take_drop i a), Hx. apply includes_app.
Qed.

(** X24. A line-comment marker on the last line of the captured literal
    cuts the literal there, wherever the marker stands (inside a string
    value as well): the marker and all that follows it up to the end, the
    closing brace included, are removed before the evaluation, so that the
    literal is cleaned as if it ended before the marker. *)
Theorem X24_line_comment_cuts_the_literal a b :
  includes (u "//") (a ++ u "/") = false ->
  forallb (fun c => negb (is_line_terminator c)) b = true ->
  clean_config (a ++ u "//" ++ b) = clean_config a.
Proof.
  intros Hfirst Hb. unfold clean_config. f_equal. f_equal.
  rewrite (replace_all_unmatched _ _ a)
    by (apply line_comment_none; eapply includes_shorter; [exact Hfirst | discriminate]).
  unfold replace_all, str_match.
  assert (Hm : search_from re_line_comment [] (a ++ u "//" ++ b)
               = Some {| m_pre := a; m_text := u "//" ++ b; m_caps := []; m_post := [] |}).
  { rewrite (search_from_at re_line_comment [] [] (length a)).
    - rewrite take_app_length, drop_app_length. cbn [rev app].
      unfold consumed. cbn [length]. rewrite Nat.sub_0_r, firstn_all. reflexivity.
    - intros i Hi. apply line_comment_absent.
      apply (starts_with_two_first (ch "/") (ch "/") a (ch "/" :: b)); assumption.
    - rewrite drop_app_length. apply line_comment_here. exact Hb. }
  cbn [replace_all_fuel]. unfold str_match. rewrite Hm. cbn [m_pre m_text m_post app].
  change (u "//" ++ b) with (ch "/" :: (ch "/" :: b)). cbv iota.
  destruct (length (a ++ ch "/" :: ch "/" :: b)); cbn [replace_all_fuel];
    [apply app_nil_r|].
  change (str_match re_line_comment []) with (@None MatchResult). cbv iota.
  apply app_nil_r.
Qed.

Lemma X24_line_comment_cuts_the_literal_witness :
  clean_config (u "{ id: 'a', site: 'http:" ++ u "//" ++ u "example.org', fps: 24 }")
  = clean_config (u "{ id: 'a', site: 'http:").
Proof.
  apply (X24_line_comment_cuts_the_literal
           (u "{ id: 'a', site: 'http:") (u "example.org', fps: 24 }")).
  - vm_compute; reflexivity.
  - vm_compute; reflexivity.
Defined.

(** ** Values found by pattern *)

Lemma rmatch_Seq {A} r1 r2 s cs (k : str -> captures -> option A) :
  rmatch (Seq r1 r2) s cs k = rmatch r1 s cs (fun s1 c1 => rmatch r2 s1 c1 k).
Proof. reflexivity. Qed.

Lemma rmatch_Cls_ok {A} p c s cs (k : str -> captures -> option A) :
  p c = true -> rmatch (Cls p) (c :: s) cs k = k s cs.
Proof. intros H. cbn [rmatch]. rewrite H. reflexivity. Qed.

Lemma rmatch_Group {A} n r s cs (k : str -> captures -> option A) :
  rmatch (Group n r) s cs k
  = rmatch r s cs (fun s' c' => k s' ((n, consumed s s') :: c')).
Proof. reflexivity. Qed.

Lemma is_space_not_quote c : is_quote c = true -> is_space c = false.
Proof.
  unfold is_quote. intros H. apply orb_prop in H as [H|H]; apply char_eqb_eq in H; subst c;
    reflexivity.
Qed.

(** The pattern of a quoted value, matched where the key stands. *)
Lemma string_value_here key w1 w2 q1 value q2 post :
  forallb is_space w1 = true -> forallb is_space w2 = true ->
  is_quote q1 = true -> is_quote q2 = true ->
  value <> [] -> forallb (fun c => negb (is_quote c)) value = true ->
  match_here (re_string_value key)
    (key ++ w1 ++ ch ":" :: w2 ++ q1 :: value ++ q2 :: post)
  = Some (post, [(1%nat, value)]).
Proof.
  intros Hw1 Hw2 Hq1 Hq2 Hne Hvalue.
  destruct value as [|v0 vt]; [congruence|].
  cbn [forallb] in Hvalue. apply andb_prop in Hvalue as [Hv0 Hvt].
  unfold match_here, re_string_value. cbn [seqs].
  rewrite rmatch_Seq, rmatch_Lit, starts_with_app, drop_app_length.
  rewrite rmatch_Seq. apply rmatch_Star_run; [exact Hw1 | reflexivity |].
  rewrite rmatch_Seq. unfold Chr at 1. rewrite rmatch_Cls_ok by apply char_eqb_eq, eq_refl.
  rewrite rmatch_Seq. apply rmatch_Star_run;
    [exact Hw2 | apply is_space_not_quote; exact Hq1 |].
  rewrite rmatch_Seq, rmatch_Cls_ok by exact Hq1.
  rewrite rmatch_Seq, rmatch_Group. unfold Plus. rewrite rmatch_Seq.
  change ((v0 :: vt) ++ q2 :: post) with (v0 :: (vt ++ q2 :: post)).
  rewrite rmatch_Cls_ok by exact Hv0.
  apply rmatch_Star_run; [exact Hvt | rewrite Hq2; reflexivity |].
  rewrite rmatch_Cls_ok by exact Hq2.
  change (v0 :: vt ++ q2 :: post) with ((v0 :: vt) ++ q2 :: post).
  rewrite consumed_app. reflexivity.
Qed.

Lemma string_value_absent key s :
  starts_with key s = false -> match_here (re_string_value key) s = None.
Proof.
  intros H. unfold match_here, re_string_value. cbn [seqs].
  rewrite rmatch_Seq, rmatch_Lit, H. reflexivity.
Qed.

(** X25. extractValue on a quoted value: where the text of the key
    first occurs (as a key of its own or as the end of a longer one) and is
    followed by optional blanks, a colon, optional blanks and a non-empty
    text between two quote characters (of the same kind or not), the
    function returns that text, whatever follows. *)
Theorem X25_quoted_value_is_extracted key pre w1 w2 q1 value q2 post :
  forallb is_alnum key = true ->
  absent_before key (pre ++ key ++ w1 ++ ch ":" :: w2 ++ q1 :: value ++ q2 :: post)
    (length pre) = true ->
  forallb is_space w1 = true -> forallb is_space w2 = true ->
  is_quote q1 = true -> is_quote q2 = true ->
  value <> [] -> forallb (fun c => negb (is_quote c)) value = true ->
  extractValue (pre ++ key ++ w1 ++ ch ":" :: w2 ++ q1 :: value ++ q2 :: post) key
  = Some value.
Proof.
  intros _ Habsent Hw1 Hw2 Hq1 Hq2 Hne Hvalue.
  unfold extractValue, str_match.
  rewrite (search_from_at (re_string_value key) post [(1%nat, value)] (length pre)).
  - reflexivity.
  - intros i Hi. apply string_value_absent.
    unfold absent_before in Habsent.
    apply negb_true_iff.
    apply (proj1 (forallb_forall _ _) Habsent i). apply in_seq. lia.
  - rewrite drop_app_length. apply string_value_here; assumption.
Qed.

Lemma X25_quoted_value_is_extracted_witness :
  extractValue
    (u "{ gr" ++ u "id" ++ [] ++ ch ":" :: u " " ++ ch "'" :: u "4x4" ++ 34%N
       :: u ", id: 'demo' }") (u "id")
  = Some (u "4x4").
Proof.
  apply (X25_quoted_value_is_extracted (u "id") (u "{ gr") [] (u " ") (ch "'") (u "4x4") 34%N
           (u ", id: 'demo' }")).
  - reflexivity.
  - vm_compute; reflexivity.
  - reflexivity.
  - reflexivity.
  - reflexivity.
  - reflexivity.
  - discriminate.
  - vm_compute; reflexivity.
Defined.

(** ** Replies *)

Lemma job_source_path env :
  randomUUID env <> [] -> no_slash (randomUUID env) = true ->
  job_source env = TEMP_DIR env ++ Path.slash :: randomUUID env ++ u ".tsx".
Proof.
  intros Hne Hns.
  assert (Hclean : clean_path (TEMP_DIR env)) by (apply join_clean; reflexivity).
  assert (Hname : plain_name (cat [randomUUID env; u ".tsx"]) = true).
  { unfold cat. cbn [concat]. rewrite app_nil_r. unfold plain_name.
    assert (Hlen : forall x, (length x <= 2)%nat -> randomUUID env ++ u ".tsx" <> x).
    { intros x Hx H. apply (f_equal (@length char)) in H.
      rewrite length_app in H. simpl in H. lia. }
    rewrite (proj2 (str_eqb_neq _ _) (Hlen [] ltac:(simpl; lia))).
    rewrite (proj2 (str_eqb_neq _ _) (Hlen (u ".") ltac:(simpl; lia))).
    rewrite (proj2 (str_eqb_neq _ _) (Hlen (u "..") ltac:(simpl; lia))).
    unfold no_slash in Hns. rewrite forallb_app, Hns. reflexivity. }
  destruct (join_clean_name _ _ Hclean Hname) as [Ejoin _].
  unfold job_source. rewrite Ejoin. unfold cat. cbn [concat]. rewrite app_nil_r. reflexivity.
Qed.

(** The base name of a source file in a directory is its stem. *)
Lemma basename_appended p stem :
  stem <> [] -> no_slash stem = true ->
  Path.basename (p ++ Path.slash :: stem ++ u ".tsx") (u ".tsx") = stem.
Proof.
  intros Hne Hns. unfold Path.basename.
  assert (Hp : str_eqb (p ++ Path.slash :: stem ++ u ".tsx") (u ".tsx") = false).
  { apply str_eqb_neq. intros H. apply (f_equal (@length char)) in H.
    rewrite length_app in H. cbn [length] in H. rewrite length_app in H. simpl in H.
    destruct stem; [congruence | simpl in H; lia]. }
  rewrite Hp. cbv zeta.
  assert (Hcomp : Path.last_component (p ++ Path.slash :: stem ++ u ".tsx")
                  = stem ++ u ".tsx").
  { unfold Path.last_component.
    assert (Hrev : rev (p ++ Path.slash :: stem ++ u ".tsx")
                   = (u "xst." ++ rev stem) ++ Path.slash :: rev p).
    { rewrite rev_app_distr. cbn [rev]. rewrite rev_app_distr.
      change (rev (u ".tsx")) with (u "xst."). rewrite <- !app_assoc. reflexivity. }
    rewrite Hrev.
    change ((u "xst." ++ rev stem) ++ Path.slash :: rev p)
      with (ch "x" :: (u "st." ++ rev stem) ++ Path.slash :: rev p).
    cbn [Path.drop_trailing_slashes].
    change (char_eqb (ch "x") Path.slash) with false. cbv iota.
    change (ch "x" :: (u "st." ++ rev stem) ++ Path.slash :: rev p)
      with ((u "xst." ++ rev stem) ++ Path.slash :: rev p).
    rewrite span_stop;
      [|rewrite forallb_app; apply andb_true_intro; split;
        [reflexivity | apply no_slash_reversed; exact Hns]
       |unfold char_eqb; rewrite N.eqb_refl; reflexivity].
    cbn [fst]. rewrite rev_app_distr, rev_involutive. reflexivity. }
  rewrite Hcomp.
  assert (Hends : ends_with (u ".tsx") (stem ++ u ".tsx") = true).
  { unfold ends_with. rewrite rev_app_distr. apply starts_with_app. }
  assert (Hneq : str_eqb (stem ++ u ".tsx") (u ".tsx") = false).
  { apply str_eqb_neq. intros H. apply (f_equal (@length char)) in H.
    rewrite length_app in H. simpl in H. destruct stem; [congruence | simpl in H; lia]. }
  rewrite Hends, Hneq. cbn [andb negb].
  rewrite length_app.
  replace (length stem + length (u ".tsx") - length (u ".tsx"))%nat with (length stem) by lia.
  apply take_app_length.
Qed.

(** X26. A source without an export of the configuration: when the
    job's temporary file can be written and read back, the job is answered
    with status 400, and the details of the reply are the extractor's
    message, which names the job's token (the base name of the temporary
    file), not a name the client chose. *)
Theorem X26_missing_config_is_reported env request st s outputFileName :
  tsx request = VStr s ->
  acceptable_tsx (VStr s) = true ->
  outputFileName_of (randomUUID env) (filename request) = VStr outputFileName ->
  randomUUID env <> [] -> no_slash (randomUUID env) = true ->
  fault env (OpWrite (job_source env)) = None ->
  fault env (OpRead (job_source env)) = None ->
  is_directory (job_source env) st = false ->
  ~ config_export_occurs s ->
  fst (render env request st)
  = Val (invalid_config_reply (no_config_message (randomUUID env))).
Proof.
  intros Htsx Hacc Hname Hne Hns Hw Hr Hdir Hno.
  unfold render. rewrite Htsx.
  unfold acceptable_tsx in Hacc. apply andb_prop in Hacc as [Hnonempty Hsize].
  destruct s as [|c0 s]; [discriminate Hnonempty|].
  apply Z.leb_le in Hsize.
  destruct (Z.of_nat (length (c0 :: s)) >? MAX_TSX_SIZE) eqn:Hgt;
    [rewrite Z.gtb_ltb, Z.ltb_lt in Hgt; lia|].
  rewrite Hname. fold (job_source env) (job_output env outputFileName).
  unfold bind at 1. unfold modify. unfold try_catch_finally.
  set (st0 := set_tempProjectDir None st).
  assert (Htry : exists s1,
             render_try env (randomUUID env) (c0 :: s) (job_source env) outputFileName
               (job_output env outputFileName) st0
             = (Val (invalid_config_reply (no_config_message (randomUUID env))), s1)).
  { unfold render_try. unfold bind at 1.
    rewrite writeFile_ok; [|exact Hw|].
    2:{ intros t Ht. unfold is_directory in Hdir. change (st_fs st0) with (st_fs st) in Ht.
        rewrite Ht in Hdir. discriminate. }
    unfold bind at 1. unfold log_info at 1, modify at 1.
    set (s2 := add_log _ _).
    assert (Hread : readFile env (job_source env) s2 = (Val (c0 :: s), s2)).
    { apply (readFile_on_disk env _ _ (Date_now env)); [|exact Hr].
      subst s2. simpl. apply lookup_insert_eq. }
    unfold bind at 1. unfold try_catch at 1. unfold bind at 1.
    unfold extractCompositionConfig, bind at 1. rewrite Hread.
    unfold extract_from.
    destruct (str_match re_compositionConfig (c0 :: s)) as [m|] eqn:Hm.
    { exfalso. apply Hno. apply str_match_config_export. eauto. }
    unfold throw, ret. rewrite (job_source_path env Hne Hns), (basename_appended _ _ Hne Hns).
    eexists. reflexivity. }
  destruct Htry as [s1 Htry]. unfold try_catch. rewrite Htry.
  destruct (render_finally_run env s1) as (s2 & -> & _). reflexivity.
Qed.

Lemma X26_missing_config_is_reported_witness :
  fst (render Scenario.env_A Scenario.plain_request Scenario.booted)
  = Val (invalid_config_reply (no_config_message (randomUUID Scenario.env_A))).
Proof.
  apply (X26_missing_config_is_reported Scenario.env_A Scenario.plain_request Scenario.booted
           Scenario.plain_tsx Scenario.output_name_A).
  - reflexivity.
  - vm_compute; reflexivity.
  - reflexivity.
  - discriminate.
  - vm_compute; reflexivity.
  - reflexivity.
  - reflexivity.
  - vm_compute; reflexivity.
  - intros H. apply str_match_config_export in H. vm_compute in H. destruct H as [m H].
    discriminate H.
Defined.

(** ** When nothing fails *)

Lemma bind_Val {A B} (m : M A) (k : A -> M B) st a st' :
  m st = (Val a, st') -> bind m k st = k a st'.
Proof. intros H. unfold bind. rewrite H. reflexivity. Qed.

Lemma mkdir_ok env p st :
  fault env (OpMkdir p) = None ->
  (forall data t, st_fs st !! p <> Some (File data t)) ->
  exists st', mkdir env p st = (Val tt, st').
Proof.
  intros Hf Hp. unfold mkdir, guarded, bind, get, ret, modify. rewrite Hf.
  destruct (st_fs st !! p) as [[data t|t]|] eqn:E; eauto.
  exfalso. apply (Hp data t). reflexivity.
Qed.

Lemma unlink_ok env p st data t :
  fault env (OpUnlink p) = None -> st_fs st !! p = Some (File data t) ->
  unlink env p st = (Val tt, set_fs (delete p) st).
Proof.
  intros Hf Hp. unfold unlink, guarded, bind, get, modify. rewrite Hf, Hp. reflexivity.
Qed.

Lemma project_files_not_directories env :
  forall f, In f [project_index env; project_root env; project_tsconfig env;
                  project_config env] ->
            f <> tempDir_name env /\ f <> project_src env.
Proof.
  destruct (project_src_path env) as [Esrc _].
  pose proof (project_index_path env) as Ei. pose proof (project_root_path env) as Er.
  pose proof (project_tsconfig_path env) as Et. pose proof (project_config_path env) as Ec.
  assert (Hlen : forall a b : str, length a <> length b -> a <> b) by (intros a b H ->; auto).
  intros f [<-|[<-|[<-|[<-|[]]]]]; split; apply Hlen;
    rewrite ?Ei, ?Er, ?Et, ?Ec, ?Esrc; repeat (rewrite length_app; cbn [length]);
    simpl; lia.
Qed.

(** createTempProject returns when nothing stands in its way. *)
Lemma createTempProject_succeeds env tsxFilePath config st content :
  no_faults env -> project_free env st ->
  content_on_disk tsxFilePath st = Some content ->
  exists st', createTempProject env tsxFilePath config st = (Val (tempDir_name env), st').
Proof.
  intros Hf Hfree Hsrc.
  assert (Hin : forall p, In p (project_paths env) -> p <> tsxFilePath).
  { intros p Hp ->. unfold content_on_disk in Hsrc. rewrite (Hfree _ Hp) in Hsrc.
    discriminate. }
  unfold createTempProject. cbv zeta.
  fold (project_src env).
  fold (project_index env) (project_root env) (project_tsconfig env) (project_config env).
  destruct (mkdir_ok env (tempDir_name env) st (Hf _)) as [s1 E1].
  { intros data t H. rewrite (Hfree (tempDir_name env)) in H; [discriminate|].
    unfold project_paths. simpl. auto. }
  rewrite (bind_Val _ _ _ _ _ E1).
  pose proof (mkdir_run _ _ _ _ _ E1) as (F1 & K1 & _ & _ & D1). specialize (D1 eq_refl).
  destruct (mkdir_ok env (project_src env) s1 (Hf _)) as [s2 E2].
  { intros data t H. destruct (decide (project_src env = tempDir_name env)) as [Heq|Hne].
    - rewrite Heq in H. unfold is_directory in D1. rewrite H in D1. discriminate.
    - rewrite F1 in H by exact Hne. rewrite (Hfree (project_src env)) in H; [discriminate|].
      unfold project_paths. simpl. auto. }
  rewrite (bind_Val _ _ _ _ _ E2).
  pose proof (mkdir_run _ _ _ _ _ E2) as (F2 & K2 & _ & _ & D2). specialize (D2 eq_refl).
  assert (Hlook : forall q, q <> tempDir_name env -> q <> project_src env ->
                            st_fs s2 !! q = st_fs st !! q).
  { intros q H1 H2. rewrite F2, F1 by assumption. reflexivity. }
  assert (Hread : exists t, st_fs s2 !! tsxFilePath = Some (File content t)).
  { unfold content_on_disk in Hsrc.
    destruct (st_fs st !! tsxFilePath) as [[c t|t]|] eqn:E; try discriminate.
    injection Hsrc as ->. exists t. rewrite Hlook; [exact E| |].
    - intros Heq. apply (Hin (tempDir_name env)); [unfold project_paths; simpl; auto|].
      symmetry. exact Heq.
    - intros Heq. apply (Hin (project_src env)); [unfold project_paths; simpl; auto|].
      symmetry. exact Heq. }
  destruct Hread as [t Hread].
  assert (E3 : detectExportStyle env tsxFilePath s2
               = (Val (detect_from content (Path.basename tsxFilePath (u ".tsx"))), s2)).
  { unfold detectExportStyle. rewrite (bind_Val _ _ _ _ _
                                         (readFile_on_disk env _ _ _ _ Hread (Hf _))).
    reflexivity. }
  rewrite (bind_Val _ _ _ _ _ E3).
  set (files := [project_index env; project_root env; project_tsconfig env;
                 project_config env]).
  assert (Hfiles : forall f, In f files -> In f (project_paths env)).
  { intros f Hf'. unfold project_paths. simpl in Hf' |- *. tauto. }
  assert (Hstep : forall s f0 data,
             In f0 files ->
             (forall f, In f files -> forall t', st_fs s !! f <> Some (Dir t')) ->
             writeFile env f0 data s
             = (Val tt, set_fs (insert f0 (File data (Date_now env))) s) /\
             (forall f, In f files ->
                        forall t', st_fs (set_fs (insert f0 (File data (Date_now env))) s) !! f
                                   <> Some (Dir t'))).
  { intros s f0 data Hf0 Hinv. split.
    - apply writeFile_ok; [apply Hf | apply Hinv; exact Hf0].
    - intros f Hf' t'. simpl. destruct (decide (f0 = f)) as [->|Hne].
      + rewrite lookup_insert_eq. discriminate.
      + rewrite lookup_insert_ne by exact Hne. apply Hinv. exact Hf'. }
  assert (Inv2 : forall f, In f files -> forall t', st_fs s2 !! f <> Some (Dir t')).
  { intros f Hf' t'. destruct (project_files_not_directories env f Hf') as [N1 N2].
    rewrite Hlook by assumption. rewrite (Hfree f (Hfiles f Hf')). discriminate. }
  destruct (Hstep s2 (project_index env) indexTs ltac:(simpl; auto) Inv2) as [W1 Inv3].
  rewrite (bind_Val _ _ _ _ _ W1).
  destruct (Hstep _ (project_root env)
              (rootTsx env config
                 (importStatement (detect_from content (Path.basename tsxFilePath (u ".tsx")))
                                  (forward_slashes tsxFilePath)))
              ltac:(simpl; auto) Inv3) as [W2 Inv4].
  rewrite (bind_Val _ _ _ _ _ W2).
  destruct (Hstep _ (project_tsconfig env) tsconfig_json ltac:(simpl; auto) Inv4)
    as [W3 Inv5].
  rewrite (bind_Val _ _ _ _ _ W3).
  destruct (Hstep _ (project_config env) remotionConfig ltac:(simpl; auto) Inv5)
    as [W4 _].
  rewrite (bind_Val _ _ _ _ _ W4).
  eexists. reflexivity.
Qed.

Lemma ensureBrowser_ok env st :
  ensureBrowser_result env = None ->
  ensureBrowser env st = (Val tt, add_call CallEnsureBrowser st).
Proof. intros H. unfold ensureBrowser, bind, record, modify. rewrite H. reflexivity. Qed.

Lemma bundle_ok env entryPoint modules bundleLocation st :
  bundle_result env entryPoint = inr bundleLocation ->
  bundle env entryPoint modules st
  = (Val bundleLocation, add_call (CallBundle entryPoint modules) st).
Proof. intros H. unfold bundle, bind, record, modify. rewrite H. reflexivity. Qed.

Lemma selectComposition_ok env serveUrl i composition st :
  selectComposition_result env serveUrl i = inr composition ->
  selectComposition env serveUrl i st
  = (Val composition, add_call (CallSelectComposition serveUrl i) st).
Proof. intros H. unfold selectComposition, bind, record, modify. rewrite H. reflexivity. Qed.

Lemma renderMedia_ok env args data st :
  renderMedia_result env args = {| ro_written := Some data; ro_error := None |} ->
  renderMedia env args st
  = (Val tt, set_fs (insert (ra_outputLocation args) (File data (Date_now env)))
               (add_call (CallRenderMedia args) st)).
Proof. intros H. unfold renderMedia, bind, record, modify, ret. rewrite H. reflexivity. Qed.

Lemma log_info_run msg st : log_info msg st = (Val tt, add_log (LogInfo msg) st).
Proof. reflexivity. Qed.

Lemma modify_run f st : modify f st = (Val tt, f st).
Proof. reflexivity. Qed.

Lemma extractCompositionConfig_returns env p content t st :
  st_fs st !! p = Some (File content t) -> fault env (OpRead p) = None ->
  config_export_occurs content ->
  exists cfg st', extractCompositionConfig env p st = (Val cfg, st').
Proof.
  intros Hp Hf Hocc. unfold extractCompositionConfig.
  rewrite (bind_Val _ _ _ _ _ (readFile_on_disk env p content t st Hp Hf)).
  unfold extract_from. apply str_match_config_export in Hocc as [m ->].
  unfold try_catch.
  destruct (eval_config env (group1 m) (Path.basename p (u ".tsx")) st) as [[cfg|e] s1];
    eexists _, _; reflexivity.
Qed.

(** The pipeline returns the video when nothing fails. *)
Lemma render_with_config_succeeds
      env jobId tsxFilePath outputFileName outputPath config st content t data :
  no_faults env -> collaborators_succeed env data ->
  st_fs st !! tsxFilePath = Some (File content t) ->
  project_free env st ->
  project_path env tsxFilePath = false ->
  outputPath <> tsxFilePath ->
  exists st',
    render_with_config env jobId tsxFilePath outputFileName outputPath config st
    = (Val (video_reply outputFileName data), st').
Proof.
  intros Hf (Hbrowser & Hbundle & Hselect & Hrender) Hsrc Hfree Hpp Hne.
  unfold render_with_config.
  rewrite (bind_Val _ _ _ _ _ (ensureBrowser_ok env st Hbrowser)).
  rewrite (bind_Val _ _ _ _ _ (log_info_run _ _)).
  destruct (createTempProject_succeeds env tsxFilePath config
              (add_log (LogInfo (u "Browser ready")) (add_call CallEnsureBrowser st)) content)
    as [s1 E1]; [exact Hf | exact Hfree | unfold content_on_disk; simpl; rewrite Hsrc; reflexivity|].
  rewrite (bind_Val _ _ _ _ _ E1).
  pose proof (createTempProject_confined env tsxFilePath config
                (add_log (LogInfo (u "Browser ready")) (add_call CallEnsureBrowser st))
                tsxFilePath Hpp) as [Hkept _].
  rewrite E1 in Hkept. cbn [snd] in Hkept. simpl in Hkept. rewrite Hsrc in Hkept.
  rewrite (bind_Val _ _ _ _ _ (modify_run _ _)).
  rewrite (bind_Val _ _ _ _ _ (log_info_run _ _)). cbv zeta.
  destruct (Hbundle (Path.join [tempDir_name env; u "src"; u "index.ts"]))
    as [bundleLocation Hloc].
  rewrite (bind_Val _ _ _ _ _ (bundle_ok env _ _ _ _ Hloc)).
  rewrite (bind_Val _ _ _ _ _ (log_info_run _ _)).
  destruct (Hselect bundleLocation (id config)) as [composition Hcomp].
  rewrite (bind_Val _ _ _ _ _ (selectComposition_ok env _ _ _ _ Hcomp)).
  rewrite (bind_Val _ _ _ _ _ (log_info_run _ _)).
  rewrite (bind_Val _ _ _ _ _ (renderMedia_ok env _ data _ (Hrender _))).
  rewrite (bind_Val _ _ _ _ _ (log_info_run _ _)).
  cbn [ra_outputLocation].
  erewrite (bind_Val _ _ _ _ _ (unlink_ok env tsxFilePath _ content t (Hf _) _)).
  erewrite (bind_Val _ _ _ _ _ (readFile_on_disk env outputPath data (Date_now env) _ _ (Hf _))).
  eexists. reflexivity.
  Unshelve.
  - simpl. rewrite lookup_insert_ne by exact Hne. exact Hkept.
  - simpl. rewrite lookup_delete_ne by congruence. apply lookup_insert_eq.
Qed.




